(** * A shallow embedding of the Vinted monitoring pipeline

    The development follows the Python sources module by module:
    - [Py]            the fragment of the Python runtime the sources rely on
                      (strings, decoded JSON values, datetimes, exceptions);
    - [Database]      database.py: the search_urls and filters tables;
    - [Scraper]       vinted_scraper.py: rate limiting, the two parse paths and
                      the "new since last check" filter of get_new_listings;
    - [ProxyManager]  proxy_manager.py: the pool, scoring, selection and result
                      reports;
    - [Bot]           bot.py: apply_filters and the monitoring tick;
    - [Markup]        vinted_scraper.py: the extract_* helpers of the markup scan;
    - [ProxyHealth]   proxy_manager.py: the configuration, the health sweep,
                      get_proxy and the statistics;
    - [Commands]      bot.py: the two url patterns and the commands that write
                      the store;
    - [AsCalled]      get_new_listings on the values monitor_vinted passes;
    - [Interleaving]  monitor_vinted with the commands handled during a tick.

    Conventions.  An exception is the [None] of an option: a Python [try] is a
    [match] on it; [json.loads], of which one class of exception is caught
    apart, has a result type of its own.  Python floats are modelled by exact rationals ([Q]).
    Datetimes and the readings of [datetime.utcnow()] are integers counting
    microseconds; CURRENT_TIMESTAMP of the store counts whole seconds.  The
    clock only moves forward: time passes in amounts of type [N].  Library
    calls whose behaviour is not part of this repository ([float] on a
    string, [json.loads], [str], [datetime.fromtimestamp],
    [datetime.fromisoformat], [urlparse]) are the fields of the class
    [Py.Lib]; every definition and theorem is parametric in it, and
    [SampleLib] instantiates it for the worked examples. *)

From stdpp Require Import gmap strings list pretty.
From Stdlib Require Import Ascii String QArith Qminmax Qround.
From Stdlib Require Import Permutation Sorted Lqa.

Set Warnings "-register-all".
Close Scope Q_scope.
Open Scope string_scope.
Open Scope list_scope.
Open Scope Z_scope.

(* ===================================================================== *)
(** * The Python fragment                                                  *)
(* ===================================================================== *)

Module Py.

(** ** Exceptions *)

(** [raise] stands for any raised exception.  The sources catch [Exception]
    (or everything) wherever they catch, with one exception: around
    [json.loads] parse_vinted_listings catches json.JSONDecodeError only, so
    the result of that call keeps the two kinds of failure apart (see
    [loaded] below). *)
Definition raise {A : Type} : option A := None.

Notation "x <- e1 ;; e2" := (match e1 with Some x => e2 | None => None end)
  (at level 100, e1 at next level, right associativity).

(** ** Strings *)

(** [str.lower()], on the ASCII letters. *)
Definition lower_char (c : ascii) : ascii :=
  let n := nat_of_ascii c in
  if ((65 <=? n) && (n <=? 90))%nat then ascii_of_nat (n + 32) else c.

Fixpoint lower (s : string) : string :=
  match s with
  | EmptyString => EmptyString
  | String c rest => String (lower_char c) (lower rest)
  end.

(** [s.startswith(p)]. *)
Definition startswith (s p : string) : bool := String.prefix p s.

(** [needle in hay] on two strings. *)
Fixpoint contains (needle hay : string) : bool :=
  String.prefix needle hay ||
  match hay with
  | EmptyString => false
  | String _ rest => contains needle rest
  end.

(** Truth value of a string: non-empty. *)
Definition str_truthy (s : string) : bool :=
  match s with EmptyString => false | _ => true end.

(** [s.replace(old, new)] for a one-character [old]. *)
Fixpoint replace_char (old : ascii) (new : string) (s : string) : string :=
  match s with
  | EmptyString => EmptyString
  | String c rest =>
      if Ascii.eqb c old then new +:+ replace_char old new rest
      else String c (replace_char old new rest)
  end.

(** The characters of a string, as iterating over it yields them. *)
Fixpoint chars (s : string) : list string :=
  match s with
  | EmptyString => []
  | String c rest => String c EmptyString :: chars rest
  end.

(** [s.title()], on the ASCII letters: a letter that follows a letter is
    lowered, any other letter is raised. *)
Definition is_upper (c : ascii) : bool :=
  let n := nat_of_ascii c in ((65 <=? n) && (n <=? 90))%nat.
Definition is_lower (c : ascii) : bool :=
  let n := nat_of_ascii c in ((97 <=? n) && (n <=? 122))%nat.
Definition upper_char (c : ascii) : ascii :=
  if is_lower c then ascii_of_nat (nat_of_ascii c - 32) else c.

Fixpoint title_from (previous_is_cased : bool) (s : string) : string :=
  match s with
  | EmptyString => EmptyString
  | String c rest =>
      let c' := if previous_is_cased then lower_char c else upper_char c in
      String c' (title_from (is_upper c || is_lower c) rest)
  end.
Definition title_case (s : string) : string := title_from false s.

(** ** Lists *)

(** [sorted(l, key=...)]: the sort is stable, so insertion with ties kept in
    their original order produces the same list.  [goes_before x y] says
    that [x] may stand before [y]; it holds when the keys tie. *)
Fixpoint insert_by {A : Type} (goes_before : A -> A -> bool) (x : A) (l : list A)
  : list A :=
  match l with
  | [] => [x]
  | y :: rest =>
      if goes_before x y then x :: l else y :: insert_by goes_before x rest
  end.

Definition sorted_by {A : Type} (goes_before : A -> A -> bool) (l : list A) : list A :=
  foldr (insert_by goes_before) [] l.

(** ** Numbers *)

Definition Qltb (x y : Q) : bool := negb (Qle_bool y x).
Definition Qeqb (x y : Q) : bool := Qeq_bool x y.

(** ** Decoded JSON values, as [json.loads] returns them *)

Inductive json : Type :=
| JNull
| JBool (b : bool)
| JInt (z : Z)
| JFloat (q : Q)
| JStr (s : string)
| JList (l : list json)
| JDict (d : list (string * json)).

(** [d.get(key, default)] on a decoded object (keys are unique after
    decoding; the first binding is the binding). *)
Fixpoint dict_get (d : list (string * json)) (key : string) (default : json) : json :=
  match d with
  | [] => default
  | (k, v) :: rest => if String.eqb k key then v else dict_get rest key default
  end.

(** [key in d]. *)
Definition dict_has (d : list (string * json)) (key : string) : bool :=
  existsb (fun kv => String.eqb (fst kv) key) d.

(** Attribute access that only a [dict] has ([.get]): anything else raises
    AttributeError. *)
Definition as_dict (v : json) : option (list (string * json)) :=
  match v with JDict d => Some d | _ => raise end.

(** Attribute access that only a [str] has ([.lower], [.replace]). *)
Definition as_str (v : json) : option string :=
  match v with JStr s => Some s | _ => raise end.

(** Truth value of a decoded value. *)
Definition truthy (v : json) : bool :=
  match v with
  | JNull => false
  | JBool b => b
  | JInt z => negb (z =? 0)
  | JFloat q => negb (Qeqb q 0)
  | JStr s => str_truthy s
  | JList l => match l with [] => false | _ => true end
  | JDict d => match d with [] => false | _ => true end
  end.

(** ** Datetimes *)

(** A [datetime] is naive (no tzinfo: wall-clock microseconds) or aware (an
    instant, microseconds since the epoch in UTC). *)
Inductive datetime : Type :=
| Naive (us : Z)
| Aware (us : Z).

(** [a > b].  Ordering a naive against an aware datetime raises TypeError. *)
Definition dt_gt (a b : datetime) : option bool :=
  match a, b with
  | Naive x, Naive y => Some (y <? x)
  | Aware x, Aware y => Some (y <? x)
  | _, _ => raise
  end.

(** One unit of the datetime resolution later. *)
Definition dt_succ (a : datetime) : datetime :=
  match a with
  | Naive x => Naive (x + 1)
  | Aware x => Aware (x + 1)
  end.

(** ** Library calls *)

(** What [json.loads(s)] does: it returns the decoded value, it raises
    json.JSONDecodeError (the text is not a JSON document), or it raises
    something else (RecursionError on a document nested too deeply,
    ValueError on an integer literal longer than the limit of [int]). *)
Inductive loaded : Type :=
| Loaded (data : json)
| JSONDecodeError
| OtherError.

Class Lib : Type := {
  (** [float(s)] on a string; [None] is ValueError. *)
  float_of_str : string -> option Q;
  (** [json.loads(s)]. *)
  json_loads : string -> loaded;
  (** [str(v)] of a decoded value. *)
  str_of : json -> string;
  (** [datetime.fromtimestamp(t)]: the local wall-clock reading, a naive
      datetime; [None] is OverflowError, OSError or ValueError. *)
  fromtimestamp : Q -> option Z;
  (** [datetime.fromisoformat(s)]; [None] is ValueError. *)
  fromisoformat : string -> option datetime;
  (** [urlparse(url).netloc]; [None] is ValueError. *)
  urlparse_netloc : string -> option string
}.

(** [float(v)] on a decoded value. *)
Definition float_of `{Lib} (v : json) : option Q :=
  match v with
  | JInt z => Some (inject_Z z)
  | JFloat q => Some q
  | JBool b => Some (if b then 1%Q else 0%Q)
  | JStr s => float_of_str s
  | JNull | JList _ | JDict _ => raise
  end.

End Py.

Import Py.

(* ===================================================================== *)
(** * database.py                                                          *)
(* ===================================================================== *)

Module Database.

(** A row of the filters table. *)
Record filter_row : Type := {
  f_channel_id : Z;
  filter_type : string;
  filter_value : string;
  f_is_active : bool
}.

(** A row of the search_urls table.  [last_check] is the text that
    CURRENT_TIMESTAMP produced, a clock reading in whole seconds. *)
Record search_row : Type := {
  search_id : Z;
  channel_id : Z;
  search_url : string;
  domain : string;
  location : string;
  added_by : Z;
  last_check : Z;
  is_active : bool
}.

Record db : Type := {
  search_urls : list search_row;
  last_rowid : Z;                       (* AUTOINCREMENT sequence of search_urls *)
  filters : list filter_row
}.

Definition empty_db : db :=
  {| search_urls := []; last_rowid := 0; filters := [] |}.

(** add_search_url: INSERT; [last_check] takes its DEFAULT, the current time. *)
Definition add_search_url (now : Z) (channel_id : Z) (search_url domain location : string)
    (added_by : Z) (d : db) : Z * db :=
  let rowid := last_rowid d + 1 in
  let row := {| search_id := rowid; channel_id := channel_id; search_url := search_url;
                domain := domain; location := location; added_by := added_by;
                last_check := now; is_active := true |} in
  (rowid, {| search_urls := search_urls d ++ [row]; last_rowid := rowid;
             filters := filters d |}).

Definition deactivate (r : search_row) : search_row :=
  {| search_id := search_id r; channel_id := channel_id r; search_url := search_url r;
     domain := domain r; location := location r; added_by := added_by r;
     last_check := last_check r; is_active := false |}.

(** remove_search_url: UPDATE ... SET is_active = 0 WHERE id = ? AND channel_id = ? *)
Definition remove_search_url (id channel : Z) (d : db) : bool * db :=
  let hit r := (search_id r =? id) && (channel_id r =? channel) in
  (existsb hit (search_urls d),
   {| search_urls := map (fun r => if hit r then deactivate r else r) (search_urls d);
      last_rowid := last_rowid d; filters := filters d |}).

(** get_all_active_searches: WHERE is_active = 1 ORDER BY last_check ASC. *)
Definition get_all_active_searches (d : db) : list search_row :=
  sorted_by (fun r1 r2 => last_check r1 <=? last_check r2)
            (List.filter is_active (search_urls d)).

Definition set_last_check (now : Z) (r : search_row) : search_row :=
  {| search_id := search_id r; channel_id := channel_id r; search_url := search_url r;
     domain := domain r; location := location r; added_by := added_by r;
     last_check := now; is_active := is_active r |}.

(** update_search_last_check:
    UPDATE search_urls SET last_check = CURRENT_TIMESTAMP WHERE id = ?
    [io_ok = false] is a failing connection or statement: the exception is
    logged and the table is as before. *)
Definition update_search_last_check (io_ok : bool) (now : Z) (id : Z) (d : db) : db :=
  if io_ok then
    {| search_urls :=
         map (fun r => if search_id r =? id then set_last_check now r else r) (search_urls d);
       last_rowid := last_rowid d; filters := filters d |}
  else d.

(** get_channel_filters: the active rows of one channel. *)
Definition get_channel_filters (d : db) (channel : Z) : list filter_row :=
  List.filter (fun r => (f_channel_id r =? channel) && f_is_active r) (filters d).

(** add_filter: INSERT INTO filters. *)
Definition add_filter (channel : Z) (filter_type filter_value : string) (d : db) : db :=
  {| search_urls := search_urls d; last_rowid := last_rowid d;
     filters := filters d ++ [{| f_channel_id := channel; filter_type := filter_type;
                                 filter_value := filter_value; f_is_active := true |}] |}.

End Database.

Import Database.

(* ===================================================================== *)
(** * vinted_scraper.py                                                    *)
(* ===================================================================== *)

Module Scraper.

(** A listing dictionary, as both parse paths build it.  The record keeps the
    keys that the pipeline reads back: [id] and [title] (the fallback path's
    own test), [published_at] (get_new_listings), [price], [brand], [size]
    and [condition] (apply_filters).  [title], [brand] and [size] hold
    whatever the page supplied, hence a decoded value. *)
Record listing : Type := {
  id : string;
  title : json;
  price : Q;
  brand : json;
  size : json;
  condition : string;
  published_at : datetime
}.

(** ** The parsed document

    BeautifulSoup is outside the repository.  A page is what the two queries
    of the parser return on it: the [.string] of every script element, and
    the elements whose class matches item|product|listing, each with what
    the extract_* helpers read from it (on an element they return a value
    and never raise, so the [try] around one candidate never fires). *)
Record container : Type := {
  extracted_id : string;          (* extract_id_from_html(container) *)
  extracted_title : string;       (* extract_text(container, ['h3', 'h2', '.title']) *)
  extracted_price : Q;            (* extract_price_from_html(container) *)
  extracted_brand : string;       (* extract_text(container, ['.brand', '.brand-title']) *)
  extracted_size : string;        (* extract_text(container, ['.size', '.size-title']) *)
  extracted_condition : string    (* extract_text(container, ['.condition', '.status']) *)
}.

Record soup : Type := {
  script_tags : list (option string);   (* soup.find_all('script'), each .string *)
  item_containers : list container      (* soup.find_all(['div', 'article'], class_=...) *)
}.

(** ** re.search(r'window\.App\s*=\s*({.*?});', text, re.DOTALL) *)

(** [\s] on the ASCII range. *)
Definition is_space (c : ascii) : bool :=
  let n := nat_of_ascii c in
  (((9 <=? n) && (n <=? 13)) || ((28 <=? n) && (n <=? 32)))%nat.

Fixpoint skip_spaces (s : string) : string :=
  match s with
  | String c rest => if is_space c then skip_spaces rest else s
  | EmptyString => s
  end.

Fixpoint drop_prefix (p s : string) : option string :=
  match p, s with
  | EmptyString, _ => Some s
  | String a p', String b s' => if Ascii.eqb a b then drop_prefix p' s' else None
  | String _ _, EmptyString => None
  end.

(** The lazy [.*?] followed by [};]: the text before the first [};]. *)
Fixpoint lazy_until_close (s : string) : option string :=
  match s with
  | EmptyString => None
  | String c rest =>
      if String.prefix "};" s then Some EmptyString
      else option_map (String c) (lazy_until_close rest)
  end.

(** A match that starts at the first character; the result is group 1. *)
Definition match_window_app (s : string) : option string :=
  r1 <- drop_prefix "window.App" s ;;
  r2 <- drop_prefix "=" (skip_spaces r1) ;;
  r3 <- drop_prefix "{" (skip_spaces r2) ;;
  body <- lazy_until_close r3 ;;
  Some ("{" +:+ body +:+ "}").

(** The leftmost match. *)
Fixpoint re_search_window_app (s : string) : option string :=
  match match_window_app s with
  | Some group1 => Some group1
  | None =>
      match s with
      | EmptyString => None
      | String _ rest => re_search_window_app rest
      end
  end.

Section Parsing.
Context `{Lib}.

(** ** extract_domain *)

Definition extract_domain (url : string) : string :=
  match urlparse_netloc url with
  | Some netloc => netloc
  | None => "www.vinted.com"
  end.

(** ** get_condition_text

    The default of [conditions.get] is evaluated before the lookup, so a
    status that is not a string raises. *)
Definition conditions : list (string * string) :=
  [ ("very_good", "Very Good");
    ("good", "Good");
    ("satisfactory", "Satisfactory");
    ("new_with_tags", "New with Tags");
    ("new_without_tags", "New without Tags") ].

Fixpoint table_get (t : list (string * string)) (key default : string) : string :=
  match t with
  | [] => default
  | (k, v) :: rest => if String.eqb k key then v else table_get rest key default
  end.

Definition get_condition_text (status : json) : option string :=
  s <- as_str status ;;
  Some (table_get conditions s (title_case (replace_char "_" " " s))).

(** ** parse_datetime

    [now] is what [datetime.utcnow()] reads.  [bool] is a subclass of [int]. *)
Definition utcnow (now : Z) : datetime := Naive now.

Definition parse_datetime (timestamp : json) (now : Z) : datetime :=
  let from_number (t : Q) :=
    match fromtimestamp t with
    | Some wall => Naive wall
    | None => utcnow now
    end in
  match timestamp with
  | JInt z => from_number (inject_Z z)
  | JFloat q => from_number q
  | JBool b => from_number (if b then 1%Q else 0%Q)
  | JStr s =>
      match fromisoformat (replace_char "Z" "+00:00" s) with
      | Some d => d
      | None => utcnow now
      end
  | JNull | JList _ | JDict _ => utcnow now
  end.

(** ** parse_item_data *)

(** [photos[:4]], then the iteration over it. *)
Definition first_photos (photos : json) : option (list json) :=
  match photos with
  | JList l => Some (firstn 4 l)
  | JStr s => Some (map JStr (firstn 4 (chars s)))
  | _ => raise
  end.

(** [key in photo], for a photo of any decoded type. *)
Definition key_in (key : string) (photo : json) : option bool :=
  match photo with
  | JDict d => Some (dict_has d key)
  | JStr s => Some (contains key s)
  | JList l =>
      Some (existsb (fun e => match e with JStr s => String.eqb s key | _ => false end) l)
  | _ => raise
  end.

(** [photo[key]] after [key in photo] held: only a dict can be indexed by a
    string. *)
Definition photo_url (photo : json) : option (option json) :=
  full <- key_in "full_size_url" photo ;;
  if full then d <- as_dict photo ;; Some (Some (dict_get d "full_size_url" JNull))
  else
    plain <- key_in "url" photo ;;
    if plain then d <- as_dict photo ;; Some (Some (dict_get d "url" JNull))
    else Some None.

Fixpoint collect_images (photos : list json) : option (list json) :=
  match photos with
  | [] => Some []
  | photo :: rest =>
      u <- photo_url photo ;;
      us <- collect_images rest ;;
      Some (match u with Some x => x :: us | None => us end)
  end.

(** Every access that can raise is kept, also for the keys the record drops
    (currency, seller, url, updated_at, images, reviews_count, location);
    build_item_url, parse_datetime and extract_location_from_url catch their
    own exceptions. *)
Definition parse_item_data (item : json) (search_url : string) (now : Z)
  : option listing :=
  item <- as_dict item ;;
  let id := str_of (dict_get item "id" (JStr EmptyString)) in
  let title := dict_get item "title" (JStr EmptyString) in
  price_dict <- as_dict (dict_get item "price" (JDict [])) ;;
  price <- float_of (dict_get price_dict "amount" (JInt 0)) ;;
  let brand := dict_get item "brand_title" (JStr EmptyString) in
  let size := dict_get item "size_title" (JStr EmptyString) in
  condition <- get_condition_text (dict_get item "status" (JStr EmptyString)) ;;
  user <- as_dict (dict_get item "user" (JDict [])) ;;
  let published_at := parse_datetime (dict_get item "created_at_ts" JNull) now in
  photos <- first_photos (dict_get item "photos" (JList [])) ;;
  images <- collect_images photos ;;
  Some {| id := id; title := title; price := price; brand := brand; size := size;
          condition := condition; published_at := published_at |}.

(** ** parse_html_listings, the fallback *)

Definition html_listing (c : container) (now : Z) : listing :=
  {| id := extracted_id c;
     title := JStr (extracted_title c);
     price := extracted_price c;
     brand := JStr (extracted_brand c);
     size := JStr (extracted_size c);
     condition := extracted_condition c;
     published_at := utcnow now |}.

Definition parse_html_listings (page : soup) (search_url : string) (now : Z)
  : list listing :=
  List.filter (fun listing => str_truthy (id listing) && truthy (title listing))
              (map (fun c => html_listing c now) (firstn 20 (item_containers page))).

(** ** parse_vinted_listings *)

(** The loop over the script elements: the final value of [vinted_data],
    which is [None] when the loop ends without a [break].  The [try] inside
    the loop catches json.JSONDecodeError only: any other exception of
    json.loads leaves the loop, and the function through its outer
    [except]. *)
Fixpoint find_vinted_data (scripts : list (option string)) : option (option json) :=
  match scripts with
  | [] => Some None
  | script :: rest =>
      match script with
      | Some text =>
          if str_truthy text && contains "window.App" text then
            match re_search_window_app text with
            | Some group1 =>
                match json_loads group1 with
                | Loaded data => Some (Some data)             (* break *)
                | JSONDecodeError => find_vinted_data rest    (* continue *)
                | OtherError => raise                         (* not caught here *)
                end
            | None => find_vinted_data rest
            end
          else find_vinted_data rest
      | None => find_vinted_data rest
      end
  end.

(** [vinted_data and 'catalog' in vinted_data]. *)
Definition has_catalog (vinted_data : option json) : option bool :=
  match vinted_data with
  | None => Some false
  | Some v => if truthy v then key_in "catalog" v else Some false
  end.

(** What a [for] loop iterates over, for a decoded value. *)
Definition iterate (v : json) : option (list json) :=
  match v with
  | JList l => Some l
  | JStr s => Some (map JStr (chars s))
  | JDict d => Some (map (fun kv => JStr (fst kv)) d)
  | _ => raise
  end.

(** Which of the two branches built the result. *)
Inductive parse_path : Type := PrimaryPath | FallbackPath.

Definition parse_body (page : soup) (search_url : string) (now : Z)
  : option (parse_path * list listing) :=
  vinted_data <- find_vinted_data (script_tags page) ;;
  primary <- has_catalog vinted_data ;;
  if primary then
    data <- (v <- vinted_data ;; as_dict v) ;;
    catalog_data <- as_dict (dict_get data "catalog" (JDict [])) ;;
    items <- iterate (dict_get catalog_data "items" (JList [])) ;;
    Some (PrimaryPath, omap (fun item => parse_item_data item search_url now) items)
  else
    Some (FallbackPath, parse_html_listings page search_url now).

(** The branch taken, when the body ran to its end. *)
Definition path_taken (page : soup) (search_url : string) (now : Z)
  : option parse_path :=
  option_map fst (parse_body page search_url now).

Definition parse_vinted_listings (page : soup) (search_url : string) (now : Z)
  : list listing :=
  match parse_body page search_url now with
  | Some (_, listings) => listings
  | None => []                              (* except Exception: return [] *)
  end.

(** ** get_new_listings *)

(** The scraper object: [last_requests] (last request time per domain, a
    [utcnow()] reading) and [min_delay], in seconds. *)
Record scraper : Type := {
  last_requests : gmap string Z;
  min_delay : Z
}.

Definition new_scraper : scraper := {| last_requests := ∅; min_delay := 2 |}.

(** apply_rate_limit.  [now] is the reading of [datetime.utcnow()], in
    microseconds like every datetime; the first component is the time the
    caller is suspended in [asyncio.sleep(delay)], again in microseconds
    ([time_since_last < min_delay] compares seconds). *)
Definition apply_rate_limit (self : scraper) (now : Z) (domain : string) : Z * scraper :=
  let last_request := last_requests self !! domain in
  let delay :=
    match last_request with
    | Some last_request =>
        let time_since_last := now - last_request in
        if time_since_last <? min_delay self * 1000000
        then min_delay self * 1000000 - time_since_last
        else 0
    | None => 0
    end in
  (delay, {| last_requests := <[domain := now]> (last_requests self);
             min_delay := min_delay self |}).

(** What the outside world does during one scan: how long obtaining a proxy
    takes, what [session.get] and [response.text()] produce, and how long
    that takes. *)
Inductive response : Type :=
| ConnectionFailed                       (* session.get or response.text() raises *)
| Response (status : Z) (page : soup).

Record exchange : Type := {
  proxy_time : N;
  answer : response;
  latency : N
}.

(** The comprehension
    [[l for l in listings if l.get('published_at', datetime.min) > last_check]];
    both parse paths set the key, so the default is never used. *)
Fixpoint newer_than (listings : list listing) (last_check : datetime)
  : option (list listing) :=
  match listings with
  | [] => Some []
  | l :: rest =>
      keep <- dt_gt (published_at l) last_check ;;
      kept <- newer_than rest last_check ;;
      Some (if keep then l :: kept else kept)
  end.

(** One call of get_new_listings that starts when the clock reads [now].
    Time passes while the caller sleeps in the rate limiter, while a proxy is
    obtained and while the answer arrives; parsing the body takes no time,
    so every [utcnow()] of one parse reads [finished_at]. *)
Record scan : Type := {
  result : list listing;           (* the returned list *)
  requested_at : Z;                (* clock reading when session.get is issued *)
  finished_at : Z;                 (* clock reading when the call returns *)
  scraper_after : scraper
}.

Definition get_new_listings (self : scraper) (now : Z) (world : exchange)
    (search_url : string) (last_check : option datetime) : scan :=
  let domain := extract_domain search_url in
  let '(delay, self) := apply_rate_limit self now domain in
  let requested_at := now + delay + Z.of_N (proxy_time world) in
  let finished_at := requested_at + Z.of_N (latency world) in
  let result :=
    match answer world with
    | ConnectionFailed => []                          (* except Exception: return [] *)
    | Response status page =>
        if negb (status =? 200) then []
        else
          let listings := parse_vinted_listings page search_url finished_at in
          match last_check with
          | Some last_check =>                        (* a datetime is always true *)
              match newer_than listings last_check with
              | Some listings => listings
              | None => []                            (* except Exception: return [] *)
              end
          | None => listings
          end
    end in
  {| result := result; requested_at := requested_at; finished_at := finished_at;
     scraper_after := self |}.

(** Scans made one after the other, each starting when the previous one
    returns: the domain and the request time of each. *)
Fixpoint back_to_back (self : scraper) (now : Z) (scans : list (string * exchange))
  : list (string * Z) :=
  match scans with
  | [] => []
  | (search_url, world) :: rest =>
      let s := get_new_listings self now world search_url None in
      (extract_domain search_url, requested_at s)
        :: back_to_back (scraper_after s) (finished_at s) rest
  end.

End Parsing.

End Scraper.

Import Scraper.

(* ===================================================================== *)
(** * proxy_manager.py                                                     *)
(* ===================================================================== *)

Module ProxyManager.

(** A proxy_info dictionary. *)
Record proxy_info : Type := {
  url : string;
  proxy_type : string;
  success_count : Z;
  failure_count : Z;
  last_used : option Z;
  last_success : option Z;
  is_healthy : bool;
  response_time : option Q
}.

(** The manager.  [self.proxies] and [self.proxy_health] refer to the same
    dictionaries, so the dictionaries live in [heap] and both containers
    hold addresses into it. *)
Record manager : Type := {
  heap : list proxy_info;
  proxies : list nat;
  proxy_health : gmap string nat
}.

Definition empty_manager : manager :=
  {| heap := []; proxies := []; proxy_health := ∅ |}.

(** The dictionaries [self.proxies] lists, in order. *)
Definition pool (self : manager) : list proxy_info :=
  omap (fun a => heap self !! a) (proxies self).

(** The dictionary [self.proxy_health[proxy_url]]. *)
Definition tracked (self : manager) (proxy_url : string) : option proxy_info :=
  a ← proxy_health self !! proxy_url; heap self !! a.

(** get_proxy and the health sweep probe the network and are not modelled;
    what follows is the state they share with the operations below. *)

(** ** is_valid_proxy_url, add_proxy, remove_proxy *)

Definition valid_prefixes : list string :=
  ["http://"; "https://"; "socks4://"; "socks5://"].

Definition is_valid_proxy_url (proxy_url : string) : bool :=
  existsb (fun prefix => startswith proxy_url prefix) valid_prefixes.

Definition add_proxy (self : manager) (proxy_url : string) (proxy_type : string)
  : bool * manager :=
  if negb (is_valid_proxy_url proxy_url) then (false, self)
  else
    let info :=
      {| url := proxy_url; proxy_type := proxy_type;
         success_count := 0; failure_count := 0;
         last_used := None; last_success := None;
         is_healthy := true; response_time := None |} in
    let address := List.length (heap self) in
    (true, {| heap := heap self ++ [info];
              proxies := proxies self ++ [address];
              proxy_health := <[proxy_url := address]> (proxy_health self) |}).

Definition remove_proxy (self : manager) (proxy_url : string) : bool * manager :=
  let keeps a :=
    match heap self !! a with
    | Some p => negb (String.eqb (url p) proxy_url)
    | None => true
    end in
  (true, {| heap := heap self;
            proxies := List.filter keeps (proxies self);
            proxy_health := delete proxy_url (proxy_health self) |}).

(** ** select_best_proxy *)

(** Truth value of an optional float: [None] and [0.0] are false. *)
Definition float_truthy (x : option Q) : bool :=
  match x with
  | Some q => negb (Qeqb q 0)
  | None => false
  end.

(** [max(a, b)]: the second argument only when it is larger. *)
Definition py_max (a b : Q) : Q := if Qltb a b then b else a.

(** [a / b] on floats; dividing by zero raises ZeroDivisionError. *)
Definition py_div (a b : Q) : option Q :=
  if Qeqb b 0 then raise else Some (a / b)%Q.

Definition proxy_score (proxy : proxy_info) : option Q :=
  let total_requests := success_count proxy + failure_count proxy in
  let success_rate :=
    if total_requests =? 0 then 1%Q
    else (inject_Z (success_count proxy) / inject_Z total_requests)%Q in
  response_time_factor <-
    (if float_truthy (response_time proxy) then
       match response_time proxy with
       | Some t => r <- py_div 1 (1 + t)%Q ;; Some (py_max (1 # 10) r)
       | None => Some 1%Q
       end
     else Some 1%Q) ;;
  Some (success_rate * response_time_factor)%Q.

(** The two draws the function may make: [random.random()], which
    [random.choices] scales by the total weight, and the index that
    [random.choice] draws below the length of its argument. *)
Record randomness : Type := {
  random : Q;
  randbelow : nat -> nat
}.

(** [itertools.accumulate(weights)]. *)
Fixpoint accumulate_from (acc : Z) (weights : list Z) : list Z :=
  match weights with
  | [] => []
  | w :: rest => (acc + w) :: accumulate_from (acc + w) rest
  end.
Definition accumulate (weights : list Z) : list Z := accumulate_from 0 weights.

(** [bisect(a, x, 0, hi)] on an increasing list: how many of the first [hi]
    elements are at most [x]. *)
Fixpoint bisect (a : list Z) (x : Q) (hi : nat) : nat :=
  match hi, a with
  | S hi', y :: rest => if Qle_bool (inject_Z y) x then S (bisect rest x hi') else O
  | _, _ => O
  end.

(** [random.choices(population, weights=weights)[0]]. *)
Definition choices {A : Type} (population : list A) (weights : list Z) (u : Q)
  : option A :=
  let cum_weights := accumulate weights in
  let total := inject_Z (List.last cum_weights 0) in
  population !! bisect cum_weights (u * total)%Q (List.length population - 1).

(** [random.choice(seq)]. *)
Definition choice {A : Type} (seq : list A) (rnd : randomness) : option A :=
  seq !! (randbelow rnd (List.length seq) mod List.length seq)%nat.

(** The keys [sorted] computes before it sorts. *)
Fixpoint keyed (healthy_proxies : list proxy_info) : option (list (Q * proxy_info)) :=
  match healthy_proxies with
  | [] => Some []
  | p :: rest =>
      k <- proxy_score p ;;
      ks <- keyed rest ;;
      Some ((k, p) :: ks)
  end.

(** [sorted(healthy_proxies, key=proxy_score, reverse=True)] *)
Definition by_score_descending (a b : Q * proxy_info) : bool := Qle_bool (fst b) (fst a).

Definition sorted_proxies (healthy_proxies : list proxy_info) : option (list proxy_info) :=
  ks <- keyed healthy_proxies ;;
  Some (map snd (sorted_by by_score_descending ks)).

Definition select_best_proxy (healthy_proxies : list proxy_info) (rnd : randomness)
  : option proxy_info :=
  match healthy_proxies with
  | [] => None
  | _ =>
      match sorted_proxies healthy_proxies with
      | Some sorted_proxies =>
          let top_proxies := firstn (Nat.min 3 (List.length sorted_proxies)) sorted_proxies in
          let weights := firstn (List.length top_proxies) [3; 2; 1] in
          choices top_proxies weights (random rnd)
      | None => choice healthy_proxies rnd          (* except Exception *)
      end
  end.

(** ** report_proxy_result *)

Definition report (now : Z) (success : bool) (response_time : option Q)
    (info : proxy_info) : proxy_info :=
  if success then
    {| url := url info; proxy_type := proxy_type info;
       success_count := success_count info + 1;
       failure_count := failure_count info;
       last_used := last_used info;
       last_success := Some now;
       is_healthy := true;
       response_time :=
         match response_time with
         | Some new =>
             if float_truthy response_time then
               match ProxyManager.response_time info with
               | Some old =>
                   if float_truthy (Some old) then Some ((old + new) / 2)%Q
                   else Some new
               | None => Some new
               end
             else ProxyManager.response_time info
         | None => ProxyManager.response_time info
         end |}
  else
    let failure_count := failure_count info + 1 in
    {| url := url info; proxy_type := proxy_type info;
       success_count := success_count info;
       failure_count := failure_count;
       last_used := last_used info;
       last_success := last_success info;
       is_healthy :=
         if success_count info + 3 <? failure_count then false
         else is_healthy info;
       response_time := ProxyManager.response_time info |}.

Definition report_proxy_result (self : manager) (now : Z) (proxy_url : string)
    (success : bool) (response_time : option Q) : manager :=
  match proxy_health self !! proxy_url with
  | Some address =>
      match heap self !! address with
      | Some info =>
          {| heap := <[address := report now success response_time info]> (heap self);
             proxies := proxies self;
             proxy_health := proxy_health self |}
      | None => self
      end
  | None => self
  end.

End ProxyManager.

Import ProxyManager.

(* ===================================================================== *)
(** * bot.py                                                               *)
(* ===================================================================== *)

Module Bot.

(** ** apply_filters *)

Section ApplyFilters.
Context `{Lib}.

(** The condition of the [if] that the chain [if filter_type == ... elif ...]
    selects for one filter: [Some true] sets [should_include = False] and
    breaks.  A kind outside the five known ones matches no branch. *)
Definition filter_excludes (l : listing) (f : filter_row) : option bool :=
  let filter_type := filter_type f in
  let filter_value := filter_value f in
  if String.eqb filter_type "price_min" then
    v <- float_of_str filter_value ;;
    Some (Qltb (price l) v)
  else if String.eqb filter_type "price_max" then
    v <- float_of_str filter_value ;;
    Some (Qltb v (price l))
  else if String.eqb filter_type "brand" then
    b <- as_str (brand l) ;;
    Some (negb (contains (lower filter_value) (lower b)))
  else if String.eqb filter_type "size" then
    s <- as_str (size l) ;;
    Some (negb (String.eqb (lower filter_value) (lower s)))
  else if String.eqb filter_type "condition" then
    Some (negb (contains (lower filter_value) (lower (condition l))))
  else Some false.

(** The inner loop [for filter_item in filters]: the final value of
    [should_include]. *)
Fixpoint should_include (l : listing) (filters : list filter_row) : option bool :=
  match filters with
  | [] => Some true
  | f :: rest =>
      excluded <- filter_excludes l f ;;
      if excluded then Some false else should_include l rest
  end.

(** The outer loop [for listing in listings], building [filtered_listings]. *)
Fixpoint filter_loop (listings : list listing) (filters : list filter_row)
  : option (list listing) :=
  match listings with
  | [] => Some []
  | l :: rest =>
      keep <- should_include l filters ;;
      kept <- filter_loop rest filters ;;
      Some (if keep then l :: kept else kept)
  end.

(** apply_filters, given the rows get_channel_filters returned. *)
Definition apply_filters (listings : list listing) (filters : list filter_row)
  : list listing :=
  match filters with
  | [] => listings                      (* if not filters: return listings *)
  | _ =>
      match filter_loop listings filters with
      | Some filtered_listings => filtered_listings
      | None => listings                (* except Exception: return listings *)
      end
  end.

End ApplyFilters.

(** ** monitor_vinted

    One tick.  What the body of the loop does before it reaches
    update_search_last_check (the scan, the filters, the messages) changes
    no table; the tick sees it through how long it takes and whether an
    exception escapes it. *)
Inductive processing : Type :=
| ChannelGone                       (* bot.get_channel gives None: continue *)
| Raised                            (* except Exception: log, continue *)
| Completed (io_ok : bool).         (* update_search_last_check is reached *)

Record tick_world : Type := {
  searches_ok : bool;                         (* get_all_active_searches succeeds *)
  duration : search_row -> N;                 (* seconds spent on one search *)
  outcome : search_row -> processing
}.

(** The scheduler's view of the system: the wall clock, in seconds, and the
    store. *)
Record state : Type := {
  clock : Z;
  database : db
}.

Fixpoint monitor_loop (world : tick_world) (searches : list search_row) (s : state)
  : state :=
  match searches with
  | [] => s
  | search :: rest =>
      let now := clock s + Z.of_N (duration world search) in
      let d :=
        match outcome world search with
        | Completed io_ok =>
            update_search_last_check io_ok now (search_id search) (database s)
        | ChannelGone | Raised => database s
        end in
      monitor_loop world rest {| clock := now; database := d |}
  end.

Definition monitor_vinted (world : tick_world) (s : state) : state :=
  let searches := if searches_ok world then get_all_active_searches (database s) else [] in
  monitor_loop world searches s.

(** Everything that writes the store: the three commands and the tick. *)
Inductive operation : Type :=
| AddSearch (channel : Z) (search_url domain location : string) (added_by : Z)
| RemoveSearch (id channel : Z)
| AddFilter (channel : Z) (filter_type filter_value : string)
| Tick (world : tick_world).

Definition perform (op : operation) (s : state) : state :=
  match op with
  | AddSearch channel search_url domain location added_by =>
      {| clock := clock s;
         database := snd (add_search_url (clock s) channel search_url domain location
                                          added_by (database s)) |}
  | RemoveSearch id channel =>
      {| clock := clock s; database := snd (remove_search_url id channel (database s)) |}
  | AddFilter channel filter_type filter_value =>
      {| clock := clock s; database := add_filter channel filter_type filter_value (database s) |}
  | Tick world => monitor_vinted world s
  end.

(** A history: before each operation some time passes. *)
Fixpoint run (history : list (N * operation)) (s : state) : state :=
  match history with
  | [] => s
  | (elapsed, op) :: rest =>
      run rest (perform op {| clock := clock s + Z.of_N elapsed; database := database s |})
  end.

(** The checkpoint of a subscription. *)
Definition checkpoint (id : Z) (s : state) : option Z :=
  option_map last_check (find (fun r => search_id r =? id) (search_urls (database s))).

End Bot.

Import Bot.

(* ===================================================================== *)
(** * The specification's reading of the operations                        *)
(* ===================================================================== *)

Module Spec.

(** ** Section 4.4: attribute filters *)

Section Filters.
Context `{Lib}.

(** The five filter kinds of section 4.4. *)
Definition known_kind (kind : string) : bool :=
  existsb (String.eqb kind) ["price_min"; "price_max"; "brand"; "size"; "condition"].

(** Whether a listing satisfies one filter, per kind as section 4.4 words
    it.  Where the section is silent (a bound that is not a number, a brand
    or size that is not text) the filter counts as satisfied; the theorems
    below never depend on that choice. *)
Definition satisfies (l : listing) (f : filter_row) : bool :=
  let value := filter_value f in
  if String.eqb (filter_type f) "price_min" then
    match float_of_str value with
    | Some bound => Qle_bool bound (price l)
    | None => true
    end
  else if String.eqb (filter_type f) "price_max" then
    match float_of_str value with
    | Some bound => Qle_bool (price l) bound
    | None => true
    end
  else if String.eqb (filter_type f) "brand" then
    match brand l with
    | JStr b => contains (lower value) (lower b)
    | _ => true
    end
  else if String.eqb (filter_type f) "size" then
    match Scraper.size l with
    | JStr s => String.eqb (lower value) (lower s)
    | _ => true
    end
  else if String.eqb (filter_type f) "condition" then
    contains (lower value) (lower (Scraper.condition l))
  else true.

(** The conjunction over a filter set. *)
Definition satisfies_all (filters : list filter_row) (l : listing) : bool :=
  forallb (satisfies l) filters.

End Filters.

(** ** Sections 4.2 and 4.3: the parser and the rate limiter *)

Section Parser.
Context `{Lib}.

(** "The structured global-state payload is present and its JSON decodes":
    some script holds the marker, the pattern finds an object literal after
    it, and [json.loads] accepts that literal. *)
Definition structured_payload (page : soup) (data : json) : Prop :=
  exists text literal,
    In (Some text) (script_tags page)
    /\ contains "window.App" text = true
    /\ re_search_window_app text = Some literal
    /\ json_loads literal = Loaded data.

End Parser.

(** "Two fetches to the same host scheduled back-to-back are separated by at
    least the minimum delay": in a log of requests, neighbours with the same
    host are at least [spacing] apart. *)
Definition spaced (spacing : Z) (log : list (string * Z)) : Prop :=
  forall (i : nat) (host : string) (t1 t2 : Z),
    log !! i = Some (host, t1) ->
    log !! S i = Some (host, t2) ->
    t1 + spacing <= t2.

(** ** Section 4.1: the proxy pool *)

(** The score of section 4.1. *)
Definition success_rate (p : proxy_info) : Q :=
  if success_count p + failure_count p =? 0 then 1%Q
  else (inject_Z (success_count p) / inject_Z (success_count p + failure_count p))%Q.

Definition response_time_factor (p : proxy_info) : Q :=
  match response_time p with
  | Some seconds => Qmax (1 # 10) (1 / (1 + seconds))
  | None => 1%Q
  end.

Definition score (p : proxy_info) : Q := (success_rate p * response_time_factor p)%Q.

(** A draw with the given weights: the uniform draw [u] of [0, 1), scaled by
    the total weight, falls in the [i]-th of the consecutive intervals whose
    lengths are the weights.  Index [i] is therefore drawn with probability
    weight [i] over the total. *)
Definition total (weights : list Z) : Z := foldr Z.add 0 weights.

Definition drawn (weights : list Z) (u : Q) (i : nat) : Prop :=
  (i < List.length weights)%nat
  /\ (inject_Z (total (firstn i weights)) <= u * inject_Z (total weights))%Q
  /\ (u * inject_Z (total weights) < inject_Z (total (firstn (S i) weights)))%Q.

(** The rolling response time of section 4.1, where a sample of zero is no
    sample. *)
Definition sample (x : option Q) : option Q :=
  match x with
  | Some q => if Qeq_bool q 0 then None else Some q
  | None => None
  end.

Definition rolling (old new : option Q) : option Q :=
  match sample new, sample old with
  | Some n, Some o => Some ((o + n) / 2)%Q
  | Some n, None => Some n
  | None, _ => old
  end.

(** ** Section 4.5: checkpoints *)

(** One row after some operations: the same subscription, its checkpoint no
    earlier. *)
Definition row_later (r r' : search_row) : Prop :=
  search_id r' = search_id r /\ last_check r <= last_check r'.

(** A table after some operations: its rows, each possibly later, followed
    by the rows added since. *)
Definition table_later (rows rows' : list search_row) : Prop :=
  exists kept added, rows' = kept ++ added /\ Forall2 row_later rows kept.

(** No checkpoint lies in the future. *)
Definition timely (s : state) : Prop :=
  forall r, In r (search_urls (database s)) -> last_check r <= clock s.

(** What one operation guarantees. *)
Definition advances (s s' : state) : Prop :=
  clock s <= clock s'
  /\ timely s'
  /\ table_later (search_urls (database s)) (search_urls (database s')).

End Spec.
(* ===================================================================== *)
(** * A sample of the library, for the worked examples                     *)
(* ===================================================================== *)

Module SampleLib.

(** The double quote, which a string literal cannot hold. *)
Definition dq : string := String (ascii_of_nat 34) EmptyString.

(** ** float

    [float] on plain decimal literals: an optional sign, digits, and an
    optional fraction.  (CPython accepts further spellings: exponents, inf,
    nan, underscores, surrounding blanks; the examples do not use them.) *)
Definition digit (c : ascii) : option Z :=
  let n := nat_of_ascii c in
  if ((48 <=? n) && (n <=? 57))%nat then Some (Z.of_nat (n - 48)) else None.

(** Reads digits: the number read so far, how many digits, and the rest. *)
Fixpoint read_digits (s : string) (acc : Z) (count : nat) : Z * nat * string :=
  match s with
  | String c rest =>
      match digit c with
      | Some d => read_digits rest (10 * acc + d) (S count)
      | None => (acc, count, s)
      end
  | EmptyString => (acc, count, s)
  end.

Definition unsigned_decimal (s : string) : option Q :=
  let '(whole, n1, rest) := read_digits s 0 O in
  match rest with
  | EmptyString => if (0 <? n1)%nat then Some (inject_Z whole) else None
  | String c rest =>
      if Ascii.eqb c "." then
        let '(part, n2, rest) := read_digits rest 0 O in
        match rest with
        | EmptyString =>
            if (0 <? n1 + n2)%nat
            then Some (inject_Z whole + inject_Z part / inject_Z (10 ^ Z.of_nat n2))%Q
            else None
        | _ => None
        end
      else None
  end.

Definition float_of_str (s : string) : option Q :=
  match s with
  | String c rest =>
      if Ascii.eqb c "-" then option_map Qopp (unsigned_decimal rest)
      else if Ascii.eqb c "+" then unsigned_decimal rest
      else unsigned_decimal s
  | EmptyString => None
  end.

(** ** urlparse

    [urlparse(url).netloc] for a url of the shape scheme://host/...: the text
    between the two slashes and the next [/], [?] or [#]. *)
Fixpoint until_delimiter (s : string) : string :=
  match s with
  | String c rest =>
      if Ascii.eqb c "/" || Ascii.eqb c "?" || Ascii.eqb c "#" then EmptyString
      else String c (until_delimiter rest)
  | EmptyString => EmptyString
  end.

Fixpoint netloc (s : string) : string :=
  match s with
  | String c rest =>
      match drop_prefix "//" s with
      | Some after => until_delimiter after
      | None => netloc rest
      end
  | EmptyString => EmptyString
  end.

(** ** json.loads

    A decoder for the documents built from objects, arrays, strings without
    escapes, integers, [true], [false] and [null].  Fractions, exponents and
    escapes, which json.loads also accepts, are rejected here, and of the
    exceptions other than JSONDecodeError only the one for an integer that
    is too long is reproduced; the examples use nothing else. *)
Definition is_json_space (c : ascii) : bool :=
  let n := nat_of_ascii c in
  ((n =? 32) || (n =? 9) || (n =? 10) || (n =? 13))%nat.

Fixpoint skip_json_space (s : string) : string :=
  match s with
  | String c rest => if is_json_space c then skip_json_space rest else s
  | EmptyString => s
  end.

(** The characters of a string literal after its opening quote, and the text
    after its closing quote. *)
Fixpoint string_literal (s : string) : option (string * string) :=
  match s with
  | EmptyString => None
  | String c rest =>
      let n := nat_of_ascii c in
      if (n =? 34)%nat then Some (EmptyString, rest)
      else if ((n =? 92) || (n <? 32))%nat then None
      else
        r <- string_literal rest ;;
        Some (String c (fst r), snd r)
  end.

(** An integer literal: an optional minus sign, then [0] or digits without a
    leading zero, not followed by a fraction or an exponent. *)
Definition integer_literal (s : string) : option (Z * string) :=
  let '(negative, s) :=
    match s with
    | String c rest => if Ascii.eqb c "-" then (true, rest) else (false, s)
    | EmptyString => (false, s)
    end in
  let '(value, count, rest) := read_digits s 0 O in
  let leading_zero := String.prefix "0" s && (1 <? count)%nat in
  let continues :=
    match rest with
    | String c _ => Ascii.eqb c "." || Ascii.eqb c "e" || Ascii.eqb c "E"
    | EmptyString => false
    end in
  if (count =? 0)%nat || leading_zero || continues then None
  else Some (if negative then - value else value, rest).

(** Assignment to a key of a dict: a repeated key keeps its place and takes
    the later value. *)
Fixpoint dict_set (d : list (string * json)) (key : string) (v : json)
  : list (string * json) :=
  match d with
  | [] => [(key, v)]
  | (k, old) :: rest =>
      if String.eqb k key then (k, v) :: rest else (k, old) :: dict_set rest key v
  end.

Fixpoint json_value (fuel : nat) (s : string) {struct fuel} : option (json * string) :=
  match fuel with
  | O => None
  | S fuel =>
      match skip_json_space s with
      | EmptyString => None
      | String c rest =>
          if Ascii.eqb c "{" then
            match skip_json_space rest with
            | String c' rest' =>
                if Ascii.eqb c' "}" then Some (JDict [], rest')
                else
                  r <- json_members fuel [] rest ;;
                  Some (JDict (fst r), snd r)
            | EmptyString => None
            end
          else if Ascii.eqb c "[" then
            match skip_json_space rest with
            | String c' rest' =>
                if Ascii.eqb c' "]" then Some (JList [], rest')
                else
                  r <- json_elements fuel rest ;;
                  Some (JList (fst r), snd r)
            | EmptyString => None
            end
          else if (nat_of_ascii c =? 34)%nat then
            r <- string_literal rest ;;
            Some (JStr (fst r), snd r)
          else
            match drop_prefix "true" (String c rest),
                  drop_prefix "false" (String c rest),
                  drop_prefix "null" (String c rest) with
            | Some after, _, _ => Some (JBool true, after)
            | _, Some after, _ => Some (JBool false, after)
            | _, _, Some after => Some (JNull, after)
            | None, None, None =>
                r <- integer_literal (String c rest) ;;
                Some (JInt (fst r), snd r)
            end
      end
  end
with json_members (fuel : nat) (seen : list (string * json)) (s : string) {struct fuel}
  : option (list (string * json) * string) :=
  match fuel with
  | O => None
  | S fuel =>
      match skip_json_space s with
      | String c rest =>
          if (nat_of_ascii c =? 34)%nat then
            key <- string_literal rest ;;
            match skip_json_space (snd key) with
            | String c1 rest1 =>
                if Ascii.eqb c1 ":" then
                  v <- json_value fuel rest1 ;;
                  let seen := dict_set seen (fst key) (fst v) in
                  match skip_json_space (snd v) with
                  | String c2 rest2 =>
                      if Ascii.eqb c2 "," then json_members fuel seen rest2
                      else if Ascii.eqb c2 "}" then Some (seen, rest2)
                      else None
                  | EmptyString => None
                  end
                else None
            | EmptyString => None
            end
          else None
      | EmptyString => None
      end
  end
with json_elements (fuel : nat) (s : string) {struct fuel}
  : option (list json * string) :=
  match fuel with
  | O => None
  | S fuel =>
      v <- json_value fuel s ;;
      match skip_json_space (snd v) with
      | String c rest =>
          if Ascii.eqb c "," then
            r <- json_elements fuel rest ;;
            Some (fst v :: fst r, snd r)
          else if Ascii.eqb c "]" then Some ([fst v], rest)
          else None
      | EmptyString => None
      end
  end.

(** The document a text holds, if it is one. *)
Definition json_document (s : string) : option json :=
  r <- json_value (S (String.length s)) s ;;
  match skip_json_space (snd r) with
  | EmptyString => Some (fst r)
  | String _ _ => None
  end.

(** json.loads converts an integer literal with [int], which refuses more
    than 4300 digits (the default of sys.get_int_max_str_digits) with a
    ValueError of its own. *)
Definition max_str_digits : nat := 4300.

Definition decimal_digits (z : Z) : nat := Decimal.nb_digits (N.to_uint (Z.abs_N z)).

Fixpoint beyond_int_limit (v : json) : bool :=
  match v with
  | JInt z => (max_str_digits <? decimal_digits z)%nat
  | JList l => existsb beyond_int_limit l
  | JDict d => existsb (fun kv => let '(_, item) := kv in beyond_int_limit item) d
  | JNull | JBool _ | JFloat _ | JStr _ => false
  end.

(** A text that is no document fails with JSONDecodeError; a document with
    an integer beyond the limit fails with the ValueError of [int]. *)
Definition json_loads (s : string) : loaded :=
  match json_document s with
  | Some data => if beyond_int_limit data then OtherError else Loaded data
  | None => JSONDecodeError
  end.

(** ** datetime.fromisoformat

    The form YYYY-MM-DDTHH:MM:SS, alone (a naive datetime) or followed by an
    offset +HH:MM or -HH:MM (an aware one).  The other forms fromisoformat
    accepts are rejected here. *)

(** Days from 1 January 1970 to a date of the proleptic Gregorian calendar. *)
Definition days_from_civil (y m d : Z) : Z :=
  let y := if m <=? 2 then y - 1 else y in
  let era := y / 400 in
  let year_of_era := y - era * 400 in
  let day_of_year := (153 * (if 2 <? m then m - 3 else m + 9) + 2) / 5 + d - 1 in
  let day_of_era := year_of_era * 365 + year_of_era / 4 - year_of_era / 100 + day_of_year in
  era * 146097 + day_of_era - 719468.

Definition days_in_month (y m : Z) : Z :=
  if m =? 2 then
    if ((y mod 4 =? 0) && negb (y mod 100 =? 0)) || (y mod 400 =? 0) then 29 else 28
  else if (m =? 4) || (m =? 6) || (m =? 9) || (m =? 11) then 30
  else 31.

(** Exactly [n] digits. *)
Fixpoint fixed_digits (n : nat) (acc : Z) (s : string) : option (Z * string) :=
  match n with
  | O => Some (acc, s)
  | S n =>
      match s with
      | String c rest => d <- digit c ;; fixed_digits n (10 * acc + d) rest
      | EmptyString => None
      end
  end.

Definition field (n : nat) (separator : string) (s : string) : option (Z * string) :=
  rest <- drop_prefix separator s ;;
  fixed_digits n 0 rest.

Definition fromisoformat (s : string) : option datetime :=
  year <- field 4 EmptyString s ;;
  month <- field 2 "-" (snd year) ;;
  day <- field 2 "-" (snd month) ;;
  hour <- field 2 "T" (snd day) ;;
  minute <- field 2 ":" (snd hour) ;;
  second <- field 2 ":" (snd minute) ;;
  let '(y, m, d) := (fst year, fst month, fst day) in
  let '(hh, mm, ss) := (fst hour, fst minute, fst second) in
  if (1 <=? y) && (1 <=? m) && (m <=? 12) && (1 <=? d) && (d <=? days_in_month y m)
     && (hh <? 24) && (mm <? 60) && (ss <? 60)
  then
    let wall := ((days_from_civil y m d * 24 + hh) * 60 + mm) * 60 + ss in
    match snd second with
    | EmptyString => Some (Naive (wall * 1000000))
    | String sign rest =>
        offset_hour <- fixed_digits 2 0 rest ;;
        offset_minute <- field 2 ":" (snd offset_hour) ;;
        let offset := (fst offset_hour * 60 + fst offset_minute) * 60 in
        match snd offset_minute with
        | EmptyString =>
            if (fst offset_hour <? 24) && (fst offset_minute <? 60) then
              if Ascii.eqb sign "+" then Some (Aware ((wall - offset) * 1000000))
              else if Ascii.eqb sign "-" then Some (Aware ((wall + offset) * 1000000))
              else None
            else None
        | String _ _ => None
        end
    end
  else None.

(** ** str and datetime.fromtimestamp

    [str] on the values the examples print: integers, strings, [None] and
    the booleans; the texts of floats and containers are not reproduced. *)
Definition str_of (v : json) : string :=
  match v with
  | JStr s => s
  | JInt z => pretty z
  | JNull => "None"
  | JBool true => "True"
  | JBool false => "False"
  | JFloat _ | JList _ | JDict _ => "..."
  end.

(** [datetime.fromtimestamp] for a process whose local zone is UTC. *)
Definition fromtimestamp (t : Q) : option Z := Some (Qfloor (t * 1000000)).

#[export] Instance lib : Lib := {|
  Py.float_of_str := float_of_str;
  Py.json_loads := json_loads;
  Py.str_of := str_of;
  Py.fromtimestamp := fromtimestamp;
  Py.fromisoformat := fromisoformat;
  Py.urlparse_netloc := fun url => Some (netloc url)
|}.

End SampleLib.

(* ===================================================================== *)
(** * Data of the worked examples                                          *)
(* ===================================================================== *)

Module Examples.

(** ** Filters *)

Definition a_filter (kind value : string) : filter_row :=
  {| f_channel_id := 1; filter_type := kind; filter_value := value; f_is_active := true |}.

Definition a_listing (amount : Q) (brand_text : string) : listing :=
  {| id := "1001"; title := JStr "Trainers"; price := amount; brand := JStr brand_text;
     Scraper.size := JStr "42"; Scraper.condition := "Very Good";
     published_at := Naive 0 |}.

(** The scenario of section 8: price-max 50 and brand nike. *)
Definition scenario_filters : list filter_row :=
  [a_filter "price_max" "50"; a_filter "brand" "nike"].
Definition nike_air_40 : listing := a_listing 40 "Nike Air".
Definition nike_60 : listing := a_listing 60 "Nike".

(** A bound that is not a number, ahead of a brand filter. *)
Definition broken_filters : list filter_row :=
  [a_filter "price_max" "abc"; a_filter "brand" "nike"].
Definition adidas_10 : listing := a_listing 10 "Adidas".

(** ** Pages and scans *)

Definition dq : string := SampleLib.dq.

(** Two values of the embedded state, as text and decoded.  The first has no
    catalog key. *)
Definition payload_without_catalog : string :=
  "{" +:+ dq +:+ "user" +:+ dq +:+ ": 1}".

Definition decoded_without_catalog : json :=
  JDict [("user", JInt 1)].

(** The second lists two items; only the second carries a creation time, in
    ISO form with a UTC designator. *)
Definition payload_two_items : string :=
  "{" +:+ dq +:+ "catalog" +:+ dq +:+ ": {" +:+ dq +:+ "items" +:+ dq +:+ ": [{"
      +:+ dq +:+ "id" +:+ dq +:+ ": 1, "
      +:+ dq +:+ "title" +:+ dq +:+ ": " +:+ dq +:+ "Shirt" +:+ dq
      +:+ "}, {"
      +:+ dq +:+ "id" +:+ dq +:+ ": 2, "
      +:+ dq +:+ "title" +:+ dq +:+ ": " +:+ dq +:+ "Coat" +:+ dq +:+ ", "
      +:+ dq +:+ "created_at_ts" +:+ dq +:+ ": " +:+ dq +:+ "2030-01-01T00:00:00Z" +:+ dq
      +:+ "}]}}".

Definition decoded_two_items : json :=
  JDict [("catalog", JDict [("items", JList [
    JDict [("id", JInt 1); ("title", JStr "Shirt")];
    JDict [("id", JInt 2); ("title", JStr "Coat");
           ("created_at_ts", JStr "2030-01-01T00:00:00Z")]])])].

Definition search_url : string := "https://www.vinted.fr/catalog?search_text=nike".

Definition a_container (id title : string) : container :=
  {| extracted_id := id; extracted_title := title; extracted_price := 15;
     extracted_brand := "Nike"; extracted_size := "M";
     extracted_condition := "Good" |}.

(** A page whose script sets window.App to an object without a catalog. *)
Definition page_without_catalog : soup :=
  {| script_tags := [None; Some ("window.App = " +:+ payload_without_catalog +:+ ";")];
     item_containers := [a_container "77" "Jacket"] |}.

(** A page whose catalog lists the two items of [payload_two_items]. *)
Definition page_two_items : soup :=
  {| script_tags := [Some ("window.App = " +:+ payload_two_items +:+ ";")];
     item_containers := [] |}.

(** A page without scripts: only the markup scan can find its two items. *)
Definition page_markup_only : soup :=
  {| script_tags := [];
     item_containers := [a_container "77" "Jacket"; a_container "78" "Scarf"] |}.

(** A page whose payload holds an integer of 4301 digits, with one candidate
    in its markup. *)
Fixpoint nines (n : nat) : string :=
  match n with
  | O => EmptyString
  | S n => String "9" (nines n)
  end.

Definition payload_long_integer : string :=
  "{" +:+ dq +:+ "catalog" +:+ dq +:+ ": {" +:+ dq +:+ "total" +:+ dq +:+ ": "
      +:+ nines 4301 +:+ "}}".

Definition page_long_integer : soup :=
  {| script_tags := [Some ("window.App = " +:+ payload_long_integer +:+ ";")];
     item_containers := [a_container "77" "Jacket"] |}.

(** An exchange that answers 200 with the given page after one second. *)
Definition answers (page : soup) : exchange :=
  {| proxy_time := 0; answer := Response 200 page; latency := 1000000 |}.

(** The first listing of [page_two_items] when the parse happens at [now]. *)
Definition shirt (now : Z) : listing :=
  {| id := "1"; title := JStr "Shirt"; price := 0; brand := JStr EmptyString;
     Scraper.size := JStr EmptyString; Scraper.condition := EmptyString;
     published_at := Naive now |}.

(** ** Proxies *)

Definition a_proxy (name : string) (successes failures : Z) (seconds : option Q)
  : proxy_info :=
  {| url := name; proxy_type := "http";
     success_count := successes; failure_count := failures;
     last_used := None; last_success := None;
     is_healthy := true; response_time := seconds |}.

(** The scenario of section 8. *)
Definition proxy_A : proxy_info := a_proxy "http://a.example:8080" 10 0 (Some (1 # 2)%Q).
Definition proxy_B : proxy_info := a_proxy "http://b.example:8080" 5 5 (Some 1%Q).
Definition proxy_C : proxy_info := a_proxy "http://c.example:8080" 0 0 None.

Definition a_draw (u : Q) : randomness := {| random := u; randbelow := fun _ => O |}.

(** A pool with one proxy, added once and added twice. *)
Definition proxy_url : string := "http://proxy.example:3128".
Definition added_once : manager := snd (add_proxy empty_manager proxy_url "http").
Definition added_twice : manager := snd (add_proxy added_once proxy_url "http").

(** The proxy after one success measured at one second. *)
Definition measured : manager :=
  report_proxy_result added_once 0 proxy_url true (Some 1%Q).

(** Its dictionary. *)
Definition measured_info : proxy_info :=
  {| url := proxy_url; proxy_type := "http";
     success_count := 1; failure_count := 0;
     last_used := None; last_success := Some 0;
     is_healthy := true; response_time := Some 1%Q |}.

(** ** Subscriptions and ticks *)

(** A tick in which every search takes three seconds; the channel of search
    2 is gone and the body raises for search 3. *)
Definition troubled_tick : tick_world :=
  {| searches_ok := true;
     duration := fun _ => 3%N;
     outcome := fun search =>
       if search_id search =? 2 then ChannelGone
       else if search_id search =? 3 then Raised
       else Completed true |}.

(** Three subscriptions are added, then two ticks run thirty seconds apart. *)
Definition registrations : list (N * operation) :=
  [ (0%N, AddSearch 10 "https://www.vinted.fr/catalog?search_text=nike" "www.vinted.fr" "fr" 7);
    (5%N, AddSearch 10 "https://www.vinted.de/catalog?search_text=puma" "www.vinted.de" "de" 7);
    (5%N, AddSearch 11 "https://www.vinted.it/catalog?search_text=fila" "www.vinted.it" "it" 8) ].

Definition two_ticks : list (N * operation) :=
  [ (30%N, Tick troubled_tick); (30%N, Tick troubled_tick) ].

Definition start : state := {| clock := 1000; database := empty_db |}.
Definition registered : state := run registrations start.

End Examples.

(* ===================================================================== *)
(** * vinted_scraper.py: the helpers of the markup scan                    *)
(* ===================================================================== *)

Module Markup.

(** ** Text helpers shared by the modules below *)

(** [s.split(sep)] for a one-character separator: never empty, one more
    piece than there are separators. *)
Fixpoint split_on (sep : ascii) (s : string) : list string :=
  match s with
  | EmptyString => [EmptyString]
  | String c rest =>
      if Ascii.eqb c sep then EmptyString :: split_on sep rest
      else
        match split_on sep rest with
        | piece :: pieces => String c piece :: pieces
        | [] => [String c EmptyString]
        end
  end.

(** [s.strip()], on the ASCII range. *)
Definition strip (s : string) : string :=
  String.rev (skip_spaces (String.rev (skip_spaces s))).

(** [\d], on the ASCII range. *)
Definition is_digit (c : ascii) : bool :=
  let n := nat_of_ascii c in ((48 <=? n) && (n <=? 57))%nat.

(** The greedy [\d*] at the start of a text: the digits and what follows. *)
Fixpoint digits (s : string) : string * string :=
  match s with
  | String c rest =>
      if is_digit c then
        let '(run, after) := digits rest in (String c run, after)
      else (EmptyString, s)
  | EmptyString => (EmptyString, s)
  end.

(** ** The element

    One candidate of the markup scan, as the queries of the helpers see it. *)
Record element : Type := {
  attribute : string -> option string;     (* container.get(name) *)
  select_text : string -> option string;   (* container.select_one(selector), then
                                              .get_text(strip=True); None: no match *)
  first_link : option string               (* container.find('a', href=True), then ['href'] *)
}.

(** ** extract_text *)

Fixpoint extract_text (container : element) (selectors : list string) : string :=
  match selectors with
  | [] => EmptyString
  | selector :: rest =>
      match select_text container selector with
      | Some text => text                   (* an element is always true *)
      | None => extract_text container rest
      end
  end.

(** ** extract_price_from_html *)

(** re.search(r'(\d+[.,]\d+|\d+)', text): a match that starts at the first
    character.  The first alternative needs the whole run of digits, a
    separator and one more digit; otherwise the second takes the run. *)
Definition match_price (s : string) : option string :=
  let '(whole, after) := digits s in
  match whole with
  | EmptyString => None
  | _ =>
      match after with
      | String c after' =>
          if Ascii.eqb c "." || Ascii.eqb c "," then
            let '(fraction, _) := digits after' in
            match fraction with
            | EmptyString => Some whole
            | _ => Some (whole +:+ String c fraction)
            end
          else Some whole
      | EmptyString => Some whole
      end
  end.

(** The leftmost match. *)
Fixpoint re_search_price (s : string) : option string :=
  match match_price s with
  | Some group1 => Some group1
  | None =>
      match s with
      | EmptyString => None
      | String _ rest => re_search_price rest
      end
  end.

Section Helpers.
Context `{Lib}.

Fixpoint price_from (container : element) (price_selectors : list string) : option Q :=
  match price_selectors with
  | [] => Some 0%Q
  | selector :: rest =>
      match select_text container selector with
      | Some price_text =>
          match re_search_price (replace_char "," "." price_text) with
          | Some group1 => float_of_str group1
          | None => price_from container rest
          end
      | None => price_from container rest
      end
  end.

Definition extract_price_from_html (container : element) : option Q :=
  price_from container [".price"; ".amount"; "[data-price]"].

(** ** extract_id_from_html *)

(** re.search(r'/items/(\d+)', href) *)
Definition match_item_id (s : string) : option string :=
  rest <- drop_prefix "/items/" s ;;
  match fst (digits rest) with
  | EmptyString => None
  | run => Some run
  end.

Fixpoint re_search_item_id (s : string) : option string :=
  match match_item_id s with
  | Some group1 => Some group1
  | None =>
      match s with
      | EmptyString => None
      | String _ rest => re_search_item_id rest
      end
  end.

(** The loop over the attribute names: the first value that is true. *)
Fixpoint first_attribute (container : element) (names : list string) : option string :=
  match names with
  | [] => None
  | name :: rest =>
      match attribute container name with
      | Some value => if str_truthy value then Some value else first_attribute container rest
      | None => first_attribute container rest
      end
  end.

(** [randint] is what random.randint(1000000, 9999999) draws, if asked. *)
Definition extract_id_from_html (container : element) (randint : Z) : string :=
  match first_attribute container ["data-id"; "data-item-id"; "id"] with
  | Some value => value
  | None =>
      let generated := "html_" +:+ pretty randint in
      match first_link container with
      | Some href =>
          match re_search_item_id href with
          | Some group1 => group1
          | None => generated
          end
      | None => generated
      end
  end.

(** ** The body of the loop of parse_html_listings

    What the helpers read from one element, in the order the dictionary
    literal calls them; [float] is the one call that can raise. *)
Definition read_container (c : element) (randint : Z) : option container :=
  let id := extract_id_from_html c randint in
  let title := extract_text c ["h3"; "h2"; ".title"] in
  price <- extract_price_from_html c ;;
  Some {| extracted_id := id;
          extracted_title := title;
          extracted_price := price;
          extracted_brand := extract_text c [".brand"; ".brand-title"];
          extracted_size := extract_text c [".size"; ".size-title"];
          extracted_condition := extract_text c [".condition"; ".status"] |}.

(** The loop over [item_containers[:20]], each element with the number
    random.randint would draw for it: a candidate whose body raises is
    skipped ([continue]). *)
Definition parse_html_elements (item_containers : list (element * Z)) (now : Z)
  : list listing :=
  List.filter (fun listing => str_truthy (id listing) && truthy (title listing))
    (omap (fun candidate =>
             option_map (fun c => html_listing c now)
                        (read_container (fst candidate) (snd candidate)))
          (firstn 20 item_containers)).

End Helpers.

End Markup.

Import Markup.

(* ===================================================================== *)
(** * proxy_manager.py: configuration, health sweep, get_proxy, statistics *)
(* ===================================================================== *)

Module ProxyHealth.

Import Markup.

(** ** load_proxies_from_config

    [PROXY_LIST] is the text of the environment variable; add_proxy is
    called with its default type. *)
Definition load_proxies_from_config (self : manager) (PROXY_LIST : string) : manager :=
  if str_truthy PROXY_LIST then
    let proxy_urls := List.filter str_truthy (map strip (split_on "," PROXY_LIST)) in
    foldl (fun self proxy_url => snd (add_proxy self proxy_url "http")) self proxy_urls
  else self.

(** ** check_single_proxy_health

    What the probe of one proxy finds: status 200 after [took] seconds, the
    clock then reading [finished]; or another status, a timeout, any
    exception. *)
Inductive probe : Type :=
| Answered (took : Q) (finished : Z)
| Failed.

Definition check_single_proxy_health (found : probe) (info : proxy_info) : proxy_info :=
  match found with
  | Answered took finished =>
      {| url := url info; proxy_type := proxy_type info;
         success_count := success_count info + 1;
         failure_count := failure_count info;
         last_used := last_used info;
         last_success := Some finished;
         is_healthy := true;
         response_time := Some took |}
  | Failed =>
      {| url := url info; proxy_type := proxy_type info;
         success_count := success_count info;
         failure_count := failure_count info + 1;
         last_used := last_used info;
         last_success := last_success info;
         is_healthy := false;
         response_time := response_time info |}
  end.

(** ** check_all_proxies_health

    One task per entry of [self.proxies]; every task writes the dictionary
    it was given and nothing else, so the tasks can be taken one after the
    other.  [probes] says what the task for the dictionary at an address
    finds. *)
Definition check_at (probes : nat -> probe) (heap : list proxy_info) (address : nat)
  : list proxy_info :=
  match heap !! address with
  | Some info => <[address := check_single_proxy_health (probes address) info]> heap
  | None => heap
  end.

Definition check_all_proxies_health (probes : nat -> probe) (self : manager) : manager :=
  {| heap := foldl (check_at probes) (heap self) (proxies self);
     proxies := proxies self;
     proxy_health := proxy_health self |}.

(** ** check_proxy_health_if_needed *)

(** The manager with the field the scheduling of the sweep reads. *)
Record proxy_manager : Type := {
  contents : manager;
  last_health_check : option Z              (* a utcnow() reading, or None *)
}.

Definition new_proxy_manager (PROXY_LIST : string) : proxy_manager :=
  {| contents := load_proxies_from_config empty_manager PROXY_LIST;
     last_health_check := None |}.

(** timedelta(minutes=10), in microseconds. *)
Definition health_check_interval : Z := 600000000.

Definition check_proxy_health_if_needed (now : Z) (probes : nat -> probe)
    (self : proxy_manager) : proxy_manager :=
  let due :=
    match last_health_check self with
    | None => true
    | Some last => health_check_interval <? now - last
    end in
  if due then
    {| contents := check_all_proxies_health probes (contents self);
       last_health_check := Some now |}
  else self.

(** ** select_best_proxy, on references

    get_proxy writes the dictionary that select_best_proxy returns, so the
    selection is needed on the entries of the pool together with their
    addresses.  [select_best] is select_best_proxy over any carrier that
    gives access to a dictionary. *)
Section ByReference.
Context {A : Type} (dictionary : A -> proxy_info).

Fixpoint keyed_by (healthy_proxies : list A) : option (list (Q * A)) :=
  match healthy_proxies with
  | [] => Some []
  | p :: rest =>
      k <- proxy_score (dictionary p) ;;
      ks <- keyed_by rest ;;
      Some ((k, p) :: ks)
  end.

Definition select_best (healthy_proxies : list A) (rnd : randomness) : option A :=
  match healthy_proxies with
  | [] => None
  | _ =>
      match keyed_by healthy_proxies with
      | Some ks =>
          let sorted_proxies :=
            map snd (sorted_by (fun a b => Qle_bool (fst b) (fst a)) ks) in
          let top_proxies := firstn (Nat.min 3 (List.length sorted_proxies)) sorted_proxies in
          let weights := firstn (List.length top_proxies) [3; 2; 1] in
          choices top_proxies weights (random rnd)
      | None => choice healthy_proxies rnd
      end
  end.

End ByReference.

(** ** get_proxy *)

(** [[p for p in self.proxies if p['is_healthy']]], each with its address. *)
Definition healthy_entries (self : manager) : list (nat * proxy_info) :=
  omap (fun address =>
          match heap self !! address with
          | Some info => if is_healthy info then Some (address, info) else None
          | None => None
          end)
       (proxies self).

Definition set_last_used (now : Z) (info : proxy_info) : proxy_info :=
  {| url := url info; proxy_type := proxy_type info;
     success_count := success_count info; failure_count := failure_count info;
     last_used := Some now; last_success := last_success info;
     is_healthy := is_healthy info; response_time := response_time info |}.

(** [now] is the reading when the call starts, [used_at] the one taken after
    the selection. *)
Definition get_proxy (now : Z) (probes : nat -> probe) (rnd : randomness) (used_at : Z)
    (self : proxy_manager) : option string * proxy_manager :=
  let self := check_proxy_health_if_needed now probes self in
  match select_best snd (healthy_entries (contents self)) rnd with
  | Some (address, info) =>
      (Some (url info),
       {| contents :=
            {| heap := <[address := set_last_used used_at info]> (heap (contents self));
               proxies := proxies (contents self);
               proxy_health := proxy_health (contents self) |};
          last_health_check := last_health_check self |})
  | None => (None, self)
  end.

(** ** get_proxy_stats

    The dictionary of statistics; [last_health_check] is kept as the
    reading, not as its ISO text. *)
Record proxy_stats : Type := {
  total_proxies : nat;
  healthy_proxies : nat;
  total_successes : Z;
  total_failures : Z;
  stats_last_health_check : option Z;
  overall_success_rate : Q
}.

(** [sum(...)] *)
Definition py_sum (l : list Z) : Z := foldl Z.add 0 l.

Definition get_proxy_stats (self : proxy_manager) : proxy_stats :=
  let proxies := pool (contents self) in
  let total_successes := py_sum (map success_count proxies) in
  let total_failures := py_sum (map failure_count proxies) in
  {| total_proxies := List.length proxies;
     healthy_proxies := List.length (List.filter is_healthy proxies);
     total_successes := total_successes;
     total_failures := total_failures;
     stats_last_health_check := last_health_check self;
     overall_success_rate :=
       if 0 <? total_successes + total_failures
       then (inject_Z total_successes / inject_Z (total_successes + total_failures))%Q
       else 0%Q |}.

(** ** The calls a manager serves *)

Inductive call : Type :=
| AddProxy (proxy_url proxy_type : string)
| RemoveProxy (proxy_url : string)
| ReportResult (now : Z) (proxy_url : string) (success : bool) (response_time : option Q)
| GetProxy (now : Z) (probes : nat -> probe) (rnd : randomness) (used_at : Z).

Definition serve (c : call) (self : proxy_manager) : proxy_manager :=
  match c with
  | AddProxy proxy_url proxy_type =>
      {| contents := snd (add_proxy (contents self) proxy_url proxy_type);
         last_health_check := last_health_check self |}
  | RemoveProxy proxy_url =>
      {| contents := snd (remove_proxy (contents self) proxy_url);
         last_health_check := last_health_check self |}
  | ReportResult now proxy_url success response_time =>
      {| contents := report_proxy_result (contents self) now proxy_url success response_time;
         last_health_check := last_health_check self |}
  | GetProxy now probes rnd used_at => snd (get_proxy now probes rnd used_at self)
  end.

Definition serve_all (calls : list call) (self : proxy_manager) : proxy_manager :=
  foldl (fun self c => serve c self) self calls.

(** The same call in a world where the probes find something else. *)
Definition with_probes (probes : nat -> probe) (c : call) : call :=
  match c with
  | GetProxy now _ rnd used_at => GetProxy now probes rnd used_at
  | _ => c
  end.

(** Failures reported for one url, one after the other; each report has its
    clock reading and its response_time argument. *)
Definition report_failures (self : manager) (proxy_url : string)
    (reports : list (Z * option Q)) : manager :=
  foldl (fun self r => report_proxy_result self (fst r) proxy_url false (snd r))
        self reports.

End ProxyHealth.

Import ProxyHealth.

(* ===================================================================== *)
(** * bot.py: the commands                                                 *)
(* ===================================================================== *)

Module Commands.

Import Markup.

(** ** The two patterns *)

(** [https?://] at the start of a text: what follows it.  The optional [s]
    is tried first and given back if [://] does not follow. *)
Definition match_scheme (s : string) : option string :=
  rest <- drop_prefix "http" s ;;
  match drop_prefix "s" rest with
  | Some after_s =>
      match drop_prefix "://" after_s with
      | Some after => Some after
      | None => drop_prefix "://" rest
      end
  | None => drop_prefix "://" rest
  end.

(** Exactly [n] characters of [[a-z]]: the characters and what follows. *)
Fixpoint letters (n : nat) (s : string) : option (string * string) :=
  match n with
  | O => Some (EmptyString, s)
  | S n =>
      match s with
      | String c rest =>
          if is_lower c then
            r <- letters n rest ;;
            Some (String c (fst r), snd r)
          else None
      | EmptyString => None
      end
  end.

(** is_valid_vinted_url:
    re.match(r'https?://www\.vinted\.[a-z]{2,3}/catalog\?', url).
    [{2,3}] takes three letters if it can and falls back to two. *)
Definition is_valid_vinted_url (url : string) : bool :=
  match
    after_scheme <- match_scheme url ;;
    after_host <- drop_prefix "www.vinted." after_scheme ;;
    let path_after (n : nat) :=
      r <- letters n after_host ;; drop_prefix "/catalog?" (snd r) in
    match path_after 3%nat with
    | Some rest => Some rest
    | None => path_after 2%nat
    end
  with
  | Some _ => true
  | None => false
  end.

(** The greedy [[^/]*] at the start of a text. *)
Fixpoint until_slash (s : string) : string :=
  match s with
  | String c rest => if Ascii.eqb c "/" then EmptyString else String c (until_slash rest)
  | EmptyString => EmptyString
  end.

(** re.search(r'https?://([^/]+)', url): a match at the first character,
    then the leftmost match. *)
Definition match_domain (s : string) : option string :=
  after <- match_scheme s ;;
  match until_slash after with
  | EmptyString => None
  | group1 => Some group1
  end.

Fixpoint re_search_domain (s : string) : option string :=
  match match_domain s with
  | Some group1 => Some group1
  | None =>
      match s with
      | EmptyString => None
      | String _ rest => re_search_domain rest
      end
  end.

(** extract_domain of bot.py (vinted_scraper.py has its own). *)
Definition extract_domain (url : string) : string :=
  match re_search_domain url with
  | Some group1 => group1
  | None => "www.vinted.com"
  end.

(** [domain.split('.')[-1] if '.' in domain else 'com'] *)
Definition location_of (domain : string) : string :=
  if contains "." domain then List.last (split_on "." domain) EmptyString
  else "com".

(** ** The commands that write the store

    [permitted] is the answer of check_permissions, [channel] and [author]
    are ctx.channel.id and ctx.author.id. *)
Definition valid_filters : list string :=
  ["price_min"; "price_max"; "brand"; "size"; "condition"].

Inductive command : Type :=
| CmdAddSearch (search_url : string)            (* !add_search <url> *)
| CmdRemoveSearch (search_id : Z)                (* !remove_search <id> *)
| CmdAddFilter (filter_type filter_value : string).  (* !add_filter <type> <value> *)

Definition execute (permitted : bool) (channel author : Z) (c : command) (s : state)
  : state :=
  if negb permitted then s
  else
    match c with
    | CmdAddSearch search_url =>
        if negb (is_valid_vinted_url search_url) then s
        else
          let domain := extract_domain search_url in
          let location := location_of domain in
          perform (AddSearch channel search_url domain location author) s
    | CmdRemoveSearch search_id => perform (RemoveSearch search_id channel) s
    | CmdAddFilter filter_type filter_value =>
        if negb (existsb (String.eqb filter_type) valid_filters) then s
        else perform (AddFilter channel filter_type filter_value) s
    end.

(** What happens to the store: commands and ticks, in the order they occur,
    each after some seconds. *)
Inductive event : Type :=
| Command (elapsed : N) (permitted : bool) (channel author : Z) (c : command)
| Monitor (elapsed : N) (world : tick_world).

Definition handle (e : event) (s : state) : state :=
  match e with
  | Command elapsed permitted channel author c =>
      execute permitted channel author c
              {| clock := clock s + Z.of_N elapsed; database := database s |}
  | Monitor elapsed world =>
      monitor_vinted world {| clock := clock s + Z.of_N elapsed; database := database s |}
  end.

Definition handle_all (events : list event) (s : state) : state :=
  foldl (fun s e => handle e s) s events.

(** apply_filters as bot.py calls it: with the rows get_channel_filters
    returns for the channel. *)
Definition apply_filters_for `{Lib} (d : db) (listings : list listing) (channel_id : Z)
  : list listing :=
  apply_filters listings (get_channel_filters d channel_id).

End Commands.

(* ===================================================================== *)
(** * bot.py: the scan as the tick calls it                                *)
(* ===================================================================== *)

Module AsCalled.

(** The signature of get_new_listings asks for a datetime, but the one call
    of the repository, in monitor_vinted, passes [search.get('last_check')]:
    the value of the last_check column as sqlite3 returns it on a connection
    opened without detect_types, a str such as '2030-03-17 17:46:10'.  The
    argument is therefore a datetime, a str or None. *)
Inductive checkpoint_value : Type :=
| CheckNone
| CheckDatetime (d : datetime)
| CheckStr (s : string).

(** [if last_check:] *)
Definition checkpoint_truthy (last_check : checkpoint_value) : bool :=
  match last_check with
  | CheckNone => false
  | CheckDatetime _ => true
  | CheckStr s => str_truthy s
  end.

(** [published_at > last_check]: ordering a datetime against a str or None
    raises TypeError. *)
Definition gt_checkpoint (published_at : datetime) (last_check : checkpoint_value)
  : option bool :=
  match last_check with
  | CheckDatetime d => dt_gt published_at d
  | CheckStr _ | CheckNone => raise
  end.

Section Scan.
Context `{Lib}.

(** The comprehension of get_new_listings. *)
Fixpoint newer_than (listings : list listing) (last_check : checkpoint_value)
  : option (list listing) :=
  match listings with
  | [] => Some []
  | l :: rest =>
      keep <- gt_checkpoint (published_at l) last_check ;;
      kept <- newer_than rest last_check ;;
      Some (if keep then l :: kept else kept)
  end.

(** get_new_listings, for an argument of any of the three kinds. *)
Definition get_new_listings (self : scraper) (now : Z) (world : exchange)
    (search_url : string) (last_check : checkpoint_value) : scan :=
  let domain := extract_domain search_url in
  let '(delay, self) := apply_rate_limit self now domain in
  let requested_at := now + delay + Z.of_N (proxy_time world) in
  let finished_at := requested_at + Z.of_N (latency world) in
  let result :=
    match answer world with
    | ConnectionFailed => []                          (* except Exception: return [] *)
    | Response status page =>
        if negb (status =? 200) then []
        else
          let listings := parse_vinted_listings page search_url finished_at in
          if checkpoint_truthy last_check then
            match newer_than listings last_check with
            | Some listings => listings
            | None => []                              (* except Exception: return [] *)
            end
          else listings
    end in
  {| result := result; requested_at := requested_at; finished_at := finished_at;
     scraper_after := self |}.

End Scan.

End AsCalled.

(* ===================================================================== *)
(** * bot.py: commands that arrive during a tick                           *)
(* ===================================================================== *)

Module Interleaving.

(** monitor_vinted reads get_all_active_searches once and then awaits in the
    body of its loop (the scan, the filters, the messages, the update of the
    checkpoint), so the commands of the users are handled between those
    steps, while the tick still works on the list it read.  Of the body only
    update_search_last_check writes the store: what matters of a command is
    before which update it is handled. *)

(** A command, handled [elapsed] seconds after the step before it. *)
Record arrival : Type := {
  elapsed : N;
  permitted : bool;                 (* the answer of check_permissions *)
  channel : Z;                      (* ctx.channel.id *)
  author : Z;                       (* ctx.author.id *)
  issued : Commands.command
}.

Definition handle (a : arrival) (s : state) : state :=
  Commands.execute (permitted a) (channel a) (author a) (issued a)
    {| clock := clock s + Z.of_N (elapsed a); database := database s |}.

Definition handle_all (commands : list arrival) (s : state) : state :=
  foldl (fun s a => handle a s) s commands.

(** What a tick meets: the world of [Bot.monitor_vinted], and for every
    search of the list the commands handled after the step before (the read
    of the list, or the previous search) and before the checkpoint of this
    search is written.  [duration] then counts from the last of them. *)
Record busy_world : Type := {
  quiet : tick_world;
  arrivals : search_row -> list arrival
}.

Fixpoint monitor_loop (world : busy_world) (searches : list search_row) (s : state)
  : state :=
  match searches with
  | [] => s
  | search :: rest =>
      let s := handle_all (arrivals world search) s in
      let now := clock s + Z.of_N (duration (quiet world) search) in
      let d :=
        match outcome (quiet world) search with
        | Completed io_ok =>
            update_search_last_check io_ok now (search_id search) (database s)
        | ChannelGone | Raised => database s
        end in
      monitor_loop world rest {| clock := now; database := d |}
  end.

Definition monitor_vinted (world : busy_world) (s : state) : state :=
  let searches :=
    if searches_ok (quiet world) then get_all_active_searches (database s) else [] in
  monitor_loop world searches s.

(** Commands between two ticks, and ticks with the commands that arrive
    during them; ticks themselves do not overlap (tasks.loop). *)
Inductive event : Type :=
| Command (a : arrival)
| Monitor (elapsed : N) (world : busy_world).

Definition step (e : event) (s : state) : state :=
  match e with
  | Command a => handle a s
  | Monitor elapsed world =>
      monitor_vinted world {| clock := clock s + Z.of_N elapsed; database := database s |}
  end.

Definition run (events : list event) (s : state) : state :=
  foldl (fun s e => step e s) s events.

End Interleaving.

(* ===================================================================== *)
(** * Invariants of the pool and of the store                              *)
(* ===================================================================== *)

Module Invariants.

(** The two containers of a manager agree with its dictionaries: the pool
    lists distinct dictionaries that exist, the index maps a url to a pooled
    dictionary with that url, every dictionary has a valid url, and no
    counter is negative. *)
Definition well_formed (m : manager) : Prop :=
  NoDup (proxies m)
  /\ (forall a, In a (proxies m) -> (a < List.length (heap m))%nat)
  /\ (forall u a, proxy_health m !! u = Some a ->
        In a (proxies m) /\ exists info, heap m !! a = Some info /\ url info = u)
  /\ (forall info, In info (heap m) ->
        0 <= success_count info /\ 0 <= failure_count info
        /\ is_valid_proxy_url (url info) = true).

(** A dictionary after [n] more failures were reported for it: unhealthy as
    soon as the failures exceed the successes by more than three. *)
Definition after_failures (n : Z) (info : proxy_info) : proxy_info :=
  {| url := url info; proxy_type := proxy_type info;
     success_count := success_count info;
     failure_count := failure_count info + n;
     last_used := last_used info;
     last_success := last_success info;
     is_healthy :=
       if (0 <? n) && (success_count info + 3 <? failure_count info + n) then false
       else is_healthy info;
     response_time := response_time info |}.

(** The ids of the search_urls table are those the sequence has handed out,
    each once. *)
Definition unique_ids (d : db) : Prop :=
  NoDup (map search_id (search_urls d))
  /\ 0 <= last_rowid d
  /\ (forall r, In r (search_urls d) -> 1 <= search_id r <= last_rowid d).

(** What the commands put into the store: subscriptions whose url
    is_valid_vinted_url accepted, with the domain and the location add_search
    derived from it, and active filters of one of the five kinds. *)
Definition stored_by_commands (d : db) : Prop :=
  (forall r, In r (search_urls d) ->
     Commands.is_valid_vinted_url (search_url r) = true
     /\ domain r = Commands.extract_domain (search_url r)
     /\ location r = Commands.location_of (domain r))
  /\ (forall f, In f (filters d) ->
        Spec.known_kind (filter_type f) = true /\ f_is_active f = true).

End Invariants.

(* ===================================================================== *)
(** * Data of further worked examples                                      *)
(* ===================================================================== *)

Module Cases.

Import Examples.

(** A page whose catalog lists one item, its creation time a number. *)
Definition payload_numeric : string :=
  "{" +:+ dq +:+ "catalog" +:+ dq +:+ ": {" +:+ dq +:+ "items" +:+ dq +:+ ": [{"
      +:+ dq +:+ "id" +:+ dq +:+ ": 5, "
      +:+ dq +:+ "title" +:+ dq +:+ ": " +:+ dq +:+ "Cap" +:+ dq +:+ ", "
      +:+ dq +:+ "created_at_ts" +:+ dq +:+ ": 1700000000"
      +:+ "}]}}".

Definition page_numeric : soup :=
  {| script_tags := [Some ("window.App = " +:+ payload_numeric +:+ ";")];
     item_containers := [] |}.

(** The listing of that item. *)
Definition cap : listing :=
  {| id := "5"; title := JStr "Cap"; price := 0; brand := JStr EmptyString;
     Scraper.size := JStr EmptyString; Scraper.condition := EmptyString;
     published_at := Naive 1700000000000000 |}.

(** A page whose catalog is empty, with one candidate in its markup. *)
Definition payload_empty_catalog : string :=
  "{" +:+ dq +:+ "catalog" +:+ dq +:+ ": {}}".

Definition page_empty_catalog : soup :=
  {| script_tags := [Some ("window.App = " +:+ payload_empty_catalog +:+ ";")];
     item_containers := [a_container "77" "Jacket"] |}.

(** A limiter that served www.vinted.fr when the clock read one second. *)
Definition limiter : scraper :=
  snd (apply_rate_limit new_scraper 1000000 "www.vinted.fr").

(** Probes that find the first dictionary dead and every other one alive
    after one second. *)
Definition first_dead (address : nat) : probe :=
  match address with
  | O => Failed
  | _ => Answered 1 5000000
  end.

(** A manager that checked its one proxy when the clock read zero. *)
Definition checked_at_zero : proxy_manager :=
  {| contents := added_once; last_health_check := Some 0 |}.

(** Calls made during the five minutes that follow. *)
Definition calls_within_five_minutes : list call :=
  [ GetProxy 60000000 first_dead (a_draw 0) 60000001;
    ReportResult 61000000 proxy_url true (Some 1%Q);
    GetProxy 300000000 first_dead (a_draw 0) 300000001 ].

(** The dictionary add_proxy creates for [proxy_url]. *)
Definition fresh_info : proxy_info :=
  {| url := proxy_url; proxy_type := "http";
     success_count := 0; failure_count := 0;
     last_used := None; last_success := None;
     is_healthy := true; response_time := None |}.

(** Four failure reports. *)
Definition four_failures : list (Z * option Q) :=
  [(1, None); (2, None); (3, None); (4, None)].

(** The three subscriptions of [registered], the second one removed. *)
Definition second_removed : state := perform (RemoveSearch 2 10) registered.

Definition removed_row : search_row :=
  {| search_id := 2; channel_id := 10;
     Database.search_url := "https://www.vinted.de/catalog?search_text=puma";
     domain := "www.vinted.de"; location := "de"; added_by := 7;
     last_check := 1005; is_active := false |}.

(** A tick in which every search takes three seconds and completes. *)
Definition calm_tick : tick_world :=
  {| searches_ok := true;
     duration := fun _ => 3%N;
     outcome := fun _ => Completed true |}.

(** A tick in which every search completes, and [!remove_search 2] is
    handled in channel 10 while the first search of the list is scanned. *)
Definition removal_during_scan : Interleaving.busy_world :=
  {| Interleaving.quiet := calm_tick;
     Interleaving.arrivals := fun search =>
       if search_id search =? 1 then
         [ {| Interleaving.elapsed := 1; Interleaving.permitted := true;
              Interleaving.channel := 10; Interleaving.author := 7;
              Interleaving.issued := Commands.CmdRemoveSearch 2 |} ]
       else [] |}.

(** A tick during which a subscription is added and the third one removed,
    and a second tick like it. *)
Definition busy_tick : Interleaving.busy_world :=
  {| Interleaving.quiet := calm_tick;
     Interleaving.arrivals := fun search =>
       if search_id search =? 1 then
         [ {| Interleaving.elapsed := 1; Interleaving.permitted := true;
              Interleaving.channel := 12; Interleaving.author := 9;
              Interleaving.issued :=
                Commands.CmdAddSearch "https://www.vinted.pl/catalog?search_text=vans" |};
           {| Interleaving.elapsed := 0; Interleaving.permitted := true;
              Interleaving.channel := 11; Interleaving.author := 8;
              Interleaving.issued := Commands.CmdRemoveSearch 3 |} ]
       else [] |}.

Definition two_busy_ticks : list Interleaving.event :=
  [ Interleaving.Monitor 30 busy_tick; Interleaving.Monitor 30 busy_tick ].

(** Two ticks, then a brand filter for channel 11. *)
Definition ticks_and_a_filter : list (N * operation) :=
  two_ticks ++ [(1%N, AddFilter 11 "brand" "nike")].

End Cases.

(* ===================================================================== *)
(** * Theorems                                                             *)
(* ===================================================================== *)

(** ** The attribute filter (bot.py, apply_filters) *)

Section FilterFacts.
Context `{Lib}.

Lemma Qltb_lt (x y : Q) : Qltb x y = true <-> (x < y)%Q.
Proof.
  unfold Qltb. rewrite negb_true_iff, <- not_true_iff_false, Qle_bool_iff.
  split; [apply Qnot_le_lt | apply Qlt_not_le].
Qed.

(** The code's test for exclusion is the negation of the specification's
    test for satisfaction, whenever the code's test does not raise. *)
Lemma filter_excludes_satisfies (l : listing) (f : filter_row) (e : bool) :
  filter_excludes l f = Some e -> Spec.satisfies l f = negb e.
Proof.
  unfold filter_excludes, Spec.satisfies.
  destruct (String.eqb (filter_type f) "price_min").
  { destruct (float_of_str (filter_value f)); intros [= <-].
    unfold Qltb. now rewrite negb_involutive. }
  destruct (String.eqb (filter_type f) "price_max").
  { destruct (float_of_str (filter_value f)); intros [= <-].
    unfold Qltb. now rewrite negb_involutive. }
  destruct (String.eqb (filter_type f) "brand").
  { destruct (brand l); simpl; intros [= <-]. now rewrite negb_involutive. }
  destruct (String.eqb (filter_type f) "size").
  { destruct (Scraper.size l); simpl; intros [= <-]. now rewrite negb_involutive. }
  destruct (String.eqb (filter_type f) "condition").
  { intros [= <-]. now rewrite negb_involutive. }
  now intros [= <-].
Qed.

Lemma should_include_satisfies (l : listing) (filters : list filter_row) (b : bool) :
  should_include l filters = Some b -> b = Spec.satisfies_all filters l.
Proof.
  revert b. induction filters as [|f rest IH]; intros b; simpl.
  - now intros [= <-].
  - destruct (filter_excludes l f) as [e|] eqn:He; [|discriminate].
    rewrite (filter_excludes_satisfies _ _ _ He).
    destruct e; simpl; [now intros [= <-] | apply IH].
Qed.

Lemma filter_loop_filter (listings : list listing) (filters : list filter_row)
    (kept : list listing) :
  filter_loop listings filters = Some kept ->
  kept = List.filter (Spec.satisfies_all filters) listings.
Proof.
  revert kept. induction listings as [|l rest IH]; intros kept; simpl.
  - now intros [= <-].
  - destruct (should_include l filters) as [b|] eqn:Hb; [|discriminate].
    destruct (filter_loop rest filters) as [k|]; [|discriminate].
    intros [= <-]. rewrite <- (should_include_satisfies _ _ _ Hb), (IH k eq_refl).
    reflexivity.
Qed.

(** The loop raises exactly when some listing's evaluation raises. *)
Lemma filter_loop_raises (listings : list listing) (filters : list filter_row) :
  filter_loop listings filters = None <->
  exists l, In l listings /\ should_include l filters = None.
Proof.
  induction listings as [|l rest IH]; simpl.
  - split; [discriminate | intros (l & [] & _)].
  - destruct (should_include l filters) as [b|] eqn:Hb.
    + destruct (filter_loop rest filters) as [k|].
      * split; [discriminate|]. intros (l' & [<- | Hin] & Hl'); [congruence|].
        assert (Some k = None) by (apply IH; eauto). discriminate.
      * split; [|reflexivity]. intros _.
        destruct (proj1 IH eq_refl) as (l' & Hin & Hl'). eauto.
    + split; [|reflexivity]. intros _. exists l. auto.
Qed.

Lemma filter_all_true {A : Type} (l : list A) : List.filter (fun _ => true) l = l.
Proof. induction l as [|x l IH]; simpl; congruence. Qed.

(** A filter that never excludes and never raises can be dropped from the
    inner loop. *)
Lemma should_include_skip (l : listing) (before after : list filter_row) (f : filter_row) :
  filter_excludes l f = Some false ->
  should_include l (before ++ f :: after) = should_include l (before ++ after).
Proof.
  intros Hf. induction before as [|g before IH]; simpl.
  - now rewrite Hf.
  - destruct (filter_excludes l g) as [[|]|]; auto.
Qed.

Lemma filter_loop_ext (listings : list listing) (fs1 fs2 : list filter_row) :
  (forall l, should_include l fs1 = should_include l fs2) ->
  filter_loop listings fs1 = filter_loop listings fs2.
Proof.
  intros Hext. induction listings as [|l rest IH]; simpl; [reflexivity|].
  now rewrite Hext, IH.
Qed.

Lemma filter_loop_nil (listings : list listing) : filter_loop listings [] = Some listings.
Proof. induction listings as [|l rest IH]; simpl; [reflexivity | now rewrite IH]. Qed.

Lemma unknown_kind_never_excludes (l : listing) (f : filter_row) :
  Spec.known_kind (filter_type f) = false -> filter_excludes l f = Some false.
Proof.
  unfold Spec.known_kind, filter_excludes. simpl.
  destruct (String.eqb (filter_type f) "price_min"); [discriminate|].
  destruct (String.eqb (filter_type f) "price_max"); [discriminate|].
  destruct (String.eqb (filter_type f) "brand"); [discriminate|].
  destruct (String.eqb (filter_type f) "size"); [discriminate|].
  destruct (String.eqb (filter_type f) "condition"); [discriminate|].
  reflexivity.
Qed.

(** Evaluation raises nowhere when every price bound is a number and the
    brand and size of every listing are text. *)
Lemma filter_loop_defined (listings : list listing) (filters : list filter_row) :
  (forall f, In f filters ->
     filter_type f = "price_min" \/ filter_type f = "price_max" ->
     float_of_str (filter_value f) <> None) ->
  (forall l, In l listings ->
     as_str (brand l) <> None /\ as_str (Scraper.size l) <> None) ->
  filter_loop listings filters <> None.
Proof.
  intros Hbounds Htext Hraise. apply filter_loop_raises in Hraise.
  destruct Hraise as (l & Hin & Hl). destruct (Htext l Hin) as [Hbrand Hsize].
  clear Htext Hin. induction filters as [|f rest IH]; simpl in Hl; [discriminate|].
  destruct (filter_excludes l f) as [[|]|] eqn:Hf; [discriminate | |].
  - apply IH; [|exact Hl]. intros g Hg. apply Hbounds. simpl. auto.
  - clear IH Hl. unfold filter_excludes in Hf.
    destruct (String.eqb (filter_type f) "price_min") eqn:Hmin.
    { apply String.eqb_eq in Hmin.
      destruct (float_of_str (filter_value f)) eqn:Hv; [discriminate|].
      apply (Hbounds f); simpl; auto. }
    destruct (String.eqb (filter_type f) "price_max") eqn:Hmax.
    { apply String.eqb_eq in Hmax.
      destruct (float_of_str (filter_value f)) eqn:Hv; [discriminate|].
      apply (Hbounds f); simpl; auto. }
    destruct (String.eqb (filter_type f) "brand").
    { destruct (as_str (brand l)); [discriminate | congruence]. }
    destruct (String.eqb (filter_type f) "size").
    { destruct (as_str (Scraper.size l)); [discriminate | congruence]. }
    destruct (String.eqb (filter_type f) "condition"); discriminate.
Qed.

(** C2 (as amended).  On every listing list and filter set whose evaluation
    raises no exception, apply_filters keeps exactly the listings that
    satisfy every filter, in their order: price_min and price_max compare
    the bound with the listing's price, brand and condition look for the
    lowered filter value inside the lowered field, size compares the lowered
    texts for equality.  A filter of unknown kind can be removed from the set
    without changing the result, and the empty set returns the input. *)
Theorem apply_filters_conjunction (listings : list listing) (filters : list filter_row) :
  (filter_loop listings filters <> None ->
     apply_filters listings filters = List.filter (Spec.satisfies_all filters) listings
     /\ forall l, In l (apply_filters listings filters) <->
                  In l listings /\ forall f, In f filters -> Spec.satisfies l f = true)
  /\ (forall before f after,
        filters = before ++ f :: after ->
        Spec.known_kind (filter_type f) = false ->
        apply_filters listings filters = apply_filters listings (before ++ after))
  /\ apply_filters listings [] = listings.
Proof.
  split; [|split].
  - intros Hok.
    assert (Heq : apply_filters listings filters
                  = List.filter (Spec.satisfies_all filters) listings).
    { unfold apply_filters. destruct filters as [|f rest].
      - unfold Spec.satisfies_all. simpl. now rewrite filter_all_true.
      - destruct (filter_loop listings (f :: rest)) as [k|] eqn:Hk; [|congruence].
        now apply filter_loop_filter. }
    split; [exact Heq|]. intros l. rewrite Heq, filter_In.
    unfold Spec.satisfies_all. rewrite forallb_forall. reflexivity.
  - intros before f after -> Hunknown.
    assert (Hloop : filter_loop listings (before ++ f :: after)
                    = filter_loop listings (before ++ after)).
    { apply filter_loop_ext. intros l. apply should_include_skip.
      now apply unknown_kind_never_excludes. }
    unfold apply_filters. rewrite Hloop.
    destruct (before ++ f :: after) as [|g gs] eqn:Hfs.
    { now destruct before. }
    destruct (before ++ after) as [|g' gs'] eqn:Hfs'; [|reflexivity].
    now rewrite filter_loop_nil.
  - reflexivity.
Qed.

(** C10.  When evaluating the filters raises for some listing of the batch,
    apply_filters returns the whole batch as it received it.  In particular
    a price_min or price_max filter whose value [float] rejects has this
    effect as soon as one listing passes the filters placed before it. *)
Theorem apply_filters_exception_returns_input
    (listings : list listing) (filters : list filter_row) :
  ((exists l, In l listings /\ should_include l filters = None) ->
     apply_filters listings filters = listings)
  /\ (forall l before f after,
        In l listings ->
        filters = before ++ f :: after ->
        should_include l before = Some true ->
        filter_type f = "price_min" \/ filter_type f = "price_max" ->
        float_of_str (filter_value f) = None ->
        apply_filters listings filters = listings).
Proof.
  assert (Hmain : (exists l, In l listings /\ should_include l filters = None) ->
                  apply_filters listings filters = listings).
  { intros Hraise. apply filter_loop_raises in Hraise.
    unfold apply_filters. rewrite Hraise. now destruct filters. }
  split; [exact Hmain|].
  intros l before f after Hin -> Hbefore Hkind Hvalue.
  apply Hmain. exists l. split; [exact Hin|].
  assert (Hf : filter_excludes l f = None).
  { unfold filter_excludes. destruct Hkind as [-> | ->]; simpl; now rewrite Hvalue. }
  clear Hmain. revert Hbefore. induction before as [|g before IH]; simpl.
  - now rewrite Hf.
  - destruct (filter_excludes l g) as [[|]|]; [discriminate | exact IH | discriminate].
Qed.

End FilterFacts.

Section FilterExamples.
#[local] Existing Instance SampleLib.lib.

(** The scenario of section 8: with price-max 50 and brand nike, the listing
    at 40 branded Nike Air passes and the listing at 60 branded Nike fails,
    on price-max. *)
Example apply_filters_scenario :
  apply_filters [Examples.nike_air_40; Examples.nike_60] Examples.scenario_filters
    = [Examples.nike_air_40]
  /\ Spec.satisfies Examples.nike_60 (Examples.a_filter "price_max" "50") = false
  /\ Spec.satisfies Examples.nike_60 (Examples.a_filter "brand" "nike") = true.
Proof. vm_compute. auto. Qed.

(** The amended C2 at the scenario. *)
Lemma apply_filters_conjunction_witness :
  apply_filters [Examples.nike_air_40; Examples.nike_60] Examples.scenario_filters
  = List.filter (Spec.satisfies_all Examples.scenario_filters)
                [Examples.nike_air_40; Examples.nike_60].
Proof.
  apply (proj1 (apply_filters_conjunction
                  [Examples.nike_air_40; Examples.nike_60] Examples.scenario_filters)).
  vm_compute. discriminate.
Defined.

(** The claim C2 as the specification states it, for every filter set, fails:
    with a price bound that is not a number ahead of a brand filter, a
    listing of another brand is kept. *)
Lemma apply_filters_conjunction_counterexample :
  ~ (forall (listings : list listing) (filters : list filter_row) (l : listing),
       In l (apply_filters listings filters) <->
       In l listings /\ forall f, In f filters -> Spec.satisfies l f = true).
Proof.
  intros Hclaim.
  destruct (Hclaim [Examples.adidas_10] Examples.broken_filters Examples.adidas_10)
    as [Hkept _].
  assert (Hin : In Examples.adidas_10
                   (apply_filters [Examples.adidas_10] Examples.broken_filters)).
  { vm_compute. auto. }
  destruct (Hkept Hin) as [_ Hall].
  specialize (Hall (Examples.a_filter "brand" "nike")).
  assert (Hfalse : Spec.satisfies Examples.adidas_10 (Examples.a_filter "brand" "nike") = false)
    by (vm_compute; reflexivity).
  rewrite Hall in Hfalse; [discriminate|].
  unfold Examples.broken_filters. simpl. auto.
Qed.

(** C10 at a bound that is not a number. *)
Lemma apply_filters_exception_returns_input_witness :
  apply_filters [Examples.adidas_10] Examples.broken_filters = [Examples.adidas_10].
Proof.
  apply (proj1 (apply_filters_exception_returns_input
                  [Examples.adidas_10] Examples.broken_filters)).
  exists Examples.adidas_10. split; [simpl; auto | vm_compute; reflexivity].
Defined.

End FilterExamples.

(** ** The scan (vinted_scraper.py, get_new_listings) *)

Section ScanFacts.
Context `{Lib}.

(** The comprehension keeps what a filter on [>] keeps, when no comparison
    raises. *)
Lemma newer_than_filter (listings kept : list listing) (last_check : datetime) :
  newer_than listings last_check = Some kept ->
  kept = List.filter (fun l => bool_decide (dt_gt (published_at l) last_check = Some true))
                     listings.
Proof.
  revert kept. induction listings as [|l rest IH]; intros kept; simpl.
  - now intros [= <-].
  - destruct (dt_gt (published_at l) last_check) as [b|] eqn:Hb; [|discriminate].
    destruct (newer_than rest last_check) as [k|]; [|discriminate].
    intros [= <-]. rewrite <- (IH k eq_refl). now destruct b.
Qed.

(** It raises exactly when some listing cannot be ordered against the
    checkpoint. *)
Lemma newer_than_raises (listings : list listing) (last_check : datetime) :
  newer_than listings last_check = None <->
  exists l, In l listings /\ dt_gt (published_at l) last_check = None.
Proof.
  induction listings as [|l rest IH]; simpl.
  - split; [discriminate | intros (l & [] & _)].
  - destruct (dt_gt (published_at l) last_check) as [b|] eqn:Hb.
    + destruct (newer_than rest last_check) as [k|].
      * split; [discriminate|]. intros (l' & [<- | Hin] & Hl'); [congruence|].
        assert (Some k = None) by (apply IH; eauto). discriminate.
      * split; [|reflexivity]. intros _.
        destruct (proj1 IH eq_refl) as (l' & Hin & Hl'). eauto.
    + split; [|reflexivity]. intros _. exists l. auto.
Qed.

Lemma dt_gt_irrefl (t : datetime) : dt_gt t t = Some false.
Proof. destruct t; simpl; f_equal; apply Z.ltb_irrefl. Qed.

Lemma dt_gt_succ (t : datetime) : dt_gt (dt_succ t) t = Some true.
Proof. destruct t; simpl; f_equal; apply Z.ltb_lt; lia. Qed.

(** The time a scan ends, whatever the page and the checkpoint. *)
Lemma apply_rate_limit_delay_nonneg (self : scraper) (now : Z) (host : string) :
  0 <= fst (apply_rate_limit self now host).
Proof.
  unfold apply_rate_limit. simpl.
  destruct (last_requests self !! host) as [t|]; [|lia].
  destruct (now - t <? min_delay self * 1000000) eqn:Hlt; [|lia].
  apply Z.ltb_lt in Hlt. lia.
Qed.

Lemma scan_times (self : scraper) (now : Z) (world : exchange) (url : string)
    (last_check : option datetime) :
  let s := get_new_listings self now world url last_check in
  now <= requested_at s /\ requested_at s <= finished_at s.
Proof.
  unfold get_new_listings.
  pose proof (apply_rate_limit_delay_nonneg self now (extract_domain url)) as Hd.
  destruct (apply_rate_limit self now (extract_domain url)) as [delay self'].
  simpl in *. lia.
Qed.

Lemma finished_at_checkpoint (self : scraper) (now : Z) (world : exchange) (url : string)
    (c1 c2 : option datetime) :
  finished_at (get_new_listings self now world url c1)
  = finished_at (get_new_listings self now world url c2).
Proof.
  unfold get_new_listings.
  destruct (apply_rate_limit self now (extract_domain url)). reflexivity.
Qed.

(** What the scan returns on a page answered with status 200, in terms of the
    parse made when the body has arrived. *)
Lemma get_new_listings_200 (self : scraper) (now : Z) (world : exchange) (url : string)
    (page : soup) (last_check : datetime) :
  answer world = Response 200 page ->
  let s := get_new_listings self now world url (Some last_check) in
  result s =
    match newer_than (parse_vinted_listings page url (finished_at s)) last_check with
    | Some listings => listings
    | None => []
    end.
Proof.
  intros Hanswer. unfold get_new_listings.
  destruct (apply_rate_limit self now (extract_domain url)) as [delay self'].
  simpl. rewrite Hanswer. reflexivity.
Qed.

(** The incremental filter on a page whose listings can all be ordered
    against the checkpoint: exactly the listings published strictly after it
    are returned, so one published at the checkpoint is dropped and one
    published a microsecond later is kept. *)
Lemma get_new_listings_strictly_newer (self : scraper) (now : Z) (world : exchange)
    (url : string) (page : soup) (last_check : datetime) :
  answer world = Response 200 page ->
  let s := get_new_listings self now world url (Some last_check) in
  let parsed := parse_vinted_listings page url (finished_at s) in
  (forall l, In l parsed -> dt_gt (published_at l) last_check <> None) ->
  result s
    = List.filter (fun l => bool_decide (dt_gt (published_at l) last_check = Some true)) parsed
  /\ (forall l, In l parsed -> published_at l = last_check -> ~ In l (result s))
  /\ (forall l, In l parsed -> published_at l = dt_succ last_check -> In l (result s)).
Proof.
  intros Hanswer s parsed Hok.
  assert (Hres : result s
                 = List.filter
                     (fun l => bool_decide (dt_gt (published_at l) last_check = Some true))
                     parsed).
  { unfold s at 1. rewrite (get_new_listings_200 _ _ _ _ _ _ Hanswer). fold s. fold parsed.
    destruct (newer_than parsed last_check) as [k|] eqn:Hk.
    - now apply newer_than_filter.
    - apply newer_than_raises in Hk. destruct Hk as (l & Hin & Hl). now apply Hok in Hin. }
  split; [exact Hres|]. rewrite Hres. split; intros l Hin Hpub.
  - rewrite filter_In, Hpub, dt_gt_irrefl, bool_decide_eq_true. intros [_ ?]. discriminate.
  - rewrite filter_In, Hpub, dt_gt_succ, bool_decide_eq_true. auto.
Qed.

(** *** The fallback path stamps its listings with the time of the scan *)

Lemma parse_html_listings_published_at (page : soup) (url : string) (now : Z) (l : listing) :
  In l (parse_html_listings page url now) -> published_at l = utcnow now.
Proof.
  unfold parse_html_listings. rewrite filter_In, in_map_iff.
  intros [(c & <- & _) _]. reflexivity.
Qed.

Lemma newer_than_all (listings : list listing) (last_check : datetime) :
  (forall l, In l listings -> dt_gt (published_at l) last_check = Some true) ->
  newer_than listings last_check = Some listings.
Proof.
  induction listings as [|l rest IH]; intros Hall; simpl; [reflexivity|].
  rewrite (Hall l) by (simpl; auto). rewrite IH; [reflexivity|].
  intros l' Hin. apply Hall. simpl. auto.
Qed.

Lemma dt_gt_later (t : Z) (t' : Z) (last_check : datetime) :
  dt_gt (utcnow t) last_check = Some true -> t <= t' ->
  dt_gt (utcnow t') last_check = Some true.
Proof.
  unfold utcnow. destruct last_check as [c|c]; simpl; [|discriminate].
  intros [= Hlt] Hle. f_equal. apply Z.ltb_lt in Hlt. apply Z.ltb_lt. lia.
Qed.

(** Every listing of the fallback path carries, as published_at, the
    reading of the clock at the time of the parse, not a time taken from the
    page.  Hence when a scan with status 200 takes the fallback path and its
    checkpoint is a naive datetime earlier than the moment the scan started,
    the scan returns every listing the fallback path produced.  The
    hypothesis on the comparison cannot be dropped: it fails for an aware
    checkpoint, however early (see [aware_checkpoint_drops_fallback]). *)
Theorem fallback_listings_never_dropped (self : scraper) (now : Z) (world : exchange)
    (url : string) (page : soup) (last_check : datetime) :
  answer world = Response 200 page ->
  let s := get_new_listings self now world url (Some last_check) in
  path_taken page url (finished_at s) = Some FallbackPath ->
  dt_gt (utcnow now) last_check = Some true ->
  (forall l, In l (parse_html_listings page url (finished_at s)) ->
             published_at l = utcnow (finished_at s))
  /\ parse_vinted_listings page url (finished_at s)
     = parse_html_listings page url (finished_at s)
  /\ result s = parse_html_listings page url (finished_at s).
Proof.
  intros Hanswer s Hpath Hearlier.
  assert (Hparsed : parse_vinted_listings page url (finished_at s)
                    = parse_html_listings page url (finished_at s)).
  { unfold path_taken in Hpath. unfold parse_vinted_listings.
    destruct (parse_body page url (finished_at s)) as [[path listings]|] eqn:Hbody;
      [|discriminate].
    simpl in Hpath. injection Hpath as ->.
    unfold parse_body in Hbody.
    destruct (find_vinted_data (script_tags page)) as [vinted_data|]; [|discriminate].
    destruct (has_catalog vinted_data) as [[|]|];
      [|now injection Hbody as <- | discriminate].
    destruct (v <- vinted_data;; as_dict v) as [d|]; [|discriminate].
    destruct (as_dict (dict_get d "catalog" (JDict []))) as [c|]; [|discriminate].
    destruct (iterate (dict_get c "items" (JList []))); discriminate. }
  split; [intros l; apply parse_html_listings_published_at|].
  split; [exact Hparsed|].
  unfold s at 1. rewrite (get_new_listings_200 _ _ _ _ _ _ Hanswer). fold s.
  rewrite Hparsed, newer_than_all; [reflexivity|].
  intros l Hin. rewrite (parse_html_listings_published_at _ _ _ _ Hin).
  apply (dt_gt_later now); [exact Hearlier|].
  pose proof (scan_times self now world url (Some last_check)) as [Hreq Hfin].
  fold s in Hreq, Hfin. lia.
Qed.

(** The same scan with an aware checkpoint: ordering the naive stamp of a
    fallback listing against it raises, and the scan returns nothing,
    however early the checkpoint. *)
Lemma aware_checkpoint_drops_fallback (self : scraper) (now : Z) (world : exchange)
    (url : string) (page : soup) (c : Z) :
  answer world = Response 200 page ->
  let s := get_new_listings self now world url (Some (Aware c)) in
  path_taken page url (finished_at s) = Some FallbackPath ->
  result s = [].
Proof.
  intros Hanswer s Hpath.
  unfold s at 1. rewrite (get_new_listings_200 _ _ _ _ _ _ Hanswer). fold s.
  assert (Hparsed : parse_vinted_listings page url (finished_at s)
                    = parse_html_listings page url (finished_at s)).
  { unfold path_taken in Hpath. unfold parse_vinted_listings.
    destruct (parse_body page url (finished_at s)) as [[path listings]|] eqn:Hbody;
      [|discriminate].
    simpl in Hpath. injection Hpath as ->.
    unfold parse_body in Hbody.
    destruct (find_vinted_data (script_tags page)) as [vinted_data|]; [|discriminate].
    destruct (has_catalog vinted_data) as [[|]|];
      [|now injection Hbody as <- | discriminate].
    destruct (v <- vinted_data;; as_dict v) as [d|]; [|discriminate].
    destruct (as_dict (dict_get d "catalog" (JDict []))) as [k|]; [|discriminate].
    destruct (iterate (dict_get k "items" (JList []))); discriminate. }
  rewrite Hparsed.
  pose proof (parse_html_listings_published_at page url (finished_at s)) as Hstamp.
  destruct (parse_html_listings page url (finished_at s)) as [|l rest]; [reflexivity|].
  simpl. now rewrite (Hstamp l) by (left; reflexivity).
Qed.

(** *** The scan as monitor_vinted calls it *)

Lemma as_called_newer_than (listings : list listing) (d : datetime) :
  AsCalled.newer_than listings (AsCalled.CheckDatetime d) = newer_than listings d.
Proof.
  induction listings as [|l rest IH]; simpl; [reflexivity|]. now rewrite IH.
Qed.

(** On a datetime and on None the scan is the one of [Scraper]. *)
Lemma as_called_typed (self : scraper) (now : Z) (world : exchange) (url : string) :
  (forall d, AsCalled.get_new_listings self now world url (AsCalled.CheckDatetime d)
             = get_new_listings self now world url (Some d))
  /\ AsCalled.get_new_listings self now world url AsCalled.CheckNone
     = get_new_listings self now world url None.
Proof.
  unfold AsCalled.get_new_listings, get_new_listings.
  destruct (apply_rate_limit self now (extract_domain url)) as [delay self'].
  split; [intros d|]; simpl; [|reflexivity].
  destruct (answer world) as [|status page]; [reflexivity|].
  destruct (negb (status =? 200)); [reflexivity|]. now rewrite as_called_newer_than.
Qed.

(** On the text of the last_check column the scan returns nothing, whatever
    the page: the comparison of the first listing raises, and without a
    listing there is nothing to return. *)
Lemma text_checkpoint_returns_nothing (self : scraper) (now : Z) (world : exchange)
    (url text : string) :
  text <> EmptyString ->
  result (AsCalled.get_new_listings self now world url (AsCalled.CheckStr text)) = [].
Proof.
  intros Htext. unfold AsCalled.get_new_listings.
  destruct (apply_rate_limit self now (extract_domain url)) as [delay self']. simpl.
  destruct (answer world) as [|status page]; [reflexivity|].
  destruct (negb (status =? 200)); [reflexivity|].
  destruct text; [contradiction|]. simpl.
  now destruct (parse_vinted_listings page url _).
Qed.

(** *** Which parse path runs *)

Lemma find_vinted_data_payload (page : soup) (data : json) :
  find_vinted_data (script_tags page) = Some (Some data) ->
  Spec.structured_payload page data.
Proof.
  unfold Spec.structured_payload.
  induction (script_tags page) as [|script rest IH]; simpl; [discriminate|].
  intros Hfind.
  assert (Hrest : find_vinted_data rest = Some (Some data) ->
                  exists text literal,
                    (script = Some text \/ In (Some text) rest)
                    /\ contains "window.App" text = true
                    /\ re_search_window_app text = Some literal
                    /\ json_loads literal = Loaded data).
  { intros Hr. destruct (IH Hr) as (text & literal & Hin & Hrem). exists text, literal. auto. }
  destruct script as [text|]; [|auto].
  destruct (str_truthy text && contains "window.App" text) eqn:Hmarker; [|auto].
  destruct (re_search_window_app text) as [literal|] eqn:Hre; [|auto].
  destruct (json_loads literal) as [d| |] eqn:Hjson; [|auto|discriminate].
  injection Hfind as <-. exists text, literal.
  apply andb_true_iff in Hmarker. destruct Hmarker as [_ Hmarker]. auto.
Qed.

(** The loop ends without a [break] only if no payload decodes. *)
Lemma find_vinted_data_none (page : soup) :
  find_vinted_data (script_tags page) = Some None ->
  ~ exists data, Spec.structured_payload page data.
Proof.
  unfold Spec.structured_payload.
  induction (script_tags page) as [|script rest IH]; simpl.
  - intros _ (data & text & literal & [] & _).
  - intros Hfind (data & text & literal & [-> | Hin] & Hmarker & Hre & Hjson).
    + assert (Htruthy : str_truthy text = true) by (destruct text; [discriminate | reflexivity]).
      rewrite Htruthy, Hmarker, Hre, Hjson in Hfind. discriminate.
    + apply IH; [|eauto 8].
      destruct script as [text'|]; [|assumption].
      destruct (str_truthy text' && contains "window.App" text'); [|assumption].
      destruct (re_search_window_app text') as [literal'|]; [|assumption].
      destruct (json_loads literal'); [discriminate | assumption | discriminate].
Qed.

(** An exception leaves the loop only if json.loads raised something other
    than JSONDecodeError on the payload of some script. *)
Lemma find_vinted_data_raises (page : soup) :
  find_vinted_data (script_tags page) = None ->
  exists text literal,
    In (Some text) (script_tags page)
    /\ contains "window.App" text = true
    /\ re_search_window_app text = Some literal
    /\ json_loads literal = OtherError.
Proof.
  induction (script_tags page) as [|script rest IH]; simpl; [discriminate|].
  intros Hfind.
  assert (Hrest : find_vinted_data rest = None ->
                  exists text literal,
                    (script = Some text \/ In (Some text) rest)
                    /\ contains "window.App" text = true
                    /\ re_search_window_app text = Some literal
                    /\ json_loads literal = OtherError).
  { intros Hr. destruct (IH Hr) as (text & literal & Hin & Hrem). exists text, literal. auto. }
  destruct script as [text|]; [|auto].
  destruct (str_truthy text && contains "window.App" text) eqn:Hmarker; [|auto].
  destruct (re_search_window_app text) as [literal|] eqn:Hre; [|auto].
  destruct (json_loads literal) as [d| |] eqn:Hjson; [discriminate|auto|].
  exists text, literal.
  apply andb_true_iff in Hmarker. destruct Hmarker as [_ Hmarker]. auto.
Qed.

(** The scripts before the one that ends the loop are passed over. *)
Lemma find_vinted_data_app (before after : list (option string)) :
  find_vinted_data (before ++ after)
  = match find_vinted_data before with
    | Some None => find_vinted_data after
    | ended => ended
    end.
Proof.
  induction before as [|script rest IH]; simpl; [reflexivity|].
  destruct script as [text|]; [|exact IH].
  destruct (str_truthy text && contains "window.App" text); [|exact IH].
  destruct (re_search_window_app text) as [literal|]; [|exact IH].
  destruct (json_loads literal); [reflexivity | exact IH | reflexivity].
Qed.

Lemma path_taken_fallback (page : soup) (url : string) (now : Z) :
  path_taken page url now = Some FallbackPath <->
  exists vinted_data,
    find_vinted_data (script_tags page) = Some vinted_data
    /\ has_catalog vinted_data = Some false.
Proof.
  unfold path_taken, parse_body.
  destruct (find_vinted_data (script_tags page)) as [vinted_data|]; simpl.
  - destruct (has_catalog vinted_data) as [[|]|] eqn:Hhas; simpl.
    + split; [|intros (v & [= <-] & Hv); congruence].
      destruct (v <- vinted_data;; as_dict v) as [d|]; [|discriminate].
      destruct (as_dict (dict_get d "catalog" (JDict []))) as [c|]; [|discriminate].
      destruct (iterate (dict_get c "items" (JList []))); discriminate.
    + split; [eauto | reflexivity].
    + split; [discriminate | intros (v & [= <-] & Hv); congruence].
  - split; [discriminate | intros (v & Hv & _); discriminate].
Qed.

(** An exception that leaves the loop leaves the function: neither path
    runs, and the answer is the empty list. *)
Lemma find_vinted_data_raised (page : soup) (url : string) (now : Z) :
  find_vinted_data (script_tags page) = None ->
  path_taken page url now = None /\ parse_vinted_listings page url now = [].
Proof.
  intros Hfind. unfold path_taken, parse_vinted_listings, parse_body.
  now rewrite Hfind.
Qed.

(** C5 (as amended).  When the loop over the scripts stops at a window.App
    payload that decodes to an object with a catalog key (the first payload
    that decodes, no earlier payload having made json.loads raise anything
    but JSONDecodeError), the fallback markup scan does not run: the result
    is the same whatever elements the markup holds.  The fallback runs only
    when no payload decodes (no script has the marker followed by an object
    literal that json.loads accepts), or when the first payload that decodes
    is empty or has no catalog key.  When json.loads raises an exception
    other than JSONDecodeError before any payload decodes, which happens
    only on the payload of some script, neither path runs and the parse
    returns the empty list. *)
Theorem primary_path_precedence (page : soup) (url : string) (now : Z) :
  (forall d,
      find_vinted_data (script_tags page) = Some (Some (JDict d)) ->
      dict_has d "catalog" = true ->
      path_taken page url now <> Some FallbackPath
      /\ forall markup,
           parse_vinted_listings
             {| script_tags := script_tags page; item_containers := markup |} url now
           = parse_vinted_listings page url now)
  /\ (path_taken page url now = Some FallbackPath ->
        (~ exists data, Spec.structured_payload page data)
        \/ exists v, find_vinted_data (script_tags page) = Some (Some v)
                     /\ Spec.structured_payload page v
                     /\ (truthy v = false \/ key_in "catalog" v = Some false))
  /\ (forall before text literal after,
        script_tags page = before ++ Some text :: after ->
        find_vinted_data before = Some None ->
        contains "window.App" text = true ->
        re_search_window_app text = Some literal ->
        json_loads literal = OtherError ->
        path_taken page url now = None /\ parse_vinted_listings page url now = [])
  /\ (find_vinted_data (script_tags page) = None ->
        (path_taken page url now = None /\ parse_vinted_listings page url now = [])
        /\ exists text literal,
             In (Some text) (script_tags page)
             /\ contains "window.App" text = true
             /\ re_search_window_app text = Some literal
             /\ json_loads literal = OtherError).
Proof.
  split; [|split; [|split]].
  - intros d Hfind Hcatalog.
    assert (Hhas : has_catalog (Some (JDict d)) = Some true).
    { simpl. destruct d; [discriminate|]. simpl in *. now rewrite Hcatalog. }
    split.
    + rewrite path_taken_fallback. intros (v & Hv & Hfalse).
      rewrite Hfind in Hv. injection Hv as <-. congruence.
    + intros markup. unfold parse_vinted_listings, parse_body. simpl.
      now rewrite Hfind, Hhas.
  - rewrite path_taken_fallback. intros ([v|] & Hfind & Hhas).
    + right. exists v. split; [exact Hfind|].
      split; [now apply find_vinted_data_payload|].
      unfold has_catalog in Hhas.
      destruct (truthy v); [right; exact Hhas | left; reflexivity].
    + left. now apply find_vinted_data_none.
  - intros before text literal after Hscripts Hbefore Hmarker Hre Hjson.
    apply find_vinted_data_raised.
    rewrite Hscripts, find_vinted_data_app, Hbefore. simpl.
    assert (Htruthy : str_truthy text = true) by (destruct text; [discriminate | reflexivity]).
    now rewrite Htruthy, Hmarker, Hre, Hjson.
  - intros Hfind. split; [now apply find_vinted_data_raised|].
    now apply find_vinted_data_raises.
Qed.

(** *** The rate limiter *)

(** The wait depends on the last request to the same host only. *)
Lemma apply_rate_limit_other_host (self : scraper) (t t' : Z) (host other : string) :
  other <> host ->
  fst (apply_rate_limit (snd (apply_rate_limit self t' other)) t host)
  = fst (apply_rate_limit self t host).
Proof.
  intros Hne. unfold apply_rate_limit. simpl. now rewrite lookup_insert_ne.
Qed.

(** The wait separates a request from the previous call of the limiter for
    the same host, which is the reading the limiter stores. *)
Lemma apply_rate_limit_since_last_call (self : scraper) (now last : Z) (host : string) :
  last_requests self !! host = Some last ->
  last + min_delay self * 1000000 <= now + fst (apply_rate_limit self now host)
  /\ last_requests (snd (apply_rate_limit self now host)) !! host = Some now.
Proof.
  intros Hlast. unfold apply_rate_limit. simpl. rewrite Hlast, lookup_insert_eq.
  split; [|reflexivity].
  destruct (now - last <? min_delay self * 1000000) eqn:Hlt.
  - lia.
  - apply Z.ltb_ge in Hlt. lia.
Qed.

End ScanFacts.

Section ScanExamples.
#[local] Existing Instance SampleLib.lib.
Import Examples.

(** The sample library on the texts of the examples: the pattern finds the
    object literal, the decoder reads it, and the ISO text with its Z
    replaced is an aware datetime. *)
Example sample_library_on_the_examples :
  re_search_window_app ("window.App = " +:+ payload_two_items +:+ ";")
    = Some payload_two_items
  /\ json_loads payload_two_items = Loaded decoded_two_items
  /\ json_loads payload_without_catalog = Loaded decoded_without_catalog
  /\ fromisoformat (replace_char "Z" "+00:00" "2030-01-01T00:00:00Z")
     = Some (Aware 1893456000000000)
  /\ float_of_str "50" = Some 50%Q
  /\ float_of_str "abc" = None
  /\ extract_domain search_url = "www.vinted.fr".
Proof. vm_compute. repeat split; reflexivity. Qed.

(** The page without scripts, scanned thirty seconds after a naive
    checkpoint. *)
Lemma fallback_listings_never_dropped_witness :
  let s := get_new_listings new_scraper 1900000000000000 (answers page_markup_only)
                            search_url (Some (Naive 1899999970000000)) in
  result s = parse_html_listings page_markup_only search_url (finished_at s).
Proof.
  apply (fallback_listings_never_dropped new_scraper 1900000000000000
           (answers page_markup_only) search_url page_markup_only
           (Naive 1899999970000000)); reflexivity.
Defined.

(** On the page with the long integer json.loads raises the ValueError of
    [int]: the loop is left, the markup is not scanned, and the jacket of
    the markup is not returned. *)
Example long_integer_stops_the_parse :
  re_search_window_app ("window.App = " +:+ payload_long_integer +:+ ";")
    = Some payload_long_integer
  /\ json_loads payload_long_integer = OtherError
  /\ find_vinted_data (script_tags page_long_integer) = None
  /\ path_taken page_long_integer search_url 0 = None
  /\ parse_vinted_listings page_long_integer search_url 0 = []
  /\ parse_html_listings page_long_integer search_url 0
     = [html_listing (a_container "77" "Jacket") 0].
Proof. vm_compute. repeat split; reflexivity. Qed.

(** C9 at a failing input.  The page has no script, so the fallback path
    runs and produces two listings, both stamped with the time of the
    parse.  The checkpoint lies thirty seconds before the scan.  Given as an
    aware datetime, its comparison with the naive stamp raises TypeError;
    given as the text of the last_check column, which is what
    monitor_vinted passes, the comparison raises too.  In both cases the
    outer [except] of get_new_listings returns the empty list: the
    incremental filter has dropped both listings. *)
Lemma fallback_listings_dropped :
  let now := 1900000000000000 in
  let aware := get_new_listings new_scraper now (answers page_markup_only) search_url
                                (Some (Aware 1899999970000000)) in
  let text := AsCalled.get_new_listings new_scraper now (answers page_markup_only) search_url
                                        (AsCalled.CheckStr "2030-03-17 17:46:10") in
  path_taken page_markup_only search_url (finished_at aware) = Some FallbackPath
  /\ parse_vinted_listings page_markup_only search_url (finished_at aware)
     = [html_listing (a_container "77" "Jacket") (finished_at aware);
        html_listing (a_container "78" "Scarf") (finished_at aware)]
  /\ result aware = []
  /\ finished_at text = finished_at aware
  /\ result text = [].
Proof. vm_compute. repeat split; reflexivity. Qed.

(** The claim C5 as the specification states it fails on a page whose
    payload decodes to an object without a catalog: the fallback runs. *)
Lemma primary_path_precedence_counterexample :
  ~ (forall (page : soup) (url : string) (now : Z) (data : json),
       Spec.structured_payload page data ->
       path_taken page url now <> Some FallbackPath).
Proof.
  intros Hclaim.
  apply (Hclaim page_without_catalog search_url 0 decoded_without_catalog).
  - exists ("window.App = " +:+ payload_without_catalog +:+ ";"),
           payload_without_catalog.
    split; [simpl; auto|]. split; [reflexivity|]. split; reflexivity.
  - reflexivity.
Qed.

(** The amended C5 on a page whose payload has a catalog. *)
Lemma primary_path_precedence_witness :
  path_taken page_two_items search_url 0 <> Some FallbackPath.
Proof.
  apply (proj1 (primary_path_precedence page_two_items search_url 0)
           [("catalog", JDict [("items", JList [
               JDict [("id", JInt 1); ("title", JStr "Shirt")];
               JDict [("id", JInt 2); ("title", JStr "Coat");
                      ("created_at_ts", JStr "2030-01-01T00:00:00Z")]])])]);
    reflexivity.
Defined.

(** C1 at a failing input.  The checkpoint is a naive datetime thirty seconds
    before the scan.  The page lists two items: the first has no creation
    time, so parse_datetime stamps it with [utcnow()], later than the
    checkpoint; the second has an ISO creation time with a UTC designator,
    which fromisoformat turns into an aware datetime.  Comparing the second
    with the checkpoint raises, and the scan returns the empty list: the
    first listing, published strictly after the checkpoint, is lost. *)
Lemma get_new_listings_mixed_timestamps :
  let checkpoint := Naive 1899999970000000 in
  let s := get_new_listings new_scraper 1900000000000000 (answers page_two_items)
                            search_url (Some checkpoint) in
  In (shirt (finished_at s)) (parse_vinted_listings page_two_items search_url (finished_at s))
  /\ dt_gt (published_at (shirt (finished_at s))) checkpoint = Some true
  /\ result s = [].
Proof. vm_compute. auto. Qed.

(** C4 at a failing input.  Three scans of the same url run back to back on
    a fresh scraper, each answer taking one second.  The second request
    waits until two seconds after the first, but the limiter stores the
    time of the call (one second), not the time of the request (two
    seconds); the third call, three seconds in, finds two seconds elapsed
    and issues its request at once, one second after the second request. *)
Lemma back_to_back_requests :
  let scans := [(search_url, answers page_markup_only);
                (search_url, answers page_markup_only);
                (search_url, answers page_markup_only)] in
  back_to_back new_scraper 0 scans
    = [("www.vinted.fr", 0); ("www.vinted.fr", 2000000); ("www.vinted.fr", 3000000)]
  /\ ~ Spec.spaced (min_delay new_scraper * 1000000) (back_to_back new_scraper 0 scans).
Proof.
  assert (Hlog : back_to_back new_scraper 0
                   [(search_url, answers page_markup_only);
                    (search_url, answers page_markup_only);
                    (search_url, answers page_markup_only)]
                 = [("www.vinted.fr", 0); ("www.vinted.fr", 2000000);
                    ("www.vinted.fr", 3000000)])
    by (vm_compute; reflexivity).
  split; [exact Hlog|]. cbv zeta. rewrite Hlog. intros Hspaced.
  specialize (Hspaced 1%nat "www.vinted.fr" 2000000 3000000 eq_refl eq_refl).
  simpl in Hspaced. lia.
Qed.

End ScanExamples.

(** ** The proxy pool (proxy_manager.py) *)

(** *** Sorting *)

Section SortedBy.
Context {A : Type} (goes_before : A -> A -> bool) (R : A -> A -> Prop).
Hypothesis R_trans : forall x y z, R x y -> R y z -> R x z.
Hypothesis before_R : forall x y, goes_before x y = true -> R x y.
Hypothesis not_before_R : forall x y, goes_before x y = false -> R y x.

Lemma insert_by_perm (x : A) (l : list A) :
  Permutation (x :: l) (insert_by goes_before x l).
Proof using Type.
  induction l as [|y l IH]; simpl; [reflexivity|].
  destruct (goes_before x y); [reflexivity|].
  rewrite perm_swap. now apply perm_skip.
Qed.

Lemma sorted_by_perm (l : list A) : Permutation l (sorted_by goes_before l).
Proof using Type.
  induction l as [|x l IH]; simpl; [reflexivity|].
  rewrite <- insert_by_perm. now apply perm_skip.
Qed.

Lemma insert_by_sorted (x : A) (l : list A) :
  StronglySorted R l -> StronglySorted R (insert_by goes_before x l).
Proof using R_trans before_R not_before_R.
  induction 1 as [|y l Hsorted IH Hall]; simpl.
  - repeat constructor.
  - destruct (goes_before x y) eqn:Hxy.
    + constructor; [now constructor|].
      constructor; [now apply before_R|].
      eapply Forall_impl; [exact Hall|]. intros z. apply R_trans. now apply before_R.
    + constructor; [exact IH|].
      rewrite <- insert_by_perm. constructor; [now apply not_before_R | exact Hall].
Qed.

Lemma sorted_by_sorted (l : list A) : StronglySorted R (sorted_by goes_before l).
Proof using R_trans before_R not_before_R.
  induction l as [|x l IH]; simpl; [constructor | now apply insert_by_sorted].
Qed.

End SortedBy.

(** *** Scoring *)

Lemma Qeqb_eq (x y : Q) : Qeqb x y = true <-> (x == y)%Q.
Proof. apply Qeq_bool_iff. Qed.

Lemma py_max_Qmax (a b : Q) : (py_max a b == Qmax a b)%Q.
Proof.
  unfold py_max. destruct (Qltb a b) eqn:Hlt.
  - apply Qltb_lt in Hlt. symmetry. apply Q.max_r. now apply Qlt_le_weak.
  - symmetry. apply Q.max_l. unfold Qltb in Hlt.
    apply negb_false_iff in Hlt. now apply Qle_bool_iff.
Qed.

(** The key the sort uses is the score of the specification, and it is
    defined unless the response time is minus one second. *)
Lemma proxy_score_spec (p : proxy_info) :
  (forall t, response_time p = Some t -> ~ (1 + t == 0)%Q) ->
  exists s, proxy_score p = Some s /\ (s == Spec.score p)%Q.
Proof.
  intros Hrt. unfold proxy_score, Spec.score, Spec.success_rate,
    Spec.response_time_factor, float_truthy, py_div.
  destruct (response_time p) as [t|]; [|eexists; split; reflexivity].
  destruct (Qeqb t 0) eqn:Ht0; simpl.
  - eexists. split; [reflexivity|]. apply Qeqb_eq in Ht0.
    apply Qmult_comp; [reflexivity|]. symmetry.
    assert (Hone : (1 / (1 + t) == 1)%Q) by (rewrite Ht0; reflexivity).
    rewrite Q.max_r; [exact Hone|]. rewrite Hone. discriminate.
  - destruct (Qeqb (1 + t) 0) eqn:Hzero.
    + apply Qeqb_eq in Hzero. now destruct (Hrt t eq_refl).
    + eexists. split; [reflexivity|]. apply Qmult_comp; [reflexivity|]. apply py_max_Qmax.
Qed.

Lemma keyed_spec (healthy : list proxy_info) :
  Forall (fun p => forall t, response_time p = Some t -> ~ (1 + t == 0)%Q) healthy ->
  exists ks, keyed healthy = Some ks
             /\ map snd ks = healthy
             /\ Forall (fun kp => (fst kp == Spec.score (snd kp))%Q) ks.
Proof.
  induction 1 as [|p rest Hp Hrest IH]; simpl.
  - exists []. repeat split; constructor.
  - destruct (proxy_score_spec p Hp) as (s & -> & Hs).
    destruct IH as (ks & -> & Hmap & Hall).
    exists ((s, p) :: ks). simpl. rewrite Hmap. repeat split. now constructor.
Qed.

(** The ranking: the healthy proxies, rearranged so that scores descend. *)
Lemma sorted_proxies_spec (healthy : list proxy_info) :
  Forall (fun p => forall t, response_time p = Some t -> ~ (1 + t == 0)%Q) healthy ->
  exists ranking,
    sorted_proxies healthy = Some ranking
    /\ Permutation healthy ranking
    /\ StronglySorted (fun p q => (Spec.score q <= Spec.score p)%Q) ranking.
Proof.
  intros Hrt. destruct (keyed_spec healthy Hrt) as (ks & Hks & Hmap & Hall).
  unfold sorted_proxies. rewrite Hks.
  set (sorted := sorted_by by_score_descending ks).
  assert (Hperm : Permutation ks sorted) by apply sorted_by_perm.
  exists (map snd sorted). split; [reflexivity|]. split.
  - rewrite <- Hmap. now apply Permutation_map.
  - assert (Hsorted : StronglySorted (fun a b : Q * proxy_info => (fst b <= fst a)%Q) sorted).
    { apply sorted_by_sorted.
      - intros x y z Hxy Hyz. now apply Qle_trans with (fst y).
      - intros x y Hxy. now apply Qle_bool_iff.
      - intros x y Hxy. unfold by_score_descending in Hxy.
        apply Qlt_le_weak, Qnot_le_lt. intros Hle.
        apply Qle_bool_iff in Hle. congruence. }
    assert (Hall' : Forall (fun kp => (fst kp == Spec.score (snd kp))%Q) sorted).
    { rewrite List.Forall_forall in *. intros kp Hin. apply Hall.
      apply Permutation_in with sorted; [now symmetry | exact Hin]. }
    clearbody sorted. clear Hperm.
    induction Hsorted as [|kp rest Hs IH Hhead]; simpl; constructor.
    + apply IH. now inversion Hall'.
    + inversion Hall' as [|? ? Hkp Hrest]; subst.
      rewrite List.Forall_forall in *. intros q Hq.
      apply in_map_iff in Hq. destruct Hq as (kq & <- & Hin).
      rewrite <- Hkp, <- (Hrest kq Hin). now apply Hhead.
Qed.

(** *** Selection *)

(** Evaluates the integer constants that stand under [inject_Z]. *)
Ltac constants :=
  repeat match goal with
  | |- context [inject_Z ?z] =>
      let z' := eval vm_compute in z in
      progress change (inject_Z z) with (z' # 1)%Q
  | H : context [inject_Z ?z] |- _ =>
      let z' := eval vm_compute in z in
      progress change (inject_Z z) with (z' # 1)%Q in H
  end.

(** Turns the outcome of a boolean comparison into the order it decides. *)
Ltac bool_to_prop H :=
  match type of H with
  | Qle_bool _ _ = true => apply Qle_bool_iff in H
  | Qle_bool ?x ?y = false =>
      assert (~ (x <= y)%Q) by (rewrite <- Qle_bool_iff; congruence); clear H
  end.

(** The draw among at most three candidates. *)
Lemma choices_drawn {A : Type} (top : list A) (u : Q) :
  (0 <= u)%Q -> (u < 1)%Q ->
  (1 <= List.length top <= 3)%nat ->
  let weights := firstn (List.length top) [3; 2; 1] in
  exists i x,
    Spec.drawn weights u i
    /\ choices top weights u = Some x
    /\ top !! i = Some x.
Proof.
  intros Hu0 Hu1 Hlen.
  destruct top as [|a [|b [|c [|d rest]]]]; simpl in Hlen; try lia; clear Hlen;
    unfold choices, accumulate, Spec.drawn;
    cbn -[Qle_bool Qmult Qle Qlt inject_Z]; constants.
  - exists O, a. constants. repeat split; first [lia | lra | reflexivity].
  - destruct (Qle_bool 3 (u * 5)) eqn:H3; bool_to_prop H3.
    + exists 1%nat, b. constants. repeat split; first [lia | lra | reflexivity].
    + exists O, a. constants. repeat split; first [lia | lra | reflexivity].
  - destruct (Qle_bool 3 (u * 6)) eqn:H3; bool_to_prop H3;
      [destruct (Qle_bool 5 (u * 6)) eqn:H5; bool_to_prop H5|].
    + exists 2%nat, c. constants. repeat split; first [lia | lra | reflexivity].
    + exists 1%nat, b. constants. repeat split; first [lia | lra | reflexivity].
    + exists O, a. constants. repeat split; first [lia | lra | reflexivity].
Qed.

Section Selection.
Import Examples.

(** C3.  On a non-empty list of healthy proxies none of which has a response
    time of minus one second, select_best_proxy ranks the proxies by the
    score successRate * responseTimeFactor in descending order (successRate
    is successes over attempts, or 1 without attempts; responseTimeFactor is
    max(0.1, 1/(1+seconds)), or 1 without a sample) and returns one of the
    first three of the ranking, drawn with weights 3, 2, 1 cut to the number
    of candidates.  For A(10, 0, 0.5s), B(5, 5, 1s), C(0, 0, none) the scores
    are 2/3, 1/4 and 1 and the ranking is C, A, B. *)
Theorem select_best_proxy_top_three :
  (forall (healthy : list proxy_info) (rnd : randomness),
      healthy <> [] ->
      Forall (fun p => forall t, response_time p = Some t -> ~ (1 + t == 0)%Q) healthy ->
      (0 <= random rnd)%Q -> (random rnd < 1)%Q ->
      exists (ranking : list proxy_info) (i : nat) (p : proxy_info),
        sorted_proxies healthy = Some ranking
        /\ Permutation healthy ranking
        /\ StronglySorted (fun p q => (Spec.score q <= Spec.score p)%Q) ranking
        /\ (forall q, In q healthy ->
              exists s, proxy_score q = Some s /\ (s == Spec.score q)%Q)
        /\ select_best_proxy healthy rnd = Some p
        /\ ranking !! i = Some p
        /\ (i < 3)%nat
        /\ Spec.drawn (firstn (Nat.min 3 (List.length healthy)) [3; 2; 1]) (random rnd) i)
  /\ (exists a b c,
        proxy_score proxy_A = Some a /\ (a == 2 # 3)%Q
        /\ (666 # 1000 < a)%Q /\ (a < 668 # 1000)%Q
        /\ proxy_score proxy_B = Some b /\ (b == 1 # 4)%Q
        /\ proxy_score proxy_C = Some c /\ (c == 1)%Q
        /\ sorted_proxies [proxy_A; proxy_B; proxy_C] = Some [proxy_C; proxy_A; proxy_B]).
Proof.
  split.
  - intros healthy rnd Hnonempty Hrt Hu0 Hu1.
    destruct (sorted_proxies_spec healthy Hrt) as (ranking & Hranking & Hperm & Hsorted).
    assert (Hlen : List.length ranking = List.length healthy)
      by (symmetry; now apply Permutation_length).
    set (top := firstn (Nat.min 3 (List.length ranking)) ranking).
    assert (Htop : List.length top = Nat.min 3 (List.length healthy)).
    { unfold top. rewrite length_firstn, Hlen. lia. }
    assert (Hpos : (1 <= List.length healthy)%nat).
    { destruct healthy; [congruence | simpl; lia]. }
    destruct (choices_drawn top (random rnd) Hu0 Hu1) as (i & p & Hdrawn & Hchoice & Hi);
      [lia|].
    exists ranking, i, p. split; [exact Hranking|]. split; [exact Hperm|].
    split; [exact Hsorted|]. split.
    { intros q Hq. apply proxy_score_spec. rewrite List.Forall_forall in Hrt. now apply Hrt. }
    split.
    { unfold select_best_proxy. destruct healthy as [|h rest]; [congruence|].
      rewrite Hranking. exact Hchoice. }
    split.
    { unfold top in Hi. rewrite lookup_take_Some in Hi. tauto. }
    rewrite Htop in Hdrawn. split; [|exact Hdrawn].
    destruct Hdrawn as [Hi3 _]. rewrite length_firstn in Hi3. simpl in Hi3. lia.
  - eexists _, _, _.
    split; [reflexivity|]. split; [reflexivity|]. split; [reflexivity|]. split; [reflexivity|].
    split; [reflexivity|]. split; [reflexivity|]. split; [reflexivity|].
    split; reflexivity.
Qed.

(** C3 at the scenario, with a draw of 0.7. *)
Lemma select_best_proxy_top_three_witness :
  exists p, select_best_proxy [proxy_A; proxy_B; proxy_C] (a_draw (7 # 10)) = Some p
            /\ In p [proxy_C; proxy_A; proxy_B].
Proof.
  destruct (proj1 select_best_proxy_top_three [proxy_A; proxy_B; proxy_C] (a_draw (7 # 10)))
    as (ranking & i & p & Hranking & _ & _ & _ & Hselect & Hi & _).
  - discriminate.
  - repeat constructor; intros t [= <-]; discriminate.
  - discriminate.
  - reflexivity.
  - exists p. split; [exact Hselect|].
    injection Hranking as <-. apply list_elem_of_In. eapply list_elem_of_lookup_2. exact Hi.
Defined.

End Selection.

(** *** Result reports *)

(** C6 (as amended).  Reporting a result for a tracked url rewrites the
    entry of that url.  On success the success counter grows by one and,
    when the report carries a sample other than zero, the rolling response
    time becomes (old + new) / 2 if the entry holds a sample other than zero
    and the new sample otherwise; a sample of zero, like no sample, leaves
    the stored value as it was.  On failure the failure counter grows by one
    and the entry is marked unhealthy at once when its failures then exceed
    its successes by more than 3. *)
Theorem report_proxy_result_updates (self : manager) (now : Z) (proxy_url : string)
    (success : bool) (sample : option Q) (info : proxy_info) :
  tracked self proxy_url = Some info ->
  exists info',
    tracked (report_proxy_result self now proxy_url success sample) proxy_url = Some info'
    /\ (success = true ->
          success_count info' = success_count info + 1
          /\ failure_count info' = failure_count info
          /\ response_time info' = Spec.rolling (response_time info) sample)
    /\ (success = false ->
          failure_count info' = failure_count info + 1
          /\ success_count info' = success_count info
          /\ response_time info' = response_time info
          /\ (failure_count info' > success_count info' + 3 -> is_healthy info' = false)
          /\ (failure_count info' <= success_count info' + 3 ->
                is_healthy info' = is_healthy info)).
Proof.
  unfold tracked, report_proxy_result. intros Htracked.
  destruct (proxy_health self !! proxy_url) as [address|] eqn:Haddress; [|discriminate].
  simpl in Htracked. rewrite Htracked. simpl. rewrite Haddress. simpl.
  rewrite list_lookup_insert_eq by (eapply lookup_lt_Some; exact Htracked).
  eexists. split; [reflexivity|]. split; intros ->; simpl.
  - repeat split. unfold Spec.rolling, Spec.sample, float_truthy, Qeqb.
    destruct sample as [new|]; [|reflexivity].
    destruct (Qeq_bool new 0); simpl; [reflexivity|].
    destruct (response_time info) as [old|]; [|reflexivity].
    destruct (Qeq_bool old 0); reflexivity.
  - repeat split.
    + intros Hgt. destruct (success_count info + 3 <? failure_count info + 1) eqn:Hlt;
        [reflexivity|]. apply Z.ltb_ge in Hlt. lia.
    + intros Hle. destruct (success_count info + 3 <? failure_count info + 1) eqn:Hlt;
        [|reflexivity]. apply Z.ltb_lt in Hlt. lia.
Qed.

(** A report for a url that is not tracked changes nothing. *)
Lemma report_proxy_result_untracked (self : manager) (now : Z) (proxy_url : string)
    (success : bool) (sample : option Q) :
  proxy_health self !! proxy_url = None ->
  report_proxy_result self now proxy_url success sample = self.
Proof. unfold report_proxy_result. now intros ->. Qed.

(** *** Adding proxies *)

Lemma is_valid_proxy_url_prefixes (proxy_url : string) :
  is_valid_proxy_url proxy_url = true <->
  startswith proxy_url "http://" = true \/ startswith proxy_url "https://" = true
  \/ startswith proxy_url "socks4://" = true \/ startswith proxy_url "socks5://" = true.
Proof.
  unfold is_valid_proxy_url, valid_prefixes. simpl.
  rewrite !orb_true_iff. intuition discriminate.
Qed.

(** A url without a recognized prefix is rejected and the pool is as before;
    a url with one is always appended, tracked already or not. *)
Lemma add_proxy_validates (self : manager) (proxy_url kind : string) :
  (is_valid_proxy_url proxy_url = false -> add_proxy self proxy_url kind = (false, self))
  /\ (is_valid_proxy_url proxy_url = true ->
        fst (add_proxy self proxy_url kind) = true
        /\ proxies (snd (add_proxy self proxy_url kind))
           = proxies self ++ [List.length (heap self)]).
Proof.
  unfold add_proxy. split; intros ->; simpl; auto.
Qed.

Section ProxyExamples.
Import Examples.

(** The amended C6 at a first sample of one and a half seconds. *)
Lemma report_proxy_result_updates_witness :
  exists info',
    tracked (report_proxy_result added_once 7 proxy_url true (Some (3 # 2)%Q)) proxy_url
      = Some info'
    /\ success_count info' = 1
    /\ response_time info' = Some (3 # 2)%Q.
Proof.
  destruct (report_proxy_result_updates added_once 7 proxy_url true (Some (3 # 2)%Q)
              {| url := proxy_url; proxy_type := "http"; success_count := 0;
                 failure_count := 0; last_used := None; last_success := None;
                 is_healthy := true; response_time := None |} eq_refl)
    as (info' & Htracked & Hsuccess & _).
  exists info'. destruct (Hsuccess eq_refl) as (Hs & _ & Hr).
  split; [exact Htracked|]. split; [exact Hs | exact Hr].
Defined.

(** The claim C6 as the specification states it fails for a sample of zero:
    the entry holds one second, a success reports zero seconds, and the
    entry still holds one second, not the mean of the two. *)
Lemma report_proxy_result_updates_counterexample :
  ~ (forall (self : manager) (now : Z) (proxy_url : string) (new old : Q) (info : proxy_info),
       tracked self proxy_url = Some info ->
       response_time info = Some old ->
       exists info' r,
         tracked (report_proxy_result self now proxy_url true (Some new)) proxy_url = Some info'
         /\ response_time info' = Some r
         /\ (r == (old + new) / 2)%Q).
Proof.
  intros Hclaim.
  destruct (Hclaim measured 9 proxy_url 0%Q 1%Q measured_info eq_refl eq_refl)
    as (info' & r & Htracked & Hr & Hmean).
  vm_compute in Htracked. injection Htracked as <-.
  simpl in Hr. injection Hr as <-. discriminate Hmean.
Qed.

(** C7 at a failing input.  The same valid url is added twice: the second
    call returns True, the list of proxies has two entries, and the index by
    url points at the second. *)
Lemma add_proxy_duplicate :
  fst (add_proxy added_once proxy_url "http") = true
  /\ proxies added_once = [0%nat]
  /\ proxies added_twice = [0%nat; 1%nat]
  /\ List.length (pool added_twice) = 2%nat
  /\ proxy_health added_twice !! proxy_url = Some 1%nat
  /\ added_twice <> added_once.
Proof.
  repeat split; try reflexivity.
  intros Heq. apply (f_equal proxies) in Heq. discriminate Heq.
Qed.

End ProxyExamples.

(** ** The scheduler (bot.py, monitor_vinted; database.py) *)

Lemma row_later_refl (r : search_row) : Spec.row_later r r.
Proof. split; [reflexivity | lia]. Qed.

Lemma table_later_refl (rows : list search_row) : Spec.table_later rows rows.
Proof.
  exists rows, []. split; [now rewrite app_nil_r|].
  induction rows; constructor; auto using row_later_refl.
Qed.

Lemma table_later_trans (r1 r2 r3 : list search_row) :
  Spec.table_later r1 r2 -> Spec.table_later r2 r3 -> Spec.table_later r1 r3.
Proof.
  intros (k1 & a1 & -> & H1) (k2 & a2 & -> & H2).
  apply Forall2_app_inv_l in H2. destruct H2 as (k2' & a2' & Hk & Ha & ->).
  exists k2', (a2' ++ a2). split; [now rewrite app_assoc|].
  clear Ha. revert k2' Hk. induction H1 as [|x y l l' Hxy Hl IH]; intros k2' Hk.
  - inversion Hk. constructor.
  - inversion Hk as [|? z ? l'' Hyz Hl'']; subst. constructor; [|now apply IH].
    destruct Hxy, Hyz. split; [congruence | lia].
Qed.

Lemma table_later_map (f : search_row -> search_row) (rows : list search_row) :
  (forall r, In r rows -> Spec.row_later r (f r)) -> Spec.table_later rows (map f rows).
Proof.
  intros Hf. exists (map f rows), []. split; [now rewrite app_nil_r|].
  induction rows as [|r rows IH]; simpl; constructor.
  - apply Hf. simpl. auto.
  - apply IH. intros r' Hin. apply Hf. simpl. auto.
Qed.

Lemma advances_trans (s1 s2 s3 : state) :
  Spec.advances s1 s2 -> Spec.advances s2 s3 -> Spec.advances s1 s3.
Proof.
  intros (Hc1 & _ & Ht1) (Hc2 & Htimely & Ht2).
  split; [lia|]. split; [exact Htimely|].
  now apply table_later_trans with (search_urls (database s2)).
Qed.

(** update_search_last_check writes the reading of the clock it is given,
    into the rows of the given id and no other. *)
Lemma update_search_last_check_rows (now id : Z) (d : db) (r' : search_row) :
  In r' (search_urls (update_search_last_check true now id d)) ->
  exists r, In r (search_urls d)
            /\ search_id r' = search_id r
            /\ (search_id r = id -> last_check r' = now)
            /\ (search_id r <> id -> r' = r).
Proof.
  simpl. rewrite in_map_iff. intros (r & <- & Hin). exists r. split; [exact Hin|].
  destruct (search_id r =? id) eqn:Hid.
  - apply Z.eqb_eq in Hid. repeat split; auto. congruence.
  - apply Z.eqb_neq in Hid. repeat split; auto. congruence.
Qed.

Lemma update_advances (io_ok : bool) (now id : Z) (s : state) :
  Spec.timely s -> clock s <= now ->
  Spec.advances s {| clock := now;
                database := update_search_last_check io_ok now id (database s) |}.
Proof.
  intros Htimely Hnow. destruct io_ok; simpl.
  - split; [exact Hnow|]. split.
    + intros r' Hin. simpl in Hin. apply in_map_iff in Hin. destruct Hin as (r & <- & Hin).
      destruct (search_id r =? id); simpl; [lia|]. apply Htimely in Hin. lia.
    + simpl. apply table_later_map. intros r Hin.
      destruct (search_id r =? id); [|apply row_later_refl].
      split; [reflexivity|]. simpl. apply Htimely in Hin. lia.
  - split; [exact Hnow|]. split; [|apply table_later_refl].
    intros r Hin. apply Htimely in Hin. simpl in *. lia.
Qed.

Lemma monitor_loop_advances (world : tick_world) (searches : list search_row) (s : state) :
  Spec.timely s -> Spec.advances s (monitor_loop world searches s).
Proof.
  revert s. induction searches as [|search rest IH]; intros s Htimely; simpl.
  - split; [lia|]. split; [exact Htimely | apply table_later_refl].
  - set (now := clock s + Z.of_N (duration world search)).
    assert (Hnow : clock s <= now) by (unfold now; lia).
    assert (Hstep : Spec.advances s
              {| clock := now;
                 database := match outcome world search with
                             | Completed io_ok =>
                                 update_search_last_check io_ok now (search_id search)
                                   (database s)
                             | _ => database s
                             end |}).
    { destruct (outcome world search) as [| |io_ok].
      - apply (update_advances false now 0 s Htimely Hnow).
      - apply (update_advances false now 0 s Htimely Hnow).
      - now apply update_advances. }
    eapply advances_trans; [exact Hstep|]. apply IH. apply Hstep.
Qed.

Lemma perform_advances (op : operation) (s : state) :
  Spec.timely s -> Spec.advances s (perform op s).
Proof.
  intros Htimely. destruct op as [channel url domain location by_user | id channel
                                 | channel kind value | world]; simpl.
  - split; [simpl; lia|]. split.
    + intros r Hin. simpl in Hin. apply in_app_iff in Hin.
      destruct Hin as [Hin | [<- | []]]; [now apply Htimely | simpl; lia].
    + simpl. eexists _, _. split; [reflexivity|].
      destruct (table_later_refl (search_urls (database s))) as (k & a & Heq & Hk).
      clear Heq a k Hk. induction (search_urls (database s)); constructor;
        auto using row_later_refl.
  - split; [simpl; lia|]. split.
    + intros r' Hin. simpl in Hin. apply in_map_iff in Hin. destruct Hin as (r & <- & Hin).
      apply Htimely in Hin.
      destruct ((search_id r =? id) && (channel_id r =? channel)); simpl; lia.
    + simpl. apply table_later_map. intros r _.
      destruct ((search_id r =? id) && (channel_id r =? channel));
        [split; reflexivity || (simpl; lia) | apply row_later_refl].
  - split; [simpl; lia|]. split; [exact Htimely | apply table_later_refl].
  - unfold monitor_vinted. now apply monitor_loop_advances.
Qed.

Lemma run_advances (history : list (N * operation)) (s : state) :
  Spec.timely s -> Spec.advances s (run history s).
Proof.
  revert s. induction history as [|[elapsed op] rest IH]; intros s Htimely; simpl.
  - split; [lia|]. split; [exact Htimely | apply table_later_refl].
  - set (s1 := {| clock := clock s + Z.of_N elapsed; database := database s |}).
    assert (Htimely1 : Spec.timely s1).
    { intros r Hin. apply Htimely in Hin. simpl. lia. }
    assert (H01 : Spec.advances s s1).
    { split; [simpl; lia|]. split; [exact Htimely1 | apply table_later_refl]. }
    pose proof (perform_advances op s1 Htimely1) as H12.
    eapply advances_trans; [exact H01|]. eapply advances_trans; [exact H12|].
    apply IH. apply H12.
Qed.

(** Every state reached from an empty store satisfies the premise. *)
Lemma run_from_empty_timely (history : list (N * operation)) (t0 : Z) :
  Spec.timely (run history {| clock := t0; database := empty_db |}).
Proof.
  apply run_advances. intros r [].
Qed.

Lemma find_later (id : Z) (rows rows' : list search_row) (r : search_row) :
  Spec.table_later rows rows' ->
  find (fun r => search_id r =? id) rows = Some r ->
  exists r', find (fun r => search_id r =? id) rows' = Some r' /\ Spec.row_later r r'.
Proof.
  intros (kept & added & -> & Hkept). revert r.
  induction Hkept as [|x y l l' [Hid Hle] Hl IH]; intros r; simpl; [discriminate|].
  rewrite Hid. destruct (search_id x =? id).
  - intros [= <-]. exists y. split; [reflexivity | now split].
  - apply IH.
Qed.

(** C8.  Every checkpoint write stores the reading of the clock at the time
    of the write.  Along any history of commands and ticks that starts in a
    state where no checkpoint lies in the future, whatever the outcome of
    each search in each tick (its channel gone, an exception escaping its
    processing, the update itself failing, or success), the checkpoint of
    every subscription stays or grows: it never moves backward. *)
Theorem checkpoint_never_moves_backward :
  (forall (now id : Z) (d : db) (r : search_row),
      In r (search_urls (update_search_last_check true now id d)) ->
      search_id r = id -> last_check r = now)
  /\ (forall (s : state) (history : list (N * operation)) (id t : Z),
        Spec.timely s ->
        checkpoint id s = Some t ->
        exists t', checkpoint id (run history s) = Some t' /\ t <= t').
Proof.
  split.
  - intros now id d r' Hin Hid.
    destruct (update_search_last_check_rows now id d r' Hin) as (r & _ & Hsame & Hset & _).
    apply Hset. congruence.
  - intros s history id t Htimely Hcp.
    destruct (run_advances history s Htimely) as (_ & _ & Hlater).
    unfold checkpoint in *.
    destruct (find (fun r => search_id r =? id) (search_urls (database s))) as [r|] eqn:Hfind;
      [|discriminate].
    simpl in Hcp. injection Hcp as <-.
    destruct (find_later id _ _ r Hlater Hfind) as (r' & -> & _ & Hle).
    exists (last_check r'). split; [reflexivity | exact Hle].
Qed.

Section BotExamples.
Import Examples.

(** C8 on three subscriptions and two ticks in which two of the three
    searches fail. *)
Lemma checkpoint_never_moves_backward_witness :
  checkpoint 1 registered = Some 1000
  /\ exists t', checkpoint 1 (run two_ticks registered) = Some t' /\ 1000 <= t'.
Proof.
  split; [reflexivity|].
  apply (proj2 checkpoint_never_moves_backward registered two_ticks 1 1000).
  - intros r Hin. vm_compute in Hin.
    destruct Hin as [<- | [<- | [<- | []]]]; vm_compute; discriminate.
  - reflexivity.
Defined.

(** The two ticks at work: search 1 is checked twice, searches 2 and 3 keep
    the checkpoint of their registration. *)
Example checkpoints_after_two_ticks :
  checkpoint 1 (run two_ticks registered) = Some 1088
  /\ checkpoint 2 (run two_ticks registered) = Some 1005
  /\ checkpoint 3 (run two_ticks registered) = Some 1010.
Proof. vm_compute. auto. Qed.

End BotExamples.

(* ===================================================================== *)
(** * Further properties of the code                                       *)
(* ===================================================================== *)

(** ** More on the scan (vinted_scraper.py) *)

Section ScanCoverage.
Context `{Lib}.

(** X1.  Whatever the page, the exchange and the state of the limiter, a
    scan with a checkpoint returns only listings that the parse of the
    answered page produced and whose published_at is strictly later than the
    checkpoint: nothing older, nothing that cannot be ordered against it,
    and nothing at all unless the answer had status 200. *)
Theorem get_new_listings_only_newer (self : scraper) (now : Z) (world : exchange)
    (url : string) (last_check : datetime) (l : listing) :
  let s := get_new_listings self now world url (Some last_check) in
  In l (result s) ->
  dt_gt (published_at l) last_check = Some true
  /\ exists page,
       answer world = Response 200 page
       /\ In l (parse_vinted_listings page url (finished_at s)).
Proof.
  intros s. unfold s, get_new_listings.
  destruct (apply_rate_limit self now (extract_domain url)) as [delay self']. simpl.
  destruct (answer world) as [|status page]; [intros []|].
  destruct (status =? 200) eqn:Hstatus; simpl; [|intros []].
  apply Z.eqb_eq in Hstatus. subst status.
  set (parsed := parse_vinted_listings page url _).
  destruct (newer_than parsed last_check) as [kept|] eqn:Hkept; [|intros []].
  rewrite (newer_than_filter _ _ _ Hkept), filter_In, bool_decide_eq_true.
  intros [Hin Hgt]. split; [exact Hgt|]. exists page. split; [reflexivity | exact Hin].
Qed.

(** X2.  The wait of the limiter, when the clock has not gone back since the
    last call for the host and min_delay is not negative: never negative,
    never longer than min_delay, exactly what is missing to min_delay since
    that call, hence zero once min_delay has passed; and zero for a host
    that has not been requested yet. *)
Theorem apply_rate_limit_wait_bounds (self : scraper) (now : Z) (host : string) :
  0 <= min_delay self ->
  (forall last, last_requests self !! host = Some last -> last <= now) ->
  let wait := fst (apply_rate_limit self now host) in
  0 <= wait <= min_delay self * 1000000
  /\ (last_requests self !! host = None -> wait = 0)
  /\ (forall last, last_requests self !! host = Some last ->
        wait = Z.max 0 (last + min_delay self * 1000000 - now)).
Proof.
  intros Hdelay Hclock. unfold apply_rate_limit. simpl.
  destruct (last_requests self !! host) as [last|] eqn:Hlast.
  - specialize (Hclock last eq_refl).
    destruct (now - last <? min_delay self * 1000000) eqn:Hlt.
    + apply Z.ltb_lt in Hlt.
      repeat split; try lia; try discriminate. intros ? [= <-]; lia.
    + apply Z.ltb_ge in Hlt.
      repeat split; try lia; try discriminate. intros ? [= <-]; lia.
  - repeat split; try lia; discriminate.
Qed.

(** X3.  The markup scan looks at the first twenty candidates only and
    keeps their order: it returns at most twenty listings, each built from
    one of those candidates and each with a non-empty id and a non-empty
    title, and candidates after the twentieth change nothing. *)
Theorem parse_html_listings_first_twenty (page : soup) (url : string) (now : Z) :
  (List.length (parse_html_listings page url now) <= 20)%nat
  /\ (forall l, In l (parse_html_listings page url now) ->
        id l <> EmptyString
        /\ exists c, In c (firstn 20 (item_containers page))
                     /\ l = html_listing c now
                     /\ extracted_title c <> EmptyString)
  /\ (forall more,
        (20 <= List.length (item_containers page))%nat ->
        parse_html_listings
          {| script_tags := script_tags page;
             item_containers := item_containers page ++ more |} url now
        = parse_html_listings page url now).
Proof.
  unfold parse_html_listings. split; [|split].
  - etransitivity; [apply filter_length_le|].
    rewrite length_map, length_firstn. lia.
  - intros l. rewrite filter_In, in_map_iff.
    intros [(c & <- & Hin) Hkeep]. apply andb_true_iff in Hkeep. destruct Hkeep as [Hid Htitle].
    simpl in *. split; [now destruct (extracted_id c)|].
    exists c. repeat split; [exact Hin|]. now destruct (extracted_title c).
  - intros more Hlen. simpl. now rewrite take_app_le by exact Hlen.
Qed.

End ScanCoverage.

Section ParseCoverage.
Context `{Lib}.

Lemma contains_char (a : ascii) (s : string) :
  contains (String a EmptyString) s = existsb (Ascii.eqb a) (list_ascii_of_string s).
Proof.
  induction s as [|c rest IH]; simpl; [reflexivity|].
  rewrite IH. destruct (Ascii.eqb a c) eqn:Hac.
  - apply Ascii.eqb_eq in Hac. subst c.
    destruct (ascii_dec a a) as [_|Hne]; [|contradiction].
    now destruct rest.
  - destruct (ascii_dec a c) as [->|_]; [|reflexivity].
    now rewrite Ascii.eqb_refl in Hac.
Qed.

Lemma list_ascii_of_string_app (s1 s2 : string) :
  list_ascii_of_string (s1 +:+ s2) = list_ascii_of_string s1 ++ list_ascii_of_string s2.
Proof. induction s1 as [|c rest IH]; simpl; [reflexivity | now rewrite IH]. Qed.

Lemma lower_char_underscore (c : ascii) :
  Ascii.eqb "_" c = false -> Ascii.eqb "_" (lower_char c) = false.
Proof. destruct c as [[] [] [] [] [] [] [] []]; vm_compute; congruence. Qed.

Lemma upper_char_underscore (c : ascii) :
  Ascii.eqb "_" c = false -> Ascii.eqb "_" (upper_char c) = false.
Proof. destruct c as [[] [] [] [] [] [] [] []]; vm_compute; congruence. Qed.

Lemma title_from_underscore (s : string) (cased : bool) :
  existsb (Ascii.eqb "_") (list_ascii_of_string s) = false ->
  existsb (Ascii.eqb "_") (list_ascii_of_string (title_from cased s)) = false.
Proof.
  revert cased. induction s as [|c rest IH]; intros cased; simpl; [reflexivity|].
  intros Hno. apply orb_false_iff in Hno. destruct Hno as [Hc Hrest].
  apply orb_false_iff. split; [|now apply IH].
  destruct cased; [now apply lower_char_underscore | now apply upper_char_underscore].
Qed.

Lemma replace_char_underscore (s : string) :
  existsb (Ascii.eqb "_") (list_ascii_of_string (replace_char "_" " " s)) = false.
Proof.
  induction s as [|c rest IH]; simpl; [reflexivity|].
  destruct (Ascii.eqb c "_") eqn:Hc.
  - exact IH.
  - change (Ascii.eqb "_" c || existsb (Ascii.eqb "_")
              (list_ascii_of_string (replace_char "_" " " rest)) = false).
    rewrite IH, Ascii.eqb_sym, Hc. reflexivity.
Qed.

Lemma table_get_cases (t : list (string * string)) (key default : string) :
  table_get t key default = default \/ In (table_get t key default) (map snd t).
Proof.
  induction t as [|[k v] rest IH]; simpl; [now left|].
  destruct (String.eqb k key); [right; now left|].
  destruct IH as [IH | IH]; [now left | right; now right].
Qed.

(** X4.  get_condition_text raises exactly on a status that is not a string;
    on a string it returns a text without any underscore, be it one of the
    five texts of the table or the title-cased status. *)
Theorem get_condition_text_no_underscore (status : json) :
  (get_condition_text status = None <-> forall s, status <> JStr s)
  /\ (forall text, get_condition_text status = Some text -> contains "_" text = false).
Proof.
  unfold get_condition_text. split.
  - destruct status; simpl; split; try discriminate; try congruence.
    intros Hno. now destruct (Hno s).
  - intros text. destruct status as [| | | |s| |]; try discriminate.
    change (Some (table_get conditions s (title_case (replace_char "_" " " s))) = Some text
            -> contains "_" text = false).
    intros Htext. apply (inj Some) in Htext. subst text. rewrite contains_char.
    pose proof (table_get_cases conditions s (title_case (replace_char "_" " " s))) as Hcases.
    remember (table_get conditions s (title_case (replace_char "_" " " s))) as text eqn:Htext.
    clear Htext. destruct Hcases as [-> | Hin].
    + apply title_from_underscore, replace_char_underscore.
    + simpl in Hin.
      destruct Hin as [<- | [<- | [<- | [<- | [<- | []]]]]]; reflexivity.
Qed.

(** X5.  When the first payload that decodes has a catalog key but no
    usable list of items (the catalog is not an object, or its items are
    missing, empty or not iterable), the parse returns no listing at all:
    the primary path was chosen, and the candidates of the markup are not
    consulted. *)
Theorem catalog_without_items_yields_nothing (page : soup) (url : string) (now : Z)
    (d : list (string * json)) :
  find_vinted_data (script_tags page) = Some (Some (JDict d)) ->
  dict_has d "catalog" = true ->
  (forall c, dict_get d "catalog" (JDict []) = JDict c ->
             iterate (dict_get c "items" (JList [])) = Some []
             \/ iterate (dict_get c "items" (JList [])) = None) ->
  parse_vinted_listings page url now = []
  /\ path_taken page url now <> Some FallbackPath.
Proof.
  intros Hfind Hcatalog Hitems.
  assert (Hhas : has_catalog (Some (JDict d)) = Some true).
  { simpl. destruct d; [discriminate|]. simpl in *. now rewrite Hcatalog. }
  split.
  - unfold parse_vinted_listings, parse_body. rewrite Hfind, Hhas. simpl.
    destruct (dict_get d "catalog" (JDict [])) as [| | | | | |c] eqn:Hc; simpl; try reflexivity.
    destruct (Hitems c eq_refl) as [-> | ->]; reflexivity.
  - rewrite path_taken_fallback. intros (v & Hv & Hfalse).
    rewrite Hfind in Hv. injection Hv as <-. congruence.
Qed.

Lemma parse_item_data_published_at (item : json) (url : string) (now : Z) (l : listing) :
  parse_item_data item url now = Some l ->
  exists d, item = JDict d
            /\ published_at l = parse_datetime (dict_get d "created_at_ts" JNull) now.
Proof.
  unfold parse_item_data. destruct item as [| | | | | |d]; simpl; try discriminate.
  intros Hl. exists d. split; [reflexivity|].
  destruct (as_dict (dict_get d "price" (JDict []))) as [p|]; [|discriminate].
  destruct (float_of (dict_get p "amount" (JInt 0))); [|discriminate].
  destruct (get_condition_text (dict_get d "status" (JStr EmptyString))); [|discriminate].
  destruct (as_dict (dict_get d "user" (JDict []))); [|discriminate].
  destruct (first_photos (dict_get d "photos" (JList []))) as [photos|]; [|discriminate].
  destruct (collect_images photos); [|discriminate].
  now injection Hl as <-.
Qed.

Lemma parse_datetime_naive (timestamp : json) (now : Z) :
  (forall s, timestamp <> JStr s) -> exists us, parse_datetime timestamp now = Naive us.
Proof.
  intros Hno. unfold parse_datetime, utcnow.
  destruct timestamp as [| b | z | q | s | |]; try (eexists; reflexivity).
  - destruct (fromtimestamp (if b then 1%Q else 0%Q)); eexists; reflexivity.
  - destruct (fromtimestamp (inject_Z z)); eexists; reflexivity.
  - destruct (fromtimestamp q); eexists; reflexivity.
  - now destruct (Hno s).
Qed.

(** X6.  Only a text timestamp can make a scan raise in its comparison.
    When no item of the catalog carries its created_at_ts as a string
    (numbers, or no timestamp at all), every listing of the page has a
    naive published_at, on either parse path; a scan with a naive
    checkpoint then returns exactly the listings published strictly after
    the checkpoint. *)
Theorem numeric_timestamps_are_comparable (self : scraper) (now : Z) (world : exchange)
    (url : string) (page : soup) (t : Z) :
  answer world = Response 200 page ->
  (forall data c items item s,
      find_vinted_data (script_tags page) = Some (Some (JDict data)) ->
      dict_get data "catalog" (JDict []) = JDict c ->
      iterate (dict_get c "items" (JList [])) = Some items ->
      In (JDict item) items ->
      dict_get item "created_at_ts" JNull <> JStr s) ->
  let s := get_new_listings self now world url (Some (Naive t)) in
  let parsed := parse_vinted_listings page url (finished_at s) in
  (forall l, In l parsed -> exists us, published_at l = Naive us)
  /\ result s
     = List.filter (fun l => bool_decide (dt_gt (published_at l) (Naive t) = Some true)) parsed.
Proof.
  intros Hanswer Hnumeric s parsed.
  assert (Hnaive : forall l, In l parsed -> exists us, published_at l = Naive us).
  { intros l. unfold parsed, parse_vinted_listings, parse_body.
    destruct (find_vinted_data (script_tags page)) as [vinted_data|] eqn:Hfind; [|intros []].
    destruct (has_catalog vinted_data) as [[|]|]; [| |intros []].
    - destruct vinted_data as [v|]; [|intros []].
      simpl. destruct v as [| | | | | |data]; simpl; try (intros []).
      destruct (dict_get data "catalog" (JDict [])) as [| | | | | |c] eqn:Hc; simpl;
        try (intros []).
      destruct (iterate (dict_get c "items" (JList []))) as [items|] eqn:Hitems; [|intros []].
      intros Hin. apply list_elem_of_In, list_elem_of_omap in Hin.
      destruct Hin as (item & Hitem & Hl). apply list_elem_of_In in Hitem.
      destruct (parse_item_data_published_at _ _ _ _ Hl) as (d & -> & ->).
      apply parse_datetime_naive. intros str.
      exact (Hnumeric data c items d str eq_refl Hc Hitems Hitem).
    - intros Hin. exists (finished_at s).
      exact (parse_html_listings_published_at _ _ _ _ Hin). }
  split; [exact Hnaive|].
  unfold s at 1. rewrite (get_new_listings_200 _ _ _ _ _ _ Hanswer). fold s. fold parsed.
  destruct (newer_than parsed (Naive t)) as [kept|] eqn:Hkept.
  - now apply newer_than_filter.
  - apply newer_than_raises in Hkept. destruct Hkept as (l & Hin & Hl).
    destruct (Hnaive l Hin) as (us & Hus). rewrite Hus in Hl. discriminate.
Qed.

End ParseCoverage.

(** ** The helpers of the markup scan (vinted_scraper.py) *)

Section MarkupCoverage.
Context `{Lib}.

Lemma omap_cons {A B : Type} (f : A -> option B) (x : A) (l : list A) :
  omap f (x :: l) = match f x with Some y => y :: omap f l | None => omap f l end.
Proof. reflexivity. Qed.

Lemma re_search_item_id_nonempty (href group1 : string) :
  re_search_item_id href = Some group1 -> group1 <> EmptyString.
Proof.
  induction href as [|c rest IH]; simpl.
  - unfold match_item_id. simpl. discriminate.
  - destruct (match_item_id (String c rest)) as [g|] eqn:Hmatch; [|exact IH].
    intros [= <-]. unfold match_item_id in Hmatch.
    destruct (drop_prefix "/items/" (String c rest)) as [after|]; [|discriminate].
    destruct (fst (digits after)); [discriminate|]. now injection Hmatch as <-.
Qed.

Lemma first_attribute_nonempty (c : element) (names : list string) (value : string) :
  first_attribute c names = Some value -> value <> EmptyString.
Proof.
  induction names as [|name rest IH]; simpl; [discriminate|].
  destruct (attribute c name) as [v|]; [|exact IH].
  destruct (str_truthy v) eqn:Hv; [|exact IH].
  intros [= <-]. now destruct v.
Qed.

Lemma extract_id_from_html_nonempty (c : element) (randint : Z) :
  extract_id_from_html c randint <> EmptyString.
Proof.
  unfold extract_id_from_html.
  destruct (first_attribute c ["data-id"; "data-item-id"; "id"]) as [v|] eqn:Hattr.
  - exact (first_attribute_nonempty _ _ _ Hattr).
  - destruct (first_link c) as [href|]; [|discriminate].
    destruct (re_search_item_id href) as [g|] eqn:Hre; [|discriminate].
    exact (re_search_item_id_nonempty _ _ Hre).
Qed.

(** The loop over the elements is the loop of [parse_html_listings] over
    what the helpers read from them, when no price raises. *)
Lemma parse_html_elements_containers (candidates : list (element * Z))
    (containers : list container) (scripts : list (option string)) (url : string) (now : Z) :
  Forall2 (fun candidate c => read_container (fst candidate) (snd candidate) = Some c)
          candidates containers ->
  parse_html_elements candidates now
  = parse_html_listings {| script_tags := scripts; item_containers := containers |} url now.
Proof.
  intros Hread. unfold parse_html_elements, parse_html_listings. simpl. f_equal.
  assert (Hfirst : Forall2 (fun candidate c =>
                              read_container (fst candidate) (snd candidate) = Some c)
                           (firstn 20 candidates) (firstn 20 containers))
    by now apply Forall2_take.
  induction Hfirst as [|candidate c cs1 cs2 Hc _ IH]; simpl; [reflexivity|].
  rewrite Hc. simpl. f_equal. exact IH.
Qed.

(** X7.  extract_id_from_html never returns the empty string: it returns a
    non-empty attribute, the digits after /items/ in the first link, or a
    generated html_ id.  So the test [listing['id'] and listing['title']] of
    the markup scan is decided by the title alone: among the first twenty
    candidates, exactly those whose price can be read and whose title text
    is not empty become listings. *)
Theorem markup_candidates_kept_by_title (candidates : list (element * Z)) (now : Z) :
  (forall c randint, extract_id_from_html c randint <> EmptyString)
  /\ parse_html_elements candidates now
     = omap (fun candidate =>
               c <- read_container (fst candidate) (snd candidate) ;;
               if str_truthy (extracted_title c) then Some (html_listing c now) else None)
            (firstn 20 candidates).
Proof.
  split; [exact extract_id_from_html_nonempty|].
  unfold parse_html_elements.
  induction (firstn 20 candidates) as [|[c randint] rest IH]; [reflexivity|].
  rewrite !omap_cons. cbn [fst snd].
  destruct (read_container c randint) as [read|] eqn:Hread; cbn [option_map]; [|exact IH].
  cbn [List.filter html_listing id title truthy].
  assert (Hid : str_truthy (extracted_id read) = true).
  { unfold read_container in Hread.
    destruct (extract_price_from_html c); [|discriminate]. injection Hread as <-. simpl.
    pose proof (extract_id_from_html_nonempty c randint) as Hne.
    now destruct (extract_id_from_html c randint). }
  rewrite Hid. cbn [andb]. destruct (str_truthy (extracted_title read)); now rewrite IH.
Qed.

End MarkupCoverage.

(** ** More on the pool (proxy_manager.py) *)

Lemma bisect_le (a : list Z) (x : Q) (hi : nat) : (bisect a x hi <= hi)%nat.
Proof.
  revert hi. induction a as [|y rest IH]; intros [|hi]; simpl; try lia.
  destruct (Qle_bool (inject_Z y) x); [|lia].
  specialize (IH hi). lia.
Qed.

Lemma In_take {A : Type} (x : A) (n : nat) (l : list A) : In x (firstn n l) -> In x l.
Proof.
  rewrite <- !list_elem_of_In, elem_of_take. intros (i & Hi & _).
  eapply list_elem_of_lookup_2, Hi.
Qed.

Lemma choices_member {A : Type} (population : list A) (weights : list Z) (u : Q) :
  population <> [] ->
  exists x, choices population weights u = Some x /\ In x population.
Proof.
  intros Hne. unfold choices.
  set (i := bisect _ _ _).
  assert (Hi : (i < List.length population)%nat).
  { pose proof (bisect_le (accumulate weights)
                  (u * inject_Z (List.last (accumulate weights) 0%Z))%Q
                  (List.length population - 1)) as Hle.
    fold i in Hle. destruct population; [contradiction | simpl in *; lia]. }
  destruct (lookup_lt_is_Some_2 _ _ Hi) as [x Hx].
  exists x. split; [exact Hx|]. apply list_elem_of_In. eapply list_elem_of_lookup_2, Hx.
Qed.

Lemma choice_member {A : Type} (seq : list A) (rnd : randomness) :
  seq <> [] -> exists x, choice seq rnd = Some x /\ In x seq.
Proof.
  intros Hne. unfold choice.
  assert (Hi : (randbelow rnd (List.length seq) mod List.length seq < List.length seq)%nat).
  { apply Nat.mod_upper_bound. now destruct seq. }
  destruct (lookup_lt_is_Some_2 _ _ Hi) as [x Hx].
  exists x. split; [exact Hx|]. apply list_elem_of_In. eapply list_elem_of_lookup_2, Hx.
Qed.

Section SelectionByReference.
Context {A : Type} (dictionary : A -> proxy_info).

Lemma keyed_by_snd (l : list A) (ks : list (Q * A)) :
  keyed_by dictionary l = Some ks -> map snd ks = l.
Proof.
  revert ks. induction l as [|p rest IH]; intros ks; simpl.
  - now intros [= <-].
  - destruct (proxy_score (dictionary p)); [|discriminate].
    destruct (keyed_by dictionary rest) as [ks'|]; [|discriminate].
    intros [= <-]. simpl. now rewrite (IH ks' eq_refl).
Qed.

Lemma keyed_by_keyed (l : list A) :
  keyed (map dictionary l)
  = option_map (map (fun ka => (fst ka, dictionary (snd ka)))) (keyed_by dictionary l).
Proof.
  induction l as [|p rest IH]; simpl; [reflexivity|].
  destruct (proxy_score (dictionary p)); [|reflexivity].
  rewrite IH. now destruct (keyed_by dictionary rest).
Qed.

Lemma insert_by_map {B C : Type} (f : B -> C) (before : B -> B -> bool)
    (before' : C -> C -> bool) (x : B) (l : list B) :
  (forall a b, before' (f a) (f b) = before a b) ->
  map f (insert_by before x l) = insert_by before' (f x) (map f l).
Proof.
  intros Hcompat. induction l as [|y rest IH]; simpl; [reflexivity|].
  rewrite Hcompat. destruct (before x y); simpl; [reflexivity | now rewrite IH].
Qed.

Lemma sorted_by_map {B C : Type} (f : B -> C) (before : B -> B -> bool)
    (before' : C -> C -> bool) (l : list B) :
  (forall a b, before' (f a) (f b) = before a b) ->
  map f (sorted_by before l) = sorted_by before' (map f l).
Proof.
  intros Hcompat. unfold sorted_by. induction l as [|x rest IH]; simpl; [reflexivity|].
  now rewrite (insert_by_map f before before' _ _ Hcompat), IH.
Qed.

Lemma choices_map {B C : Type} (f : B -> C) (population : list B) (weights : list Z) (u : Q) :
  choices (map f population) weights u = option_map f (choices population weights u).
Proof. unfold choices. now rewrite length_map, list_lookup_fmap. Qed.

Lemma choice_map {B C : Type} (f : B -> C) (seq : list B) (rnd : randomness) :
  choice (map f seq) rnd = option_map f (choice seq rnd).
Proof. unfold choice. now rewrite length_map, list_lookup_fmap. Qed.

(** [select_best] is select_best_proxy, seen through [dictionary]. *)
Lemma select_best_dictionary (l : list A) (rnd : randomness) :
  select_best_proxy (map dictionary l) rnd
  = option_map dictionary (select_best dictionary l rnd).
Proof.
  destruct l as [|p rest]; [reflexivity|].
  unfold select_best_proxy, select_best, sorted_proxies.
  change (map dictionary (p :: rest)) with (dictionary p :: map dictionary rest) at 1.
  cbv beta iota.
  change (dictionary p :: map dictionary rest) with (map dictionary (p :: rest)).
  rewrite keyed_by_keyed.
  destruct (keyed_by dictionary (p :: rest)) as [ks|]; cbn [option_map].
  - rewrite <- (sorted_by_map (fun ka => (fst ka, dictionary (snd ka)))
                  (fun a b => Qle_bool (fst b) (fst a)) by_score_descending)
      by reflexivity.
    rewrite map_map. cbn [snd].
    rewrite <- (map_map snd dictionary).
    rewrite !length_map, !firstn_map, !length_map, choices_map.
    reflexivity.
  - apply choice_map.
Qed.

Lemma select_best_member (l : list A) (rnd : randomness) :
  l <> [] -> exists x, select_best dictionary l rnd = Some x /\ In x l.
Proof.
  intros Hne. unfold select_best. destruct l as [|p rest]; [contradiction|].
  destruct (keyed_by dictionary (p :: rest)) as [ks|] eqn:Hks.
  - pose proof (keyed_by_snd _ _ Hks) as Hsnd.
    set (ranking := map snd (sorted_by (fun a b => Qle_bool (fst b) (fst a)) ks)).
    assert (Hperm : Permutation (p :: rest) ranking).
    { rewrite <- Hsnd. unfold ranking. apply Permutation_map, sorted_by_perm. }
    assert (Htop : firstn (Nat.min 3 (List.length ranking)) ranking <> []).
    { pose proof (Permutation_length Hperm) as Hlen. simpl in Hlen.
      destruct ranking as [|r ranking']; [discriminate|].
      simpl. destruct (List.length ranking'); discriminate. }
    destruct (choices_member _ (firstn (List.length (firstn (Nat.min 3 (List.length ranking))
                                                       ranking)) [3; 2; 1])
                (random rnd) Htop) as (x & Hx & Hin).
    exists x. split; [exact Hx|].
    apply (Permutation_in x (Permutation_sym Hperm)). eapply In_take, Hin.
  - apply choice_member. discriminate.
Qed.

End SelectionByReference.

(** X8.  select_best_proxy always answers on a non-empty list, and with a
    member of that list, whatever the counters, the response times and the
    draws are: through the weighted draw among the best three when the
    scores can be computed, through the uniform draw of the except branch
    when computing a score raises. *)
Theorem select_best_proxy_total (healthy_proxies : list proxy_info) (rnd : randomness) :
  healthy_proxies <> [] ->
  exists proxy, select_best_proxy healthy_proxies rnd = Some proxy
                /\ In proxy healthy_proxies.
Proof.
  intros Hne.
  destruct (select_best_member (fun p => p) healthy_proxies rnd Hne) as (x & Hx & Hin).
  exists x. split; [|exact Hin].
  rewrite <- (map_id healthy_proxies) at 1.
  rewrite (select_best_dictionary (fun p => p)), Hx. reflexivity.
Qed.

(** *** The invariants of a manager *)

Lemma well_formed_empty : Invariants.well_formed empty_manager.
Proof.
  split; [constructor|]. split; [intros a []|]. split; [|intros info []].
  intros u a Hu. simpl in Hu. rewrite lookup_empty in Hu. discriminate.
Qed.

Lemma well_formed_add (m : manager) (proxy_url kind : string) :
  Invariants.well_formed m ->
  Invariants.well_formed (snd (add_proxy m proxy_url kind)).
Proof.
  intros Hwf. unfold add_proxy.
  destruct (is_valid_proxy_url proxy_url) eqn:Hvalid; simpl; [|exact Hwf].
  destruct Hwf as (Hnodup & Hbound & Hindex & Hheap).
  split; [|split; [|split]]; simpl.
  - apply NoDup_ListNoDup.
    apply List.NoDup_app; [now apply NoDup_ListNoDup | repeat constructor; intros [] |].
    intros a Hin [<- | []]. apply Hbound in Hin. lia.
  - intros a. rewrite in_app_iff, length_app. simpl.
    intros [Hin | [<- | []]]; [apply Hbound in Hin|]; lia.
  - intros u a. rewrite lookup_insert_Some. intros [[<- <-] | [Hne Hold]].
    + split; [apply in_app_iff; right; now left|].
      eexists. split; [now apply list_lookup_middle | reflexivity].
    + destruct (Hindex u a Hold) as (Hin & info & Hinfo & Hurl).
      split; [apply in_app_iff; now left|].
      exists info. split; [|exact Hurl].
      rewrite lookup_app_l; [exact Hinfo | now apply Hbound].
  - intros info. rewrite in_app_iff. intros [Hin | [<- | []]]; [now apply Hheap|].
    simpl. repeat split; [lia | lia | exact Hvalid].
Qed.

Lemma In_insert {A : Type} (l : list A) (i : nat) (x y : A) :
  In y (<[i := x]> l) -> y = x \/ In y l.
Proof.
  rewrite <- !list_elem_of_In, !list_elem_of_lookup. intros (j & Hj).
  apply list_lookup_insert_Some in Hj. destruct Hj as [(_ & <- & _) | (_ & Hj)]; eauto.
Qed.

(** Rewriting one dictionary, keeping its url and sane counters. *)
Lemma well_formed_update (m : manager) (a : nat) (info info' : proxy_info) :
  Invariants.well_formed m ->
  heap m !! a = Some info ->
  url info' = url info ->
  0 <= success_count info' -> 0 <= failure_count info' ->
  Invariants.well_formed
    {| heap := <[a := info']> (heap m); proxies := proxies m;
       proxy_health := proxy_health m |}.
Proof.
  intros (Hnodup & Hbound & Hindex & Hheap) Ha Hurl Hs Hf.
  split; [|split; [|split]]; simpl.
  - exact Hnodup.
  - intros b Hin. rewrite length_insert. now apply Hbound.
  - intros u b Hub. destruct (Hindex u b Hub) as (Hin & old & Hold & Hu).
    split; [exact Hin|]. destruct (decide (a = b)) as [<- | Hne].
    + exists info'. split; [apply list_lookup_insert_eq; eapply lookup_lt_Some, Ha|].
      congruence.
    + exists old. split; [|exact Hu]. now rewrite list_lookup_insert_ne.
  - intros x Hx. apply In_insert in Hx. destruct Hx as [-> | Hx]; [|now apply Hheap].
    assert (Hin : In info (heap m))
      by (apply list_elem_of_In; eapply list_elem_of_lookup_2, Ha).
    destruct (Hheap info Hin) as (_ & _ & Hvalid). rewrite Hurl. auto.
Qed.

Lemma well_formed_remove (m : manager) (proxy_url : string) :
  Invariants.well_formed m ->
  Invariants.well_formed (snd (remove_proxy m proxy_url)).
Proof.
  intros (Hnodup & Hbound & Hindex & Hheap). unfold remove_proxy.
  split; [|split; [|split]]; simpl.
  - apply NoDup_ListNoDup, List.NoDup_filter. now apply NoDup_ListNoDup.
  - intros a. rewrite filter_In. intros [Hin _]. now apply Hbound.
  - intros u a. rewrite lookup_delete_Some. intros [Hne Hua].
    destruct (Hindex u a Hua) as (Hin & info & Hinfo & Hurl).
    split; [|eauto]. apply filter_In. split; [exact Hin|].
    rewrite Hinfo, Hurl. apply negb_true_iff, String.eqb_neq. congruence.
  - exact Hheap.
Qed.

Lemma report_counters (now : Z) (success : bool) (response_time : option Q)
    (info : proxy_info) :
  url (report now success response_time info) = url info
  /\ (0 <= success_count info -> 0 <= success_count (report now success response_time info))
  /\ (0 <= failure_count info -> 0 <= failure_count (report now success response_time info)).
Proof. unfold report. destruct success; simpl; repeat split; lia. Qed.

Lemma well_formed_report (m : manager) (now : Z) (proxy_url : string) (success : bool)
    (response_time : option Q) :
  Invariants.well_formed m ->
  Invariants.well_formed (report_proxy_result m now proxy_url success response_time).
Proof.
  intros Hwf. unfold report_proxy_result.
  destruct (proxy_health m !! proxy_url) as [a|]; [|exact Hwf].
  destruct (heap m !! a) as [info|] eqn:Ha; [|exact Hwf].
  destruct (report_counters now success response_time info) as (Hurl & Hs & Hf).
  assert (Hin : In info (heap m))
    by (apply list_elem_of_In; eapply list_elem_of_lookup_2, Ha).
  pose proof Hwf as (_ & _ & _ & Hheap).
  destruct (Hheap info Hin) as (Hs0 & Hf0 & _).
  apply (well_formed_update m a info); auto.
Qed.

Lemma well_formed_checks (probes : nat -> probe) (pooled : list nat)
    (index : gmap string nat) (addresses : list nat) (h : list proxy_info) :
  Invariants.well_formed {| heap := h; proxies := pooled; proxy_health := index |} ->
  Invariants.well_formed
    {| heap := foldl (check_at probes) h addresses; proxies := pooled;
       proxy_health := index |}.
Proof.
  revert h. induction addresses as [|a rest IH]; intros h Hwf; simpl; [exact Hwf|].
  apply IH. unfold check_at. destruct (h !! a) as [info|] eqn:Ha; [|exact Hwf].
  assert (Hin : In info h) by (apply list_elem_of_In; eapply list_elem_of_lookup_2, Ha).
  pose proof Hwf as (_ & _ & _ & Hheap). destruct (Hheap info Hin) as (Hs0 & Hf0 & _).
  apply (well_formed_update _ a info _ Hwf Ha); destruct (probes a); simpl in *; auto; lia.
Qed.

Lemma well_formed_sweep (probes : nat -> probe) (m : manager) :
  Invariants.well_formed m ->
  Invariants.well_formed (check_all_proxies_health probes m).
Proof. destruct m. apply well_formed_checks. Qed.

Lemma healthy_entries_spec (m : manager) (a : nat) (info : proxy_info) :
  In (a, info) (healthy_entries m)
  <-> In a (proxies m) /\ heap m !! a = Some info /\ is_healthy info = true.
Proof.
  unfold healthy_entries. rewrite <- !list_elem_of_In, list_elem_of_omap. split.
  - intros (b & Hb & Hsome). destruct (heap m !! b) as [i|] eqn:Hi; [|discriminate].
    destruct (is_healthy i) eqn:Hh; [|discriminate]. injection Hsome as <- <-. auto.
  - intros (Hin & Hinfo & Hh). exists a. split; [exact Hin|]. now rewrite Hinfo, Hh.
Qed.

Lemma well_formed_if_needed (now : Z) (probes : nat -> probe) (self : proxy_manager) :
  Invariants.well_formed (contents self) ->
  Invariants.well_formed (contents (check_proxy_health_if_needed now probes self)).
Proof.
  intros Hwf. unfold check_proxy_health_if_needed.
  destruct (match last_health_check self with
            | Some last => health_check_interval <? now - last
            | None => true
            end); [|exact Hwf].
  now apply well_formed_sweep.
Qed.

Lemma well_formed_get_proxy (now : Z) (probes : nat -> probe) (rnd : randomness)
    (used_at : Z) (self : proxy_manager) :
  Invariants.well_formed (contents self) ->
  Invariants.well_formed (contents (snd (get_proxy now probes rnd used_at self))).
Proof.
  intros Hwf. unfold get_proxy.
  pose proof (well_formed_if_needed now probes self Hwf) as Hchecked.
  set (checked := check_proxy_health_if_needed now probes self) in *.
  destruct (healthy_entries (contents checked)) as [|e rest] eqn:Hentries;
    [exact Hchecked|].
  destruct (select_best_member snd (e :: rest) rnd) as ([a info] & Hbest & Hin);
    [discriminate|].
  rewrite Hbest. simpl. rewrite <- Hentries in Hin.
  apply healthy_entries_spec in Hin. destruct Hin as (_ & Hinfo & _).
  pose proof Hchecked as (_ & _ & _ & Hheap).
  assert (Hmember : In info (heap (contents checked)))
    by (apply list_elem_of_In; eapply list_elem_of_lookup_2, Hinfo).
  destruct (Hheap info Hmember) as (Hs & Hf & _).
  now apply (well_formed_update _ a info _ Hchecked Hinfo).
Qed.

Lemma well_formed_load (m : manager) (text : string) :
  Invariants.well_formed m ->
  Invariants.well_formed (load_proxies_from_config m text).
Proof.
  unfold load_proxies_from_config. destruct (str_truthy text); [|auto].
  generalize (List.filter str_truthy (map strip (split_on "," text))).
  intros urls. revert m. induction urls as [|u rest IH]; intros m Hwf; simpl; [exact Hwf|].
  apply IH. now apply well_formed_add.
Qed.

Lemma well_formed_serve (c : call) (self : proxy_manager) :
  Invariants.well_formed (contents self) ->
  Invariants.well_formed (contents (serve c self)).
Proof.
  intros Hwf. destruct c; simpl.
  - now apply well_formed_add.
  - now apply well_formed_remove.
  - now apply well_formed_report.
  - now apply well_formed_get_proxy.
Qed.

Lemma well_formed_serve_all (calls : list call) (self : proxy_manager) :
  Invariants.well_formed (contents self) ->
  Invariants.well_formed (contents (serve_all calls self)).
Proof.
  unfold serve_all. revert self.
  induction calls as [|c rest IH]; intros self Hwf; simpl; [exact Hwf|].
  apply IH. now apply well_formed_serve.
Qed.

(** X9.  The invariants of the pool.  In a manager created from any
    PROXY_LIST and after any sequence of add_proxy, remove_proxy,
    report_proxy_result and get_proxy calls (health sweeps included),
    self.proxies lists distinct dictionaries, every url that proxy_health
    tracks maps to a dictionary that is in the pool and has that url, every
    dictionary has a url with one of the four valid prefixes, and no
    success or failure counter is negative. *)
Theorem pool_invariants (PROXY_LIST : string) (calls : list call) :
  let m := contents (serve_all calls (new_proxy_manager PROXY_LIST)) in
  NoDup (proxies m)
  /\ (forall u info, tracked m u = Some info -> url info = u /\ In info (pool m))
  /\ (forall info, In info (pool m) ->
        is_valid_proxy_url (url info) = true
        /\ 0 <= success_count info /\ 0 <= failure_count info).
Proof.
  intros m.
  assert (Hwf : Invariants.well_formed m).
  { apply well_formed_serve_all. simpl. apply well_formed_load, well_formed_empty. }
  destruct Hwf as (Hnodup & Hbound & Hindex & Hheap).
  split; [exact Hnodup|]. split.
  - intros u info. unfold tracked.
    destruct (proxy_health m !! u) as [a|] eqn:Hu; [|discriminate]. simpl. intros Ha.
    destruct (Hindex u a Hu) as (Hin & info' & Hinfo' & Hurl).
    assert (info' = info) by congruence. subst info'. split; [exact Hurl|].
    unfold pool. apply list_elem_of_In, list_elem_of_omap. exists a.
    split; [now apply list_elem_of_In | exact Ha].
  - intros info. unfold pool. rewrite <- list_elem_of_In, list_elem_of_omap.
    intros (a & _ & Ha).
    assert (Hin : In info (heap m))
      by (apply list_elem_of_In; eapply list_elem_of_lookup_2, Ha).
    destruct (Hheap info Hin) as (Hs & Hf & Hvalid). auto.
Qed.

(** *** The health sweep *)

Lemma check_at_lookup (probes : nat -> probe) (h : list proxy_info) (x a : nat) :
  check_at probes h x !! a
  = if decide (a = x) then check_single_proxy_health (probes a) <$> h !! a else h !! a.
Proof.
  unfold check_at. destruct (decide (a = x)) as [-> | Hne].
  - destruct (h !! x) as [info|] eqn:Hx; [|now rewrite Hx].
    rewrite list_lookup_insert_eq by (eapply lookup_lt_Some, Hx). reflexivity.
  - destruct (h !! x) as [info|]; [|reflexivity].
    now rewrite list_lookup_insert_ne by congruence.
Qed.

Lemma foldl_check_at (probes : nat -> probe) (addresses : list nat) :
  NoDup addresses ->
  forall (h : list proxy_info) (a : nat),
    foldl (check_at probes) h addresses !! a
    = if decide (a ∈ addresses)
      then check_single_proxy_health (probes a) <$> h !! a
      else h !! a.
Proof.
  induction 1 as [|x rest Hx Hnodup IH]; intros h a; simpl.
  - destruct (decide (a ∈ [])) as [Hin|_]; [|reflexivity]. now apply elem_of_nil in Hin.
  - rewrite IH, check_at_lookup.
    destruct (decide (a ∈ rest)) as [Hrest | Hrest];
      destruct (decide (a = x)) as [-> | Hne];
      destruct (decide (_ ∈ x :: rest)) as [Hin | Hin]; try reflexivity.
    + contradiction.
    + exfalso. apply Hin. now right.
    + exfalso. apply Hin. now right.
    + exfalso. apply Hin. now left.
    + apply elem_of_cons in Hin. destruct Hin; contradiction.
Qed.

(** X10.  What a health sweep leaves behind, in a pool of distinct
    dictionaries: every pooled dictionary has been checked exactly once and
    carries the verdict of its own probe (healthy with a success counted
    and the measured time stored, or unhealthy with a failure counted),
    whatever report_proxy_result had recorded before; dictionaries outside
    the pool, the pool itself and the index are untouched. *)
Theorem check_all_proxies_health_verdict (probes : nat -> probe) (m : manager) :
  NoDup (proxies m) ->
  let m' := check_all_proxies_health probes m in
  proxies m' = proxies m
  /\ proxy_health m' = proxy_health m
  /\ (forall a, In a (proxies m) ->
        heap m' !! a = check_single_proxy_health (probes a) <$> heap m !! a)
  /\ (forall a, ~ In a (proxies m) -> heap m' !! a = heap m !! a)
  /\ (forall a info', In a (proxies m) -> heap m' !! a = Some info' ->
        is_healthy info' = match probes a with Answered _ _ => true | Failed => false end).
Proof.
  intros Hnodup m'.
  assert (Hlookup : forall a,
             heap m' !! a
             = if decide (a ∈ proxies m)
               then check_single_proxy_health (probes a) <$> heap m !! a
               else heap m !! a)
    by (intros a; now apply foldl_check_at).
  split; [reflexivity|]. split; [reflexivity|]. split; [|split].
  - intros a Hin. rewrite Hlookup.
    destruct (decide (a ∈ proxies m)) as [_ | Hno]; [reflexivity|].
    now apply list_elem_of_In in Hin.
  - intros a Hno. rewrite Hlookup.
    destruct (decide (a ∈ proxies m)) as [Hin | _]; [|reflexivity].
    now apply list_elem_of_In in Hin.
  - intros a info' Hin. rewrite Hlookup.
    destruct (decide (a ∈ proxies m)) as [_ | Hno];
      [|now apply list_elem_of_In in Hin].
    destruct (heap m !! a) as [info|]; [|discriminate].
    simpl. intros [= <-]. now destruct (probes a).
Qed.

(** X11.  The schedule of the sweep.  After a health check started at [t0],
    no call made while the clock reads at most ten minutes more starts
    another one: the manager the calls produce does not depend on what the
    probes would find, and last_health_check stays [t0].  A get_proxy call
    made later than that, or on a manager that never checked, does sweep and
    records its own reading. *)
Theorem no_sweep_within_interval (self : proxy_manager) (t0 : Z) (calls : list call)
    (other : nat -> probe) :
  last_health_check self = Some t0 ->
  Forall (fun c => match c with
                   | GetProxy now _ _ _ => now - t0 <= health_check_interval
                   | _ => True
                   end) calls ->
  last_health_check (serve_all calls self) = Some t0
  /\ serve_all (map (with_probes other) calls) self = serve_all calls self
  /\ (forall now probes,
        health_check_interval < now - t0 ->
        check_proxy_health_if_needed now probes self
        = {| contents := check_all_proxies_health probes (contents self);
             last_health_check := Some now |}).
Proof.
  intros Hlast Hwithin. split; [|split].
  - revert self Hlast. unfold serve_all.
    induction Hwithin as [|c rest Hc _ IH]; intros self Hlast; simpl; [exact Hlast|].
    apply IH. destruct c as [u k | u | now u ok rt | now probes rnd used_at]; simpl;
      try exact Hlast.
    unfold get_proxy, check_proxy_health_if_needed. rewrite Hlast.
    replace (health_check_interval <? now - t0) with false
      by (symmetry; apply Z.ltb_ge; exact Hc).
    destruct (select_best snd (healthy_entries (contents self)) rnd) as [[a info]|];
      simpl; exact Hlast.
  - revert self Hlast. unfold serve_all.
    induction Hwithin as [|c rest Hc _ IH]; intros self Hlast; simpl; [reflexivity|].
    assert (Hsame : serve (with_probes other c) self = serve c self
                    /\ last_health_check (serve c self) = Some t0).
    { destruct c as [u k | u | now u ok rt | now probes rnd used_at]; simpl;
        try (split; [reflexivity | exact Hlast]).
      unfold get_proxy, check_proxy_health_if_needed. rewrite Hlast.
      replace (health_check_interval <? now - t0) with false
        by (symmetry; apply Z.ltb_ge; exact Hc).
      split; [reflexivity|].
      destruct (select_best snd (healthy_entries (contents self)) rnd) as [[a info]|];
        simpl; exact Hlast. }
    destruct Hsame as [-> Hlast']. now apply IH.
  - intros now probes Hlate. unfold check_proxy_health_if_needed. rewrite Hlast.
    now replace (health_check_interval <? now - t0) with true
      by (symmetry; apply Z.ltb_lt; exact Hlate).
Qed.

(** X12.  get_proxy answers None exactly when, after the health check that
    may precede the selection, no pooled dictionary is marked healthy.
    Otherwise it answers the url of a pooled dictionary that is marked
    healthy, stamps that dictionary's last_used, and leaves every other
    dictionary, the pool and the index as the health check left them. *)
Theorem get_proxy_answers_healthy (now : Z) (probes : nat -> probe) (rnd : randomness)
    (used_at : Z) (self : proxy_manager) :
  let checked := check_proxy_health_if_needed now probes self in
  let answer := get_proxy now probes rnd used_at self in
  (fst answer = None <->
     forall info, In info (pool (contents checked)) -> is_healthy info = false)
  /\ (fst answer = None -> snd answer = checked)
  /\ (forall u, fst answer = Some u ->
        exists a info,
          In a (proxies (contents checked))
          /\ heap (contents checked) !! a = Some info
          /\ is_healthy info = true
          /\ url info = u
          /\ heap (contents (snd answer)) !! a = Some (set_last_used used_at info)
          /\ (forall b, b <> a ->
                heap (contents (snd answer)) !! b = heap (contents checked) !! b)
          /\ proxies (contents (snd answer)) = proxies (contents checked)
          /\ proxy_health (contents (snd answer)) = proxy_health (contents checked)).
Proof.
  intros checked answer. unfold answer, get_proxy. fold checked.
  assert (Hnone : healthy_entries (contents checked) = [] <->
                  forall info, In info (pool (contents checked)) -> is_healthy info = false).
  { split.
    - intros Hempty info. unfold pool. rewrite <- list_elem_of_In, list_elem_of_omap.
      intros (a & Ha & Hinfo). destruct (is_healthy info) eqn:Hh; [|reflexivity].
      assert (Hin : In (a, info) (healthy_entries (contents checked)))
        by (apply healthy_entries_spec; split; [now apply list_elem_of_In | auto]).
      rewrite Hempty in Hin. destruct Hin.
    - intros Hall. destruct (healthy_entries (contents checked)) as [|[a info] rest] eqn:He;
        [reflexivity|].
      assert (Hin : In (a, info) (healthy_entries (contents checked)))
        by (rewrite He; now left).
      apply healthy_entries_spec in Hin. destruct Hin as (Ha & Hinfo & Hh).
      assert (Hpool : In info (pool (contents checked))).
      { unfold pool. apply list_elem_of_In, list_elem_of_omap. exists a.
        split; [now apply list_elem_of_In | exact Hinfo]. }
      rewrite (Hall info Hpool) in Hh. discriminate. }
  destruct (healthy_entries (contents checked)) as [|e rest] eqn:Hentries.
  - simpl. split; [|split].
    + split; [intros _; now apply Hnone | reflexivity].
    + reflexivity.
    + discriminate.
  - destruct (select_best_member snd (e :: rest) rnd) as ([a info] & Hbest & Hin);
      [discriminate|].
    rewrite Hbest. simpl. rewrite <- Hentries in Hin.
    apply healthy_entries_spec in Hin. destruct Hin as (Ha & Hinfo & Hh).
    split; [|split].
    + split; [discriminate|]. intros Hall. apply Hnone in Hall. discriminate.
    + discriminate.
    + intros u [= <-]. exists a, info. repeat split; auto.
      * apply list_lookup_insert_eq. eapply lookup_lt_Some, Hinfo.
      * intros b Hne. now apply list_lookup_insert_ne.
Qed.

(** *** Reports, removal, statistics and the configuration *)

Lemma tracked_report (m : manager) (now : Z) (u : string) (success : bool)
    (response_time : option Q) (info : proxy_info) :
  tracked m u = Some info ->
  tracked (report_proxy_result m now u success response_time) u
  = Some (report now success response_time info).
Proof.
  unfold tracked, report_proxy_result.
  destruct (proxy_health m !! u) as [a|] eqn:Hu; [|discriminate]. simpl. intros Ha.
  rewrite Ha. simpl. rewrite Hu. simpl.
  apply list_lookup_insert_eq. eapply lookup_lt_Some, Ha.
Qed.

Lemma after_failures_zero (info : proxy_info) : Invariants.after_failures 0 info = info.
Proof.
  unfold Invariants.after_failures. destruct info. simpl. f_equal. lia.
Qed.

Lemma after_failures_step (now : Z) (response_time : option Q) (n : Z) (info : proxy_info) :
  0 <= n ->
  Invariants.after_failures n (report now false response_time info)
  = Invariants.after_failures (1 + n) info.
Proof.
  intros Hn. unfold Invariants.after_failures, report. destruct info as [u k s f lu ls h rt].
  simpl. f_equal; [lia|].
  destruct (0 <? n) eqn:H0; destruct (s + 3 <? f + 1 + n) eqn:H1;
    destruct (s + 3 <? f + 1) eqn:H2; destruct (0 <? 1 + n) eqn:H3;
    destruct (s + 3 <? f + (1 + n)) eqn:H4; simpl; try reflexivity;
    repeat match goal with
           | H : (_ <? _) = true |- _ => apply Z.ltb_lt in H
           | H : (_ <? _) = false |- _ => apply Z.ltb_ge in H
           end; lia.
Qed.

(** X13.  Failures reported in a row.  After [n] failure reports for a
    tracked url its failure counter has grown by [n], and the dictionary
    is marked unhealthy exactly if it was so before or the failures have
    come to exceed the successes by more than three; the other keys are as
    before.  One success reported afterwards marks it healthy again,
    however many failures were counted. *)
Theorem failures_until_unhealthy (m : manager) (proxy_url : string) (info : proxy_info)
    (reports : list (Z * option Q)) :
  tracked m proxy_url = Some info ->
  let n := Z.of_nat (List.length reports) in
  let m' := report_failures m proxy_url reports in
  tracked m' proxy_url = Some (Invariants.after_failures n info)
  /\ (forall now response_time,
        exists info',
          tracked (report_proxy_result m' now proxy_url true response_time) proxy_url
            = Some info'
          /\ is_healthy info' = true
          /\ failure_count info' = failure_count info + n
          /\ success_count info' = success_count info + 1).
Proof.
  intros Htracked n m'.
  assert (Hrun : tracked m' proxy_url = Some (Invariants.after_failures n info)).
  { unfold m', n, report_failures. clear m' n. revert m info Htracked.
    induction reports as [|[now rt] rest IH]; intros m info Htracked.
    - simpl. now rewrite after_failures_zero.
    - cbn [foldl fst snd List.length].
      rewrite (IH _ _ (tracked_report m now proxy_url false rt info Htracked)).
      rewrite after_failures_step by lia. do 2 f_equal. lia. }
  split; [exact Hrun|]. intros now response_time.
  eexists. split; [apply tracked_report, Hrun|]. simpl. auto.
Qed.

Lemma omap_filter_lookup {A : Type} (h : list A) (keep : A -> bool) (addresses : list nat) :
  omap (fun a => h !! a)
       (List.filter (fun a => match h !! a with Some p => keep p | None => true end)
                    addresses)
  = List.filter keep (omap (fun a => h !! a) addresses).
Proof.
  induction addresses as [|a rest IH]; [reflexivity|].
  cbn [List.filter]. rewrite omap_cons.
  destruct (h !! a) as [p|] eqn:Ha.
  - cbn [List.filter]. destruct (keep p); [|exact IH].
    rewrite omap_cons, Ha. now rewrite IH.
  - rewrite omap_cons, Ha. exact IH.
Qed.

(** X14.  remove_proxy always answers True.  Afterwards the pool holds the
    dictionaries it held before except all those with the given url (both
    of them, if the url had been added twice), in the same order; the url
    is no longer tracked, every other url is tracked as before, and a
    result reported for the removed url changes nothing. *)
Theorem remove_proxy_forgets (m : manager) (proxy_url : string) :
  let m' := snd (remove_proxy m proxy_url) in
  fst (remove_proxy m proxy_url) = true
  /\ pool m' = List.filter (fun p => negb (String.eqb (url p) proxy_url)) (pool m)
  /\ tracked m' proxy_url = None
  /\ (forall other, other <> proxy_url -> tracked m' other = tracked m other)
  /\ (forall now success response_time,
        report_proxy_result m' now proxy_url success response_time = m').
Proof.
  intros m'. unfold m', remove_proxy, pool, tracked, report_proxy_result. simpl.
  split; [reflexivity|]. split; [|split; [|split]].
  - apply omap_filter_lookup.
  - now rewrite lookup_delete_eq.
  - intros other Hne. now rewrite lookup_delete_ne by congruence.
  - intros now success response_time. now rewrite lookup_delete_eq.
Qed.

Lemma py_sum_from (l : list Z) (acc : Z) : foldl Z.add acc l = acc + ProxyHealth.py_sum l.
Proof.
  unfold py_sum. revert acc. induction l as [|x rest IH]; intros acc; simpl; [lia|].
  rewrite (IH (acc + x)), (IH (0 + x)). lia.
Qed.

Lemma py_sum_nonneg (l : list Z) : Forall (fun x => 0 <= x) l -> 0 <= py_sum l.
Proof.
  induction 1 as [|x rest Hx _ IH]; [unfold py_sum; simpl; lia|].
  unfold py_sum. simpl. rewrite py_sum_from. lia.
Qed.

(** X15.  The statistics of a pool whose counters are not negative (every
    pool a manager can reach): healthy_proxies never exceeds total_proxies,
    the totals are not negative, and overall_success_rate lies between 0
    and 1; it is 0 when nothing was attempted yet, and 1 exactly when
    something succeeded and nothing failed. *)
Theorem get_proxy_stats_bounds (self : proxy_manager) :
  (forall p, In p (pool (contents self)) -> 0 <= success_count p /\ 0 <= failure_count p) ->
  let stats := get_proxy_stats self in
  (healthy_proxies stats <= total_proxies stats)%nat
  /\ 0 <= total_successes stats
  /\ 0 <= total_failures stats
  /\ (0 <= overall_success_rate stats)%Q
  /\ (overall_success_rate stats <= 1)%Q
  /\ (total_successes stats + total_failures stats = 0 ->
        overall_success_rate stats = 0%Q)
  /\ ((overall_success_rate stats == 1)%Q <->
        0 < total_successes stats /\ total_failures stats = 0).
Proof.
  intros Hcounters stats.
  assert (Hs : 0 <= total_successes stats).
  { apply py_sum_nonneg, Forall_map, List.Forall_forall. intros p Hp.
    now apply Hcounters. }
  assert (Hf : 0 <= total_failures stats).
  { apply py_sum_nonneg, Forall_map, List.Forall_forall. intros p Hp.
    now apply Hcounters. }
  split; [apply List.filter_length_le|]. split; [exact Hs|]. split; [exact Hf|].
  unfold stats, get_proxy_stats in *. simpl in *.
  set (s := py_sum (map success_count (pool (contents self)))) in *.
  set (f := py_sum (map failure_count (pool (contents self)))) in *.
  destruct (0 <? s + f) eqn:Hpos.
  - apply Z.ltb_lt in Hpos.
    assert (Hden : (0 < inject_Z (s + f))%Q) by (rewrite <- (Zlt_Qlt 0); exact Hpos).
    assert (Hnum : (0 <= inject_Z s)%Q) by (rewrite <- (Zle_Qle 0); exact Hs).
    assert (Hle : (inject_Z s <= inject_Z (s + f))%Q) by (rewrite <- Zle_Qle; lia).
    split; [apply Qle_shift_div_l; [exact Hden | lra]|].
    split; [apply Qle_shift_div_r; [exact Hden | lra]|].
    split; [lia|]. split.
    + intros Hone.
      assert (Heq : (inject_Z s == inject_Z (s + f))%Q).
      { rewrite <- (Qmult_div_r (inject_Z s) (inject_Z (s + f))) at 1 by lra.
        rewrite Hone. lra. }
      rewrite inject_Z_injective in Heq. lia.
    + intros [Hsucc Hzero]. rewrite Hzero, Z.add_0_r. unfold Qdiv. apply Qmult_inv_r.
      intros Habs. change 0%Q with (inject_Z 0) in Habs.
      rewrite inject_Z_injective in Habs. lia.
  - apply Z.ltb_ge in Hpos.
    split; [lra|]. split; [lra|]. split; [reflexivity|]. split.
    + intros Hone. lra.
    + intros [Hsucc Hzero]. lia.
Qed.

Lemma pool_add (m : manager) (proxy_url kind : string) :
  (forall a, In a (proxies m) -> (a < List.length (heap m))%nat) ->
  pool (snd (add_proxy m proxy_url kind))
  = pool m
    ++ (if is_valid_proxy_url proxy_url
        then [{| url := proxy_url; proxy_type := kind;
                 success_count := 0; failure_count := 0;
                 last_used := None; last_success := None;
                 is_healthy := true; response_time := None |}]
        else []).
Proof.
  intros Hbound. unfold add_proxy.
  destruct (is_valid_proxy_url proxy_url); simpl; [|now rewrite app_nil_r].
  unfold pool. simpl. rewrite omap_app. f_equal.
  - induction (proxies m) as [|a rest IH]; [reflexivity|].
    rewrite !omap_cons, lookup_app_l by (apply Hbound; now left).
    rewrite IH; [reflexivity|]. intros b Hb. apply Hbound. now right.
  - rewrite omap_cons. now rewrite list_lookup_middle.
Qed.

(** X16.  load_proxies_from_config splits PROXY_LIST at the commas, strips
    the blanks around each piece and drops the empty pieces; the pool of a
    new manager then holds, in that order, one fresh dictionary (type http,
    healthy, no attempts, no response time) for every piece with a valid
    prefix, a repeated url as often as it is listed; pieces without a
    valid prefix are skipped. *)
Theorem load_proxies_from_config_pool (PROXY_LIST : string) :
  let pieces := List.filter str_truthy (map strip (split_on "," PROXY_LIST)) in
  pool (contents (new_proxy_manager PROXY_LIST))
  = map (fun proxy_url =>
           {| url := proxy_url; proxy_type := "http";
              success_count := 0; failure_count := 0;
              last_used := None; last_success := None;
              is_healthy := true; response_time := None |})
        (List.filter is_valid_proxy_url pieces).
Proof.
  intros pieces. unfold new_proxy_manager, load_proxies_from_config. simpl. fold pieces.
  assert (Hfold : forall urls m,
             Invariants.well_formed m ->
             pool (foldl (fun self proxy_url => snd (add_proxy self proxy_url "http")) m urls)
             = pool m
               ++ map (fun proxy_url =>
                         {| url := proxy_url; proxy_type := "http";
                            success_count := 0; failure_count := 0;
                            last_used := None; last_success := None;
                            is_healthy := true; response_time := None |})
                      (List.filter is_valid_proxy_url urls)).
  { induction urls as [|u rest IH]; intros m Hwf; simpl; [now rewrite app_nil_r|].
    rewrite IH by now apply well_formed_add.
    rewrite pool_add by apply Hwf.
    destruct (is_valid_proxy_url u); simpl; [now rewrite <- app_assoc | now rewrite app_nil_r]. }
  destruct (str_truthy PROXY_LIST) eqn:Htext.
  - now rewrite Hfold by apply well_formed_empty.
  - destruct PROXY_LIST; [reflexivity | discriminate].
Qed.

(** ** More on the store and the tick (database.py, bot.py) *)

(** The tick rewrites checkpoints only: ids, the sequence and the filters
    are as before. *)
Lemma monitor_loop_frame (world : tick_world) (searches : list search_row) (s : state) :
  map search_id (search_urls (database (monitor_loop world searches s)))
  = map search_id (search_urls (database s))
  /\ map is_active (search_urls (database (monitor_loop world searches s)))
     = map is_active (search_urls (database s))
  /\ last_rowid (database (monitor_loop world searches s)) = last_rowid (database s)
  /\ filters (database (monitor_loop world searches s)) = filters (database s).
Proof.
  revert s. induction searches as [|search rest IH]; intros s; simpl; [auto|].
  destruct (IH {| clock := clock s + Z.of_N (duration world search);
                  database := match outcome world search with
                              | Completed io_ok =>
                                  update_search_last_check io_ok
                                    (clock s + Z.of_N (duration world search))
                                    (search_id search) (database s)
                              | _ => database s
                              end |}) as (Hids & Hactive & Hseq & Hfilters).
  rewrite Hids, Hactive, Hseq, Hfilters. simpl.
  destruct (outcome world search) as [| |[|]]; simpl; auto.
  rewrite !map_map. repeat split; apply map_ext; intros r;
    now destruct (search_id r =? search_id search).
Qed.

Lemma monitor_loop_clock (world : tick_world) (searches : list search_row) (s : state) :
  clock s <= clock (monitor_loop world searches s).
Proof.
  revert s. induction searches as [|search rest IH]; intros s; simpl; [lia|].
  etransitivity; [|apply IH]. simpl. lia.
Qed.

Lemma unique_ids_perform (op : operation) (s : state) :
  Invariants.unique_ids (database s) -> Invariants.unique_ids (database (perform op s)).
Proof.
  intros (Hnodup & Hseq0 & Hrange). destruct op as [channel url domain location by_user | id channel
                                         | channel kind value | world]; simpl.
  - split; [|split]; simpl.
    + rewrite map_app. simpl. apply NoDup_ListNoDup, List.NoDup_app.
      * now apply NoDup_ListNoDup.
      * repeat constructor. intros [].
      * intros a Hin [<- | []]. apply in_map_iff in Hin. destruct Hin as (r & Hr & Hin).
        apply Hrange in Hin. lia.
    + lia.
    + intros r Hin. apply in_app_iff in Hin. destruct Hin as [Hin | [<- | []]].
      * apply Hrange in Hin. lia.
      * simpl. lia.
  - split; [|split]; simpl.
    + rewrite map_map.
      replace (map _ (search_urls (database s))) with (map search_id (search_urls (database s)));
        [exact Hnodup|].
      apply map_ext. intros r.
      now destruct ((search_id r =? id) && (channel_id r =? channel)).
    + exact Hseq0.
    + intros r' Hin. apply in_map_iff in Hin. destruct Hin as (r & <- & Hin).
      apply Hrange in Hin.
      now destruct ((search_id r =? id) && (channel_id r =? channel)).
  - exact (conj Hnodup (conj Hseq0 Hrange)).
  - unfold monitor_vinted.
    destruct (monitor_loop_frame world
                (if searches_ok world then get_all_active_searches (database s) else []) s)
      as (Hids & _ & Hseq & _).
    split; [|split].
    + now rewrite Hids.
    + now rewrite Hseq.
    + intros r' Hin.
      assert (Hid : In (search_id r')
                       (map search_id (search_urls (database s)))).
      { rewrite <- Hids. now apply in_map. }
      apply in_map_iff in Hid. destruct Hid as (r & Hr & Hin0).
      apply Hrange in Hin0. rewrite Hseq. lia.
Qed.

Lemma unique_ids_empty : Invariants.unique_ids empty_db.
Proof. split; [constructor|]. split; [simpl; lia | intros r []]. Qed.

Lemma unique_ids_run (history : list (N * operation)) (s : state) :
  Invariants.unique_ids (database s) -> Invariants.unique_ids (database (run history s)).
Proof.
  revert s. induction history as [|[elapsed op] rest IH]; intros s Hunique; simpl;
    [exact Hunique|].
  apply IH. now apply unique_ids_perform.
Qed.

Lemma NoDup_map_eq {A B : Type} (f : A -> B) (l : list A) (a b : A) :
  NoDup (map f l) -> In a l -> In b l -> f a = f b -> a = b.
Proof.
  induction l as [|x rest IH]; simpl; [intros _ []|].
  rewrite NoDup_cons. intros [Hx Hrest] [<- | Ha] [<- | Hb] Heq; auto.
  - exfalso. apply Hx. rewrite Heq. apply list_elem_of_In. now apply in_map.
  - exfalso. apply Hx. rewrite <- Heq. apply list_elem_of_In. now apply in_map.
Qed.

Lemma find_unique (rows : list search_row) (r : search_row) :
  NoDup (map search_id rows) -> In r rows ->
  find (fun x => search_id x =? search_id r) rows = Some r.
Proof.
  induction rows as [|x rest IH]; simpl; [intros _ []|].
  rewrite NoDup_cons. intros [Hx Hrest] [<- | Hin].
  - now rewrite Z.eqb_refl.
  - destruct (search_id x =? search_id r) eqn:Hid; [|now apply IH].
    exfalso. apply Hx. apply Z.eqb_eq in Hid. rewrite Hid.
    apply list_elem_of_In. now apply in_map.
Qed.

(** X17.  The ids of the subscriptions.  In every store reached from an
    empty one by any history of commands and ticks, no two rows of
    search_urls share an id, every id lies between 1 and the last id handed
    out, the id add_search_url returns next is borne by no row yet, and the
    checkpoint looked up by id is the checkpoint of the row itself. *)
Theorem subscription_ids_unique (history : list (N * operation)) (t0 : Z) :
  let s := run history {| clock := t0; database := empty_db |} in
  NoDup (map search_id (search_urls (database s)))
  /\ (forall r, In r (search_urls (database s)) ->
        1 <= search_id r <= last_rowid (database s))
  /\ (forall now channel url domain location by_user,
        ~ In (fst (add_search_url now channel url domain location by_user (database s)))
             (map search_id (search_urls (database s))))
  /\ (forall r, In r (search_urls (database s)) ->
        checkpoint (search_id r) s = Some (last_check r)).
Proof.
  intros s.
  assert (Hunique : Invariants.unique_ids (database s))
    by (apply unique_ids_run, unique_ids_empty).
  destruct Hunique as (Hnodup & Hseq & Hrange).
  split; [exact Hnodup|]. split; [exact Hrange|]. split.
  - intros now channel url domain location by_user Hin. simpl in Hin.
    apply in_map_iff in Hin. destruct Hin as (r & Hr & Hin). apply Hrange in Hin. lia.
  - intros r Hin. unfold checkpoint. now rewrite find_unique.
Qed.

(** *** A removed subscription *)

Lemma deactivate_inactive (r : search_row) : is_active r = false -> deactivate r = r.
Proof. destruct r. simpl. now intros ->. Qed.

Lemma monitor_loop_keeps (world : tick_world) (searches : list search_row) (s : state)
    (r : search_row) :
  (forall x, In x searches -> search_id x <> search_id r) ->
  In r (search_urls (database s)) ->
  In r (search_urls (database (monitor_loop world searches s))).
Proof.
  revert s. induction searches as [|search rest IH]; intros s Hother Hin; simpl;
    [exact Hin|].
  apply IH; [intros x Hx; apply Hother; now right|]. simpl.
  destruct (outcome world search) as [| |[|]]; simpl; try exact Hin.
  apply in_map_iff. exists r. split; [|exact Hin].
  destruct (search_id r =? search_id search) eqn:Hid; [|reflexivity].
  apply Z.eqb_eq in Hid. exfalso. apply (Hother search); [now left | congruence].
Qed.

Lemma perform_keeps_inactive (op : operation) (s : state) (r : search_row) :
  Invariants.unique_ids (database s) ->
  In r (search_urls (database s)) -> is_active r = false ->
  In r (search_urls (database (perform op s))).
Proof.
  intros (Hnodup & _ & _) Hin Hinactive.
  destruct op as [channel url domain location by_user | id channel
                 | channel kind value | world]; simpl.
  - apply in_app_iff. now left.
  - apply in_map_iff. exists r. split; [|exact Hin].
    destruct ((search_id r =? id) && (channel_id r =? channel));
      [now apply deactivate_inactive | reflexivity].
  - exact Hin.
  - unfold monitor_vinted. apply monitor_loop_keeps; [|exact Hin].
    intros x Hx Hid. destruct (searches_ok world); [|destruct Hx].
    unfold get_all_active_searches in Hx.
    apply (Permutation_in x (Permutation_sym (sorted_by_perm _ _))) in Hx.
    apply filter_In in Hx. destruct Hx as [Hx Hactive].
    assert (x = r) by (apply (NoDup_map_eq search_id _ _ _ Hnodup Hx Hin Hid)).
    subst x. congruence.
Qed.

(** A command writes the store through one operation, or not at all. *)
Lemma execute_performs (permitted : bool) (channel author : Z) (c : Commands.command)
    (s : state) :
  Commands.execute permitted channel author c s = s
  \/ exists op, Commands.execute permitted channel author c s = perform op s.
Proof.
  unfold Commands.execute. destruct permitted; cbn [negb]; [|now left].
  destruct c as [url | id | kind value].
  - destruct (Commands.is_valid_vinted_url url); cbn [negb]; [right | now left].
    eexists. reflexivity.
  - right. eexists. reflexivity.
  - destruct (existsb (String.eqb kind) Commands.valid_filters); cbn [negb];
      [right | now left].
    eexists. reflexivity.
Qed.

Lemma unique_ids_update (io_ok : bool) (now id : Z) (d : db) :
  Invariants.unique_ids d ->
  Invariants.unique_ids (update_search_last_check io_ok now id d).
Proof.
  intros (Hnodup & Hseq & Hrange). destruct io_ok; [|exact (conj Hnodup (conj Hseq Hrange))].
  split; [|split]; simpl.
  - rewrite map_map.
    replace (map _ (search_urls d)) with (map search_id (search_urls d)); [exact Hnodup|].
    apply map_ext. intros r. now destruct (search_id r =? id).
  - exact Hseq.
  - intros r' Hin. apply in_map_iff in Hin. destruct Hin as (r & <- & Hin).
    apply Hrange in Hin. now destruct (search_id r =? id).
Qed.

Lemma update_keeps (io_ok : bool) (now id : Z) (d : db) (r : search_row) :
  search_id r <> id -> In r (search_urls d) ->
  In r (search_urls (update_search_last_check io_ok now id d)).
Proof.
  intros Hid Hin. destruct io_ok; [|exact Hin]. simpl.
  apply in_map_iff. exists r. split; [|exact Hin].
  apply Z.eqb_neq in Hid. now rewrite Hid.
Qed.

(** An inactive row in a store with unique ids: what commands and ticks
    preserve. *)
Lemma handle_keeps_inactive (a : Interleaving.arrival) (s : state) (r : search_row) :
  is_active r = false ->
  Invariants.unique_ids (database s) /\ In r (search_urls (database s)) ->
  Invariants.unique_ids (database (Interleaving.handle a s))
  /\ In r (search_urls (database (Interleaving.handle a s))).
Proof.
  intros Hinactive [Hunique Hin]. unfold Interleaving.handle.
  set (s0 := {| clock := clock s + Z.of_N (Interleaving.elapsed a); database := database s |}).
  destruct (execute_performs (Interleaving.permitted a) (Interleaving.channel a)
              (Interleaving.author a) (Interleaving.issued a) s0) as [-> | (op & ->)].
  - split; assumption.
  - split; [now apply unique_ids_perform | now apply perform_keeps_inactive].
Qed.

Lemma handle_all_keeps_inactive (commands : list Interleaving.arrival) (s : state)
    (r : search_row) :
  is_active r = false ->
  Invariants.unique_ids (database s) /\ In r (search_urls (database s)) ->
  Invariants.unique_ids (database (Interleaving.handle_all commands s))
  /\ In r (search_urls (database (Interleaving.handle_all commands s))).
Proof.
  intros Hinactive. unfold Interleaving.handle_all. revert s.
  induction commands as [|a rest IH]; intros s Hs; simpl; [exact Hs|].
  apply IH. now apply handle_keeps_inactive.
Qed.

(** The loop of a tick over a list that does not hold the id of the row,
    whatever commands are handled on the way. *)
Lemma busy_loop_keeps_inactive (world : Interleaving.busy_world) (searches : list search_row)
    (s : state) (r : search_row) :
  is_active r = false ->
  (forall x, In x searches -> search_id x <> search_id r) ->
  Invariants.unique_ids (database s) /\ In r (search_urls (database s)) ->
  Invariants.unique_ids (database (Interleaving.monitor_loop world searches s))
  /\ In r (search_urls (database (Interleaving.monitor_loop world searches s))).
Proof.
  intros Hinactive. revert s.
  induction searches as [|search rest IH]; intros s Hother Hs; simpl; [exact Hs|].
  apply IH; [intros x Hx; apply Hother; now right|].
  destruct (handle_all_keeps_inactive (Interleaving.arrivals world search) s r Hinactive Hs)
    as [Hunique Hin].
  simpl. destruct (outcome (Interleaving.quiet world) search) as [| |io_ok];
    try (split; assumption).
  split; [now apply unique_ids_update|].
  apply update_keeps; [|exact Hin].
  intros Hid. apply (Hother search); [now left | congruence].
Qed.

Lemma step_keeps_inactive (e : Interleaving.event) (s : state) (r : search_row) :
  is_active r = false ->
  Invariants.unique_ids (database s) /\ In r (search_urls (database s)) ->
  Invariants.unique_ids (database (Interleaving.step e s))
  /\ In r (search_urls (database (Interleaving.step e s))).
Proof.
  intros Hinactive [Hunique Hin]. destruct e as [a | elapsed world]; simpl.
  - now apply handle_keeps_inactive.
  - unfold Interleaving.monitor_vinted. simpl.
    apply busy_loop_keeps_inactive; [exact Hinactive | | split; assumption].
    intros x Hx Hid. destruct (searches_ok (Interleaving.quiet world)); [|destruct Hx].
    unfold get_all_active_searches in Hx.
    apply (Permutation_in x (Permutation_sym (sorted_by_perm _ _))) in Hx.
    apply filter_In in Hx. destruct Hx as [Hx Hactive].
    destruct Hunique as (Hnodup & _ & _).
    assert (x = r) by (apply (NoDup_map_eq search_id _ _ _ Hnodup Hx Hin Hid)).
    subst x. congruence.
Qed.

(** A tick during which no command arrives is the tick of [Bot]. *)
Lemma quiet_tick (world : tick_world) (s : state) :
  Interleaving.monitor_vinted
    {| Interleaving.quiet := world; Interleaving.arrivals := fun _ => [] |} s
  = monitor_vinted world s.
Proof.
  unfold Interleaving.monitor_vinted, monitor_vinted. simpl.
  generalize (if searches_ok world then get_all_active_searches (database s) else []).
  intros searches. revert s.
  induction searches as [|search rest IH]; intros s; simpl; [reflexivity|]. apply IH.
Qed.

(** X18.  A removed subscription stays removed, also when commands are
    handled while a tick is under way.  Take a store whose ids are unique
    (every store reached from an empty one) at a moment when no tick is
    under way, and a row of search_urls that is inactive.  Then no later
    command and no later tick changes the row, whatever commands are handled
    during the ticks: it is still there with the same checkpoint, it is the
    only row with its id, and get_all_active_searches never lists it, so no
    later tick scans it.  (A tick that read its list before the removal is
    not covered: it still writes the checkpoint of the row, see
    [removal_during_a_tick].) *)
Theorem removed_subscription_is_frozen (s : state) (events : list Interleaving.event)
    (r : search_row) :
  Invariants.unique_ids (database s) ->
  In r (search_urls (database s)) ->
  is_active r = false ->
  let s' := Interleaving.run events s in
  In r (search_urls (database s'))
  /\ (forall r', In r' (search_urls (database s')) -> search_id r' = search_id r -> r' = r)
  /\ (forall r', In r' (get_all_active_searches (database s')) ->
        search_id r' <> search_id r)
  /\ checkpoint (search_id r) s' = Some (last_check r).
Proof.
  intros Hunique Hin Hinactive s'.
  assert (Hkept : Invariants.unique_ids (database s') /\ In r (search_urls (database s'))).
  { unfold s', Interleaving.run. clear s'.
    assert (Hs : Invariants.unique_ids (database s) /\ In r (search_urls (database s)))
      by (split; assumption).
    clear Hunique Hin. revert s Hs.
    induction events as [|e rest IH]; intros s Hs; simpl; [exact Hs|].
    apply IH. now apply step_keeps_inactive. }
  destruct Hkept as [(Hnodup & _ & _) Hkept].
  assert (Honly : forall r', In r' (search_urls (database s')) ->
                             search_id r' = search_id r -> r' = r).
  { intros r' Hin' Hid. exact (NoDup_map_eq search_id _ _ _ Hnodup Hin' Hkept Hid). }
  split; [exact Hkept|]. split; [exact Honly|]. split.
  - intros r' Hr' Hid. unfold get_all_active_searches in Hr'.
    apply (Permutation_in r' (Permutation_sym (sorted_by_perm _ _))) in Hr'.
    apply filter_In in Hr'. destruct Hr' as [Hr' Hactive].
    rewrite (Honly r' Hr' Hid) in Hactive. congruence.
  - unfold checkpoint. now rewrite find_unique.
Qed.

(** *** A tick in which every search completes *)

Lemma monitor_loop_completed (world : tick_world) (searches : list search_row) (s : state) :
  (forall x, outcome world x = Completed true) ->
  forall r', In r' (search_urls (database (monitor_loop world searches s))) ->
    (In (search_id r') (map search_id searches) ->
       clock s <= last_check r' <= clock (monitor_loop world searches s))
    /\ (~ In (search_id r') (map search_id searches) ->
          In r' (search_urls (database s))).
Proof.
  intros Hcompleted. revert s.
  induction searches as [|search rest IH]; intros s r' Hin; simpl in *.
  - split; [intros [] | auto].
  - rewrite Hcompleted in Hin |- *.
    set (now := clock s + Z.of_N (duration world search)) in *.
    set (s1 := {| clock := now;
                  database := update_search_last_check true now (search_id search)
                                (database s) |}) in *.
    destruct (IH s1 r' Hin) as [Hinside Houtside].
    assert (Hnow : clock s <= now) by (unfold now; lia).
    destruct (in_dec Z.eq_dec (search_id r') (map search_id rest)) as [Hrest | Hrest].
    + split; [|intros Hno; exfalso; apply Hno; now right].
      intros _. specialize (Hinside Hrest). simpl in Hinside. lia.
    + specialize (Houtside Hrest). simpl in Houtside.
      apply in_map_iff in Houtside. destruct Houtside as (r & Hr & Hr0).
      destruct (search_id r =? search_id search) eqn:Hid.
      * apply Z.eqb_eq in Hid. subst r'. simpl.
        split; [|intros Hno; exfalso; apply Hno; left; now rewrite Hid].
        intros _. pose proof (monitor_loop_clock world rest s1) as Hclock.
        simpl in Hclock. lia.
      * apply Z.eqb_neq in Hid. subst r'.
        split; [|intros _; exact Hr0].
        intros [Heq | Hin']; [congruence | contradiction].
Qed.

(** X19.  A tick in which the searches are read and every search completes
    gives every active subscription a checkpoint read during the tick: not
    before the clock reading at which the tick started, not after the one
    at which it ended.  A row that shares its id with no active row is left
    as it was. *)
Theorem completed_tick_refreshes_all (world : tick_world) (s : state) :
  searches_ok world = true ->
  (forall x, outcome world x = Completed true) ->
  let s' := monitor_vinted world s in
  clock s <= clock s'
  /\ (forall r r',
        In r (search_urls (database s)) -> is_active r = true ->
        In r' (search_urls (database s')) -> search_id r' = search_id r ->
        clock s <= last_check r' <= clock s')
  /\ (forall r',
        In r' (search_urls (database s')) ->
        (forall r, In r (search_urls (database s)) -> is_active r = true ->
                   search_id r <> search_id r') ->
        In r' (search_urls (database s))).
Proof.
  intros Hok Hcompleted s'. unfold s', monitor_vinted. rewrite Hok.
  split; [apply monitor_loop_clock|]. split.
  - intros r r' Hr Hactive Hr' Hid.
    destruct (monitor_loop_completed world _ s Hcompleted r' Hr') as [Hinside _].
    apply Hinside. rewrite Hid. apply in_map.
    unfold get_all_active_searches. apply (Permutation_in r (sorted_by_perm _ _)).
    apply filter_In. auto.
  - intros r' Hr' Hnone.
    destruct (monitor_loop_completed world _ s Hcompleted r' Hr') as [_ Houtside].
    apply Houtside. intros Hin. apply in_map_iff in Hin. destruct Hin as (r & Hid & Hr).
    unfold get_all_active_searches in Hr.
    apply (Permutation_in r (Permutation_sym (sorted_by_perm _ _))) in Hr.
    apply filter_In in Hr. destruct Hr as [Hr Hactive].
    exact (Hnone r Hr Hactive Hid).
Qed.

(** *** Filters and channels *)

Lemma perform_filters (op : operation) (s : state) (channel : Z) :
  (forall kind value, op <> AddFilter channel kind value) ->
  get_channel_filters (database (perform op s)) channel
  = get_channel_filters (database s) channel.
Proof.
  intros Hop. destruct op as [c url domain location by_user | id c | c kind value | world];
    simpl; try reflexivity.
  - unfold get_channel_filters. simpl. rewrite List.filter_app. simpl.
    destruct (c =? channel) eqn:Hc; simpl; [|now rewrite app_nil_r].
    apply Z.eqb_eq in Hc. subst c. now destruct (Hop kind value).
  - unfold monitor_vinted, get_channel_filters.
    now destruct (monitor_loop_frame world
                    (if searches_ok world then get_all_active_searches (database s) else [])
                    s) as (_ & _ & _ & ->).
Qed.

Section FilterChannels.
Context `{Lib}.

(** X20.  The filters of a channel change only through an add_filter of
    that channel.  Over any history of commands and ticks that holds no
    such command, get_channel_filters answers for the channel what it
    answered before, and apply_filters keeps the same listings; adding a
    filter to a channel appends one active row to that channel's filters. *)
Theorem filters_are_per_channel (history : list (N * operation)) (s : state) (channel : Z) :
  Forall (fun step => forall kind value, snd step <> AddFilter channel kind value) history ->
  get_channel_filters (database (run history s)) channel
  = get_channel_filters (database s) channel
  /\ (forall listings,
        Commands.apply_filters_for (database (run history s)) listings channel
        = Commands.apply_filters_for (database s) listings channel)
  /\ (forall kind value,
        get_channel_filters (database (perform (AddFilter channel kind value) s)) channel
        = get_channel_filters (database s) channel
          ++ [{| f_channel_id := channel; filter_type := kind; filter_value := value;
                 f_is_active := true |}]).
Proof.
  intros Hhistory.
  assert (Hsame : get_channel_filters (database (run history s)) channel
                  = get_channel_filters (database s) channel).
  { revert s. induction Hhistory as [|[elapsed op] rest Hop _ IH]; intros s; simpl;
      [reflexivity|].
    rewrite IH. now rewrite perform_filters. }
  split; [exact Hsame|]. split.
  - intros listings. unfold Commands.apply_filters_for. now rewrite Hsame.
  - intros kind value. unfold get_channel_filters. simpl. rewrite List.filter_app. simpl.
    now rewrite Z.eqb_refl.
Qed.

End FilterChannels.

(** ** The commands (bot.py) *)

Lemma drop_prefix_eq (p s rest : string) : drop_prefix p s = Some rest -> s = p +:+ rest.
Proof.
  revert s. induction p as [|a p IH]; intros s; simpl.
  - now intros [= ->].
  - destruct s as [|b s]; [discriminate|].
    destruct (Ascii.eqb a b) eqn:Hab; [|discriminate].
    apply Ascii.eqb_eq in Hab. subst b. intros Hrest. now rewrite (IH s Hrest).
Qed.

Lemma drop_prefix_app (p rest : string) : drop_prefix p (p +:+ rest) = Some rest.
Proof. induction p as [|a p IH]; simpl; [reflexivity|]. now rewrite Ascii.eqb_refl. Qed.

Lemma letters_eq (n : nat) (s run rest : string) :
  Commands.letters n s = Some (run, rest) ->
  s = run +:+ rest
  /\ String.length run = n
  /\ Forall (fun c => is_lower c = true) (list_ascii_of_string run).
Proof.
  revert s run rest. induction n as [|n IH]; intros s run rest; simpl.
  - intros [= <- <-]. repeat split. constructor.
  - destruct s as [|c s]; [discriminate|].
    destruct (is_lower c) eqn:Hc; [|discriminate].
    destruct (Commands.letters n s) as [[run' rest']|] eqn:Hletters; [|discriminate].
    simpl. intros [= <- <-]. destruct (IH s run' rest' Hletters) as (-> & <- & Hall).
    repeat split. simpl. now constructor.
Qed.

Lemma letters_app (run rest : string) :
  Forall (fun c => is_lower c = true) (list_ascii_of_string run) ->
  Commands.letters (String.length run) (run +:+ rest) = Some (run, rest).
Proof.
  induction run as [|c run IH]; simpl; [reflexivity|].
  intros Hall. apply Forall_cons in Hall. destruct Hall as [Hc Hall].
  now rewrite Hc, (IH Hall).
Qed.

Lemma lower_not_separator (c : ascii) :
  is_lower c = true -> Ascii.eqb c "/" = false /\ Ascii.eqb c "." = false.
Proof. destruct c as [[] [] [] [] [] [] [] []]; vm_compute; auto; discriminate. Qed.

Lemma match_scheme_eq (s rest : string) :
  Commands.match_scheme s = Some rest -> s = "http://" +:+ rest \/ s = "https://" +:+ rest.
Proof.
  unfold Commands.match_scheme.
  destruct (drop_prefix "http" s) as [after|] eqn:Hhttp; [|discriminate].
  apply drop_prefix_eq in Hhttp. subst s.
  destruct (drop_prefix "s" after) as [after_s|] eqn:Hs.
  - apply drop_prefix_eq in Hs. subst after.
    destruct (drop_prefix "://" after_s) as [r|] eqn:Hsep.
    + intros [= <-]. apply drop_prefix_eq in Hsep. subst after_s. now right.
    + simpl. discriminate.
  - intros Hsep. apply drop_prefix_eq in Hsep. subst after. now left.
Qed.

Lemma until_slash_run (run rest : string) :
  Forall (fun c => Ascii.eqb c "/" = false) (list_ascii_of_string run) ->
  Commands.until_slash (run +:+ String "/" rest) = run.
Proof.
  induction run as [|c run IH]; simpl; [reflexivity|].
  intros Hall. apply Forall_cons in Hall. destruct Hall as [Hc Hall].
  now rewrite Hc, (IH Hall).
Qed.

Lemma split_on_letters (run : string) :
  Forall (fun c => is_lower c = true) (list_ascii_of_string run) ->
  split_on "." run = [run].
Proof.
  induction run as [|c run IH]; simpl; [reflexivity|].
  intros Hall. apply Forall_cons in Hall. destruct Hall as [Hc Hall].
  destruct (lower_not_separator c Hc) as [_ ->]. now rewrite (IH Hall).
Qed.

Lemma split_on_nonempty (sep : ascii) (s : string) : split_on sep s <> [].
Proof.
  induction s as [|c s IH]; simpl; [discriminate|].
  destruct (Ascii.eqb c sep); [discriminate|]. now destruct (split_on sep s).
Qed.

(** Splitting at a separator splits both sides. *)
Lemma split_on_app (sep : ascii) (p q : string) :
  split_on sep (p +:+ String sep q) = split_on sep p ++ split_on sep q.
Proof.
  induction p as [|c p IH]; simpl.
  - now rewrite Ascii.eqb_refl.
  - destruct (Ascii.eqb c sep); [now rewrite IH|].
    rewrite IH. pose proof (split_on_nonempty sep p) as Hne.
    now destruct (split_on sep p).
Qed.

Lemma re_search_domain_here (s group1 : string) :
  Commands.match_domain s = Some group1 -> Commands.re_search_domain s = Some group1.
Proof.
  intros Hmatch.
  assert (Hunfold : Commands.re_search_domain s
                    = match Commands.match_domain s with
                      | Some g => Some g
                      | None =>
                          match s with
                          | EmptyString => None
                          | String _ rest => Commands.re_search_domain rest
                          end
                      end) by (destruct s; reflexivity).
  now rewrite Hunfold, Hmatch.
Qed.

(** The urls is_valid_vinted_url accepts, and what add_search derives from
    one. *)
Lemma valid_url_shape (url : string) :
  Commands.is_valid_vinted_url url = true ->
  exists scheme tld rest,
    url = scheme +:+ "www.vinted." +:+ tld +:+ "/catalog?" +:+ rest
    /\ (scheme = "http://" \/ scheme = "https://")
    /\ (String.length tld = 2 \/ String.length tld = 3)%nat
    /\ Forall (fun c => is_lower c = true) (list_ascii_of_string tld)
    /\ Commands.extract_domain url = "www.vinted." +:+ tld
    /\ Commands.location_of ("www.vinted." +:+ tld) = tld.
Proof.
  unfold Commands.is_valid_vinted_url.
  destruct (Commands.match_scheme url) as [after_scheme|] eqn:Hscheme; [|discriminate].
  destruct (drop_prefix "www.vinted." after_scheme) as [after_host|] eqn:Hhost;
    [|discriminate].
  intros Hpath.
  assert (Hletters : exists n run after rest,
             (n = 2 \/ n = 3)%nat
             /\ Commands.letters n after_host = Some (run, after)
             /\ drop_prefix "/catalog?" after = Some rest).
  { destruct (Commands.letters 3 after_host) as [[run after]|] eqn:H3.
    - cbn [snd] in Hpath.
      destruct (drop_prefix "/catalog?" after) as [rest|] eqn:Hrest; [exists 3%nat; eauto 8|].
      destruct (Commands.letters 2 after_host) as [[run2 after2]|] eqn:H2; [|discriminate].
      cbn [snd] in Hpath.
      destruct (drop_prefix "/catalog?" after2) as [rest|] eqn:Hrest2; [|discriminate].
      exists 2%nat. eauto 8.
    - destruct (Commands.letters 2 after_host) as [[run2 after2]|] eqn:H2; [|discriminate].
      cbn [snd] in Hpath.
      destruct (drop_prefix "/catalog?" after2) as [rest|] eqn:Hrest2; [|discriminate].
      exists 2%nat. eauto 8. }
  destruct Hletters as (n & tld & after & rest & Hn & Hrun & Hrest).
  apply letters_eq in Hrun. destruct Hrun as (-> & Hlen & Hlower).
  apply drop_prefix_eq in Hrest. subst after.
  apply drop_prefix_eq in Hhost. subst after_scheme.
  assert (Hdomain : Commands.extract_domain url = "www.vinted." +:+ tld).
  { unfold Commands.extract_domain.
    rewrite (re_search_domain_here url ("www.vinted." +:+ tld)); [reflexivity|].
    unfold Commands.match_domain. rewrite Hscheme. cbv beta iota.
    change ("www.vinted." +:+ tld +:+ "/catalog?" +:+ rest)
      with (("www.vinted." +:+ tld) +:+ String "/" ("catalog?" +:+ rest)).
    rewrite until_slash_run; [reflexivity|].
    rewrite list_ascii_of_string_app. apply Forall_app. split.
    - repeat constructor.
    - eapply Forall_impl; [exact Hlower|]. intros c Hc. now apply lower_not_separator. }
  assert (Hlocation : Commands.location_of ("www.vinted." +:+ tld) = tld).
  { unfold Commands.location_of.
    replace (contains "." ("www.vinted." +:+ tld)) with true by reflexivity.
    change ("www.vinted." +:+ tld) with ("www.vinted" +:+ String "." tld).
    rewrite split_on_app, (split_on_letters tld Hlower).
    reflexivity. }
  apply match_scheme_eq in Hscheme.
  destruct Hscheme as [-> | ->]; eexists _, tld, rest;
    (split; [reflexivity|]); (split; [auto|]); (split; [lia|]); auto.
Qed.

Lemma valid_url_accepts (scheme tld rest : string) :
  scheme = "http://" \/ scheme = "https://" ->
  (String.length tld = 2 \/ String.length tld = 3)%nat ->
  Forall (fun c => is_lower c = true) (list_ascii_of_string tld) ->
  Commands.is_valid_vinted_url (scheme +:+ "www.vinted." +:+ tld +:+ "/catalog?" +:+ rest)
  = true.
Proof.
  intros Hscheme Hlen Hlower. unfold Commands.is_valid_vinted_url.
  assert (Hmatch : Commands.match_scheme
                     (scheme +:+ "www.vinted." +:+ tld +:+ "/catalog?" +:+ rest)
                   = Some ("www.vinted." +:+ tld +:+ "/catalog?" +:+ rest))
    by (destruct Hscheme as [-> | ->]; reflexivity).
  rewrite Hmatch.
  change (drop_prefix "www.vinted." ("www.vinted." +:+ tld +:+ "/catalog?" +:+ rest))
    with (Some (tld +:+ "/catalog?" +:+ rest)).
  cbv beta iota. destruct Hlen as [Hlen | Hlen].
  - destruct tld as [|c1 [|c2 [|c3 tld]]]; try discriminate.
    apply Forall_cons in Hlower. destruct Hlower as [H1 Hlower].
    apply Forall_cons in Hlower. destruct Hlower as [H2 _].
    simpl. now rewrite H1, H2.
  - rewrite <- Hlen, (letters_app tld _ Hlower). cbn [snd].
    now rewrite drop_prefix_app.
Qed.

(** X21.  is_valid_vinted_url accepts exactly the urls that start with
    http:// or https://, then www.vinted., then two or three lower-case
    letters, then /catalog? .  For an accepted url, add_search stores the
    domain www.vinted.<letters> and the location <letters>. *)
Theorem valid_vinted_url_domain (url : string) :
  (Commands.is_valid_vinted_url url = true <->
     exists scheme tld rest,
       url = scheme +:+ "www.vinted." +:+ tld +:+ "/catalog?" +:+ rest
       /\ (scheme = "http://" \/ scheme = "https://")
       /\ (String.length tld = 2 \/ String.length tld = 3)%nat
       /\ Forall (fun c => is_lower c = true) (list_ascii_of_string tld))
  /\ (Commands.is_valid_vinted_url url = true ->
        exists tld,
          Commands.extract_domain url = "www.vinted." +:+ tld
          /\ Commands.location_of (Commands.extract_domain url) = tld
          /\ (String.length tld = 2 \/ String.length tld = 3)%nat).
Proof.
  split; [split|].
  - intros Hvalid.
    destruct (valid_url_shape url Hvalid) as (scheme & tld & rest & Hurl & H1 & H2 & H3 & _).
    exists scheme, tld, rest. auto.
  - intros (scheme & tld & rest & -> & Hscheme & Hlen & Hlower).
    now apply valid_url_accepts.
  - intros Hvalid.
    destruct (valid_url_shape url Hvalid)
      as (scheme & tld & rest & _ & _ & Hlen & _ & Hdomain & Hlocation).
    exists tld. rewrite Hdomain. auto.
Qed.

(** *** What the commands let into the store *)

Lemma monitor_loop_rows (P : search_row -> Prop) (world : tick_world)
    (searches : list search_row) (s : state) :
  (forall r now, P r -> P (set_last_check now r)) ->
  (forall r, In r (search_urls (database s)) -> P r) ->
  forall r, In r (search_urls (database (monitor_loop world searches s))) -> P r.
Proof.
  intros Hset. revert s. induction searches as [|search rest IH]; intros s Hrows; simpl;
    [exact Hrows|].
  apply IH. simpl. destruct (outcome world search) as [| |[|]]; simpl; try exact Hrows.
  intros r' Hin. apply in_map_iff in Hin. destruct Hin as (r & <- & Hin).
  destruct (search_id r =? search_id search); auto.
Qed.

Lemma stored_by_commands_handle (e : Commands.event) (s : state) :
  Invariants.stored_by_commands (database s) ->
  Invariants.stored_by_commands (database (Commands.handle e s)).
Proof.
  intros [Hrows Hfilters].
  destruct e as [elapsed permitted channel author c | elapsed world]; simpl.
  - unfold Commands.execute. destruct permitted; cbn [negb]; [|now split].
    destruct c as [url | id | kind value].
    + destruct (Commands.is_valid_vinted_url url) eqn:Hvalid; cbn [negb]; [|now split].
      simpl. split; [|exact Hfilters]. intros r Hin. apply in_app_iff in Hin.
      destruct Hin as [Hin | [<- | []]]; [now apply Hrows|]. simpl. auto.
    + simpl. split; [|exact Hfilters]. intros r' Hin. apply in_map_iff in Hin.
      destruct Hin as (r & <- & Hin). specialize (Hrows r Hin).
      now destruct ((search_id r =? id) && (channel_id r =? channel)).
    + destruct (existsb (String.eqb kind) Commands.valid_filters) eqn:Hkind; cbn [negb];
        [|now split].
      split; [exact Hrows|]. intros f Hin. apply in_app_iff in Hin.
      destruct Hin as [Hin | [<- | []]]; [now apply Hfilters|].
      split; [exact Hkind | reflexivity].
  - unfold monitor_vinted.
    set (searches := if searches_ok world then _ else _).
    destruct (monitor_loop_frame world searches
                {| clock := clock s + Z.of_N elapsed; database := database s |})
      as (_ & _ & _ & Hsame).
    split; [|now rewrite Hsame].
    apply (monitor_loop_rows
             (fun r => Commands.is_valid_vinted_url (search_url r) = true
                       /\ domain r = Commands.extract_domain (search_url r)
                       /\ location r = Commands.location_of (domain r))).
    + intros r now Hr. exact Hr.
    + exact Hrows.
Qed.

(** X22.  What reaches the store through the commands.  After any sequence
    of add_search, remove_search and add_filter commands (permitted or
    not) and monitoring ticks on an empty store, every subscription holds
    a url that is_valid_vinted_url accepts, the domain www.vinted.<letters>
    and the location <letters> read from that url, and every filter is
    active and of one of the five kinds apply_filters knows: a url that is
    rejected, a filter type outside the list and a command without
    permission leave the store as it was. *)
Theorem commands_store_validated_input (events : list Commands.event) (t0 : Z) :
  let d := database (Commands.handle_all events {| clock := t0; database := empty_db |}) in
  (forall r, In r (search_urls d) ->
     Commands.is_valid_vinted_url (search_url r) = true
     /\ exists tld,
          domain r = "www.vinted." +:+ tld /\ location r = tld
          /\ (String.length tld = 2 \/ String.length tld = 3)%nat)
  /\ (forall f, In f (filters d) ->
        Spec.known_kind (filter_type f) = true /\ f_is_active f = true)
  /\ (forall channel author c s, Commands.execute false channel author c s = s)
  /\ (forall channel author url s,
        Commands.is_valid_vinted_url url = false ->
        Commands.execute true channel author (Commands.CmdAddSearch url) s = s)
  /\ (forall channel author kind value s,
        Spec.known_kind kind = false ->
        Commands.execute true channel author (Commands.CmdAddFilter kind value) s = s).
Proof.
  intros d.
  assert (Hstored : Invariants.stored_by_commands d).
  { unfold d, Commands.handle_all.
    assert (Hstart : Invariants.stored_by_commands
                       (database {| clock := t0; database := empty_db |}))
      by (split; intros ? []).
    revert Hstart. generalize {| clock := t0; database := empty_db |}.
    induction events as [|e rest IH]; intros s Hs; simpl; [exact Hs|].
    apply IH. now apply stored_by_commands_handle. }
  destruct Hstored as [Hrows Hfilters].
  split; [|split; [exact Hfilters|]].
  - intros r Hin. destruct (Hrows r Hin) as (Hvalid & Hdomain & Hlocation).
    split; [exact Hvalid|].
    destruct (valid_url_shape _ Hvalid) as (scheme & tld & rest & _ & _ & Hlen & _ & Hd & Hl).
    exists tld. rewrite Hlocation, Hdomain, Hd. auto.
  - split; [reflexivity|]. split.
    + intros channel author url s Hinvalid. unfold Commands.execute. cbn [negb].
      now rewrite Hinvalid.
    + intros channel author kind value s Hkind. unfold Commands.execute. cbn [negb].
      unfold Spec.known_kind in Hkind. unfold Commands.valid_filters. now rewrite Hkind.
Qed.

(** ** The added properties on worked examples *)

Section CoverageExamples.
#[local] Existing Instance SampleLib.lib.
Import Examples Cases.

(** The texts of the further examples decode as intended. *)
Example sample_library_on_the_cases :
  parse_vinted_listings page_numeric search_url 0 = [cap]
  /\ find_vinted_data (script_tags page_empty_catalog)
     = Some (Some (JDict [("catalog", JDict [])])).
Proof. vm_compute. auto. Qed.

(** X1 on the page without scripts: the jacket is returned, and it is
    newer than the checkpoint. *)
Lemma get_new_listings_only_newer_witness :
  In (html_listing (a_container "77" "Jacket") 31000000)
     (result (get_new_listings new_scraper 30000000 (answers page_markup_only) search_url
                               (Some (Naive 0))))
  /\ dt_gt (published_at (html_listing (a_container "77" "Jacket") 31000000)) (Naive 0)
     = Some true.
Proof.
  assert (Hin : In (html_listing (a_container "77" "Jacket") 31000000)
                   (result (get_new_listings new_scraper 30000000
                              (answers page_markup_only) search_url (Some (Naive 0)))))
    by (vm_compute; auto).
  split; [exact Hin|].
  exact (proj1 (get_new_listings_only_newer new_scraper 30000000 (answers page_markup_only)
                  search_url (Naive 0) _ Hin)).
Defined.

(** X2 half a second after a request to the same host: the wait is the
    missing second and a half. *)
Lemma apply_rate_limit_wait_bounds_witness :
  0 <= min_delay limiter
  /\ last_requests limiter !! "www.vinted.fr" = Some 1000000
  /\ fst (apply_rate_limit limiter 1500000 "www.vinted.fr")
     = Z.max 0 (1000000 + min_delay limiter * 1000000 - 1500000).
Proof.
  assert (Hlast : last_requests limiter !! "www.vinted.fr" = Some 1000000)
    by (vm_compute; reflexivity).
  split; [simpl; lia|]. split; [exact Hlast|].
  refine (proj2 (proj2 (apply_rate_limit_wait_bounds limiter 1500000 "www.vinted.fr" _ _))
            1000000 Hlast).
  - simpl. lia.
  - intros last Hl. rewrite Hlast in Hl. injection Hl as <-. lia.
Defined.

(** X5 on the page with an empty catalog and a jacket in its markup. *)
Lemma catalog_without_items_yields_nothing_witness :
  parse_vinted_listings page_empty_catalog search_url 0 = []
  /\ path_taken page_empty_catalog search_url 0 <> Some FallbackPath.
Proof.
  apply (catalog_without_items_yields_nothing page_empty_catalog search_url 0
           [("catalog", JDict [])]).
  - vm_compute. reflexivity.
  - reflexivity.
  - intros c Hc. vm_compute in Hc. injection Hc as <-. left. reflexivity.
Defined.

(** X6 on the page whose item carries a number as its creation time. *)
Lemma numeric_timestamps_are_comparable_witness :
  result (get_new_listings new_scraper 30000000 (answers page_numeric) search_url
                           (Some (Naive 0)))
  = List.filter (fun l => bool_decide (dt_gt (published_at l) (Naive 0) = Some true))
      (parse_vinted_listings page_numeric search_url
         (finished_at (get_new_listings new_scraper 30000000 (answers page_numeric)
                         search_url (Some (Naive 0))))).
Proof.
  refine (proj2 (numeric_timestamps_are_comparable new_scraper 30000000 (answers page_numeric)
                   search_url page_numeric 0 eq_refl _)).
  intros data c items item s Hdata Hc Hitems Hin.
  vm_compute in Hdata. injection Hdata as <-.
  vm_compute in Hc. injection Hc as <-.
  vm_compute in Hitems. injection Hitems as <-.
  destruct Hin as [Hitem | []]. injection Hitem as <-.
  vm_compute. discriminate.
Defined.

(** X8 on the three proxies of the scenario. *)
Lemma select_best_proxy_total_witness :
  exists proxy, select_best_proxy [proxy_A; proxy_B; proxy_C] (a_draw (1 # 2)) = Some proxy
                /\ In proxy [proxy_A; proxy_B; proxy_C].
Proof.
  apply (select_best_proxy_total [proxy_A; proxy_B; proxy_C] (a_draw (1 # 2))).
  discriminate.
Defined.

(** X10 on the pool with two dictionaries for one url: the first is found
    dead, the second alive. *)
Lemma check_all_proxies_health_verdict_witness :
  NoDup (proxies added_twice)
  /\ heap (check_all_proxies_health first_dead added_twice) !! 0%nat
     = check_single_proxy_health Failed <$> heap added_twice !! 0%nat.
Proof.
  assert (Hnodup : NoDup (proxies added_twice)).
  { apply NoDup_ListNoDup. vm_compute. repeat constructor; simpl; intuition discriminate. }
  split; [exact Hnodup|].
  refine (proj1 (proj2 (proj2 (check_all_proxies_health_verdict first_dead added_twice
                                 Hnodup))) 0%nat _).
  vm_compute. auto.
Defined.

(** X11 on a manager that checked at zero and serves three calls during the
    next five minutes. *)
Lemma no_sweep_within_interval_witness :
  last_health_check (serve_all calls_within_five_minutes checked_at_zero) = Some 0
  /\ serve_all (map (with_probes (fun _ => Failed)) calls_within_five_minutes)
               checked_at_zero
     = serve_all calls_within_five_minutes checked_at_zero.
Proof.
  destruct (no_sweep_within_interval checked_at_zero 0 calls_within_five_minutes
              (fun _ => Failed)) as (Hlast & Hsame & _).
  - reflexivity.
  - repeat constructor; unfold health_check_interval; lia.
  - split; assumption.
Defined.

(** X13 on a fresh proxy and four failures: the fourth marks it
    unhealthy. *)
Lemma failures_until_unhealthy_witness :
  tracked added_once proxy_url = Some fresh_info
  /\ tracked (report_failures added_once proxy_url four_failures) proxy_url
     = Some (Invariants.after_failures 4 fresh_info)
  /\ is_healthy (Invariants.after_failures 4 fresh_info) = false
  /\ is_healthy (Invariants.after_failures 3 fresh_info) = true.
Proof.
  assert (Htracked : tracked added_once proxy_url = Some fresh_info)
    by (vm_compute; reflexivity).
  split; [exact Htracked|]. split; [|split; reflexivity].
  exact (proj1 (failures_until_unhealthy added_once proxy_url fresh_info four_failures
                  Htracked)).
Defined.

(** X15 on the pool with one proxy and one success. *)
Lemma get_proxy_stats_bounds_witness :
  let stats := get_proxy_stats {| contents := measured; last_health_check := None |} in
  (healthy_proxies stats <= total_proxies stats)%nat
  /\ (overall_success_rate stats == 1)%Q.
Proof.
  assert (Hbounds := get_proxy_stats_bounds {| contents := measured; last_health_check := None |}).
  cbv zeta in *.
  assert (Hcounters : forall p,
             In p (pool (contents {| contents := measured; last_health_check := None |})) ->
             0 <= success_count p /\ 0 <= failure_count p).
  { intros p Hin. vm_compute in Hin. destruct Hin as [<- | []]. simpl. lia. }
  specialize (Hbounds Hcounters).
  split; [apply Hbounds|]. apply Hbounds. vm_compute. auto.
Defined.

End CoverageExamples.

Section StoreExamples.
Import Examples Cases.

(** X18 on the three subscriptions, the second one removed before two
    ticks during which a subscription is added and the third removed. *)
Lemma removed_subscription_is_frozen_witness :
  In removed_row (search_urls (database second_removed))
  /\ In removed_row (search_urls (database (Interleaving.run two_busy_ticks second_removed)))
  /\ checkpoint 2 (Interleaving.run two_busy_ticks second_removed) = Some 1005.
Proof.
  assert (Hin : In removed_row (search_urls (database second_removed)))
    by (vm_compute; auto).
  assert (Hfrozen := removed_subscription_is_frozen second_removed two_busy_ticks removed_row).
  cbv zeta in Hfrozen.
  assert (Hunique : Invariants.unique_ids (database second_removed)).
  { apply unique_ids_perform. apply (unique_ids_run registrations start).
    apply unique_ids_empty. }
  specialize (Hfrozen Hunique Hin eq_refl).
  split; [exact Hin|]. split; apply Hfrozen.
Defined.

(** What X18 leaves out.  The tick starts thirty seconds after the three
    registrations and reads all three subscriptions; [!remove_search 2] is
    handled while the first is scanned.  The tick goes on with the list it
    read: the second row, inactive by then, gets the checkpoint of this
    tick. *)
Example removal_during_a_tick :
  let s := {| clock := clock registered + 30; database := database registered |} in
  map search_id (get_all_active_searches (database s)) = [1; 2; 3]
  /\ checkpoint 2 s = Some 1005
  /\ checkpoint 2 (Interleaving.monitor_vinted removal_during_scan s) = Some 1047
  /\ map search_id
         (get_all_active_searches
            (database (Interleaving.monitor_vinted removal_during_scan s)))
     = [1; 3].
Proof. vm_compute. repeat split; reflexivity. Qed.

(** X19 on the three subscriptions and a tick in which all complete. *)
Lemma completed_tick_refreshes_all_witness :
  clock registered <= clock (monitor_vinted calm_tick registered)
  /\ checkpoint 3 (monitor_vinted calm_tick registered) = Some 1019.
Proof.
  assert (Htick := completed_tick_refreshes_all calm_tick registered eq_refl
                     (fun _ => eq_refl)).
  cbv zeta in Htick. split; [apply Htick | vm_compute; reflexivity].
Defined.

End StoreExamples.

Section FilterChannelExamples.
#[local] Existing Instance SampleLib.lib.
Import Examples Cases.

(** X20 on two ticks and a filter added to channel 11: channel 10 sees no
    filter, before and after. *)
Lemma filters_are_per_channel_witness :
  get_channel_filters (database (run ticks_and_a_filter registered)) 10
  = get_channel_filters (database registered) 10.
Proof.
  refine (proj1 (filters_are_per_channel ticks_and_a_filter registered 10 _)).
  repeat constructor; simpl; intros kind value; discriminate.
Defined.

End FilterChannelExamples.
